(** * LifeSynced: calendar synchronisation and conflict analysis

    A shallow embedding of the TypeScript sources of the LifeSynced
    calendar application:

    - [calendar-ui/app/api/sync/route.ts]: [expandEvent],
      [createEventRecord], [syncIcsCalendar] and the [POST] handler;
    - [calendar-ui/app/api/events/route.ts]: the [GET] handler and its
      [getBaseIdFromEventId];
    - [calendar-ui/lib/supabase.ts]: [toCalendarEvent];
    - [calendar-ui/app/page.tsx]: [getBaseIdFromEventId],
      [getOverlappingEventIds] and [calculateEventLayout].

    JavaScript strings are modelled as [string]; the operations on them
    that are modelled here (splitting and joining at an ASCII
    separator, search for an ASCII needle, removal of [-] and [:],
    tests for digits and for a prefix) give the same results on the
    UTF-16 code units of a string and on the bytes of its UTF-8
    encoding. [toLowerCase] and [trim], which depend on the Unicode
    tables of the engine, are parameters of the model. A [Date] is modelled by an integer: its time value, in
    milliseconds since the epoch, when the integer is within the range
    of time values, and the Invalid Date otherwise. [Set<string>] is
    [gset string], an untyped JSON value read from the store a
    [JsVal]. *)

From Stdlib Require Import ZArith List String Ascii Bool Lia QArith Lqa Sorted.
From stdpp Require Import base decidable option list strings pretty gmap.

Local Open Scope string_scope.
Local Open Scope list_scope.
Local Open Scope stdpp_scope.
Local Open Scope Z_scope.

(** ** JavaScript string primitives used by the sources *)

Module JsString.

(** [s.split(sep)] for a one-character separator: never empty, the
    pieces between the separators in order. *)
Fixpoint split (sep : ascii) (s : string) : list string :=
  match s with
  | EmptyString => [EmptyString]
  | String c r =>
      if Ascii.eqb c sep then EmptyString :: split sep r
      else match split sep r with
           | [] => [String c EmptyString]
           | p :: ps => String c p :: ps
           end
  end.

(** [parts.join(sep)]. *)
Fixpoint join (sep : ascii) (parts : list string) : string :=
  match parts with
  | [] => EmptyString
  | p :: ps =>
      match ps with
      | [] => p
      | _ :: _ => p +:+ String sep (join sep ps)
      end
  end.

(** [parts[parts.length - 1]] on an array of strings ([undefined] never
    arises where the sources use it: [split] is never empty). *)
Definition lastPart (parts : list string) : string :=
  List.last parts EmptyString.

(** [parts.slice(0, -1)]. *)
Definition sliceInit (parts : list string) : list string :=
  List.removelast parts.

(** [s.includes(c)] for a one-character needle. *)
Fixpoint includesChar (c : ascii) (s : string) : bool :=
  match s with
  | EmptyString => false
  | String d r => Ascii.eqb d c || includesChar c r
  end.

(** [s.startsWith(p)]. *)
Fixpoint startsWith (p s : string) : bool :=
  match p, s with
  | EmptyString, _ => true
  | String a p', String b s' => Ascii.eqb a b && startsWith p' s'
  | String _ _, EmptyString => false
  end.

(** [s.includes(needle)]. *)
Fixpoint includes (needle s : string) : bool :=
  startsWith needle s ||
  match s with
  | EmptyString => false
  | String _ r => includes needle r
  end.

(** [s.replace(/[ab]/g, '')]: every occurrence of the two characters
    removed. *)
Fixpoint removeChars (a b : ascii) (s : string) : string :=
  match s with
  | EmptyString => EmptyString
  | String c r =>
      if Ascii.eqb c a || Ascii.eqb c b then removeChars a b r
      else String c (removeChars a b r)
  end.

(** [s.split(sep)[0]]. *)
Definition splitHead (sep : ascii) (s : string) : string :=
  List.hd EmptyString (split sep s).

(** [\d] of a regular expression without the unicode flag. *)
Definition isDigit (c : ascii) : bool :=
  let n := nat_of_ascii c in (48 <=? n)%nat && (n <=? 57)%nat.

Fixpoint allDigits (s : string) : bool :=
  match s with
  | EmptyString => true
  | String c r => isDigit c && allDigits r
  end.

(** Truthiness of a string: non-empty. *)
Definition nonEmpty (s : string) : bool :=
  match s with EmptyString => false | String _ _ => true end.

End JsString.

(** ** Numbers

    The numbers that the sources compute with are integers or [NaN]
    ([None]). A number is a double: an integer is one when it has at
    most 53 significant bits, and the result of an operation is the
    exact result rounded to the nearest double, ties to the even
    significand. (Where a result leaves the range of the doubles the
    engine goes on with an infinity; the sources use such a number as
    the time value of a [Date] only, which is then invalid, as it is
    with the integer.) *)

Module JsNumber.

Definition roundDouble (z : Z) : Z :=
  let a := Z.abs z in
  let e := Z.log2 a - 52 in
  if e <=? 0 then z
  else
    let u := 2 ^ e in
    let q := a / u in
    let r := a mod u in
    let q' := if (u <? 2 * r) || ((u =? 2 * r) && Z.odd q)
              then q + 1 else q in
    Z.sgn z * (q' * u).

Definition add (a b : option Z) : option Z :=
  match a, b with
  | Some x, Some y => Some (roundDouble (x + y))
  | _, _ => None
  end.

Definition sub (a b : option Z) : option Z :=
  match a, b with
  | Some x, Some y => Some (roundDouble (x - y))
  | _, _ => None
  end.

Definition mul (a b : option Z) : option Z :=
  match a, b with
  | Some x, Some y => Some (roundDouble (x * y))
  | _, _ => None
  end.

End JsNumber.

(** ** [Date]

    A [Date] is modelled by an integer [d]: when [valid d] it is the
    date with the time value [d], milliseconds since
    1970-01-01T00:00:00Z; every other integer stands for the Invalid
    Date, whose time value is [NaN]. *)

Module JsDate.

Definition msPerDay : Z := 86400000.
Definition msPerHour : Z := 3600000.

(** The largest time value (ECMAScript [TimeClip]). *)
Definition maxTime : Z := 8640000000000000.

Definition valid (d : Z) : bool := Z.abs d <=? maxTime.

(** [d.getTime()], and [d.valueOf()] in a comparison. *)
Definition getTime (d : Z) : option Z := if valid d then Some d else None.

Definition invalidDate : Z := maxTime + 1.

(** [new Date(n)]. *)
Definition newDate (n : option Z) : Z :=
  match n with
  | Some v => v
  | None => invalidDate
  end.

(** [a > b], [a >= b] and [a <= b] on two [Date]s: false when one of
    them is invalid. *)
Definition gtDate (a b : Z) : bool :=
  match getTime a, getTime b with
  | Some x, Some y => x >? y
  | _, _ => false
  end.

Definition geDate (a b : Z) : bool :=
  match getTime a, getTime b with
  | Some x, Some y => x >=? y
  | _, _ => false
  end.

Definition leDate (a b : Z) : bool :=
  match getTime a, getTime b with
  | Some x, Some y => x <=? y
  | _, _ => false
  end.

(** Day number and time within the day (ECMAScript [Day] and
    [TimeWithinDay]); [Z.div] rounds towards minus infinity. *)
Definition day (t : Z) : Z := t / msPerDay.
Definition timeWithinDay (t : Z) : Z := t mod msPerDay.

(** Proleptic Gregorian year, month (1..12) and day of the month of a
    day number counted from the epoch. *)
Definition civil (days : Z) : Z * Z * Z :=
  let z := days + 719468 in
  let era := z / 146097 in
  let doe := z - era * 146097 in
  let yoe := (doe - doe / 1460 + doe / 36524 - doe / 146096) / 365 in
  let doy := doe - (365 * yoe + yoe / 4 - yoe / 100) in
  let mp := (5 * doy + 2) / 153 in
  let d := doy - (153 * mp + 2) / 5 + 1 in
  let m := if mp <? 10 then mp + 3 else mp - 9 in
  let y := yoe + era * 400 in
  (if m <=? 2 then y + 1 else y, m, d).

Definition getUTCFullYear (t : Z) : Z := fst (fst (civil (day t))).
Definition getUTCMonth1 (t : Z) : Z := snd (fst (civil (day t))).
Definition getUTCDate (t : Z) : Z := snd (civil (day t)).
Definition getUTCHours (t : Z) : Z := timeWithinDay t / msPerHour.
Definition getUTCMinutes (t : Z) : Z := (timeWithinDay t / 60000) mod 60.
Definition getUTCSeconds (t : Z) : Z := (timeWithinDay t / 1000) mod 60.
Definition getUTCMilliseconds (t : Z) : Z := timeWithinDay t mod 1000.

Definition digitChar (d : Z) : ascii := ascii_of_nat (48 + Z.to_nat d).

(** The [k] low decimal digits of [n], most significant first, in
    front of [acc]. *)
Fixpoint digitsAcc (k : nat) (n : Z) (acc : string) : string :=
  match k with
  | O => acc
  | S k' => digitsAcc k' (n / 10) (String (digitChar (n mod 10)) acc)
  end.

Definition pad (k : nat) (n : Z) : string := digitsAcc k n EmptyString.

(** Year of the ISO format: four digits for 0..9999, otherwise a sign
    and six digits. *)
Definition yearString (y : Z) : string :=
  if (0 <=? y) && (y <=? 9999) then pad 4 y
  else (if y <? 0 then "-" else "+") +:+ pad 6 (Z.abs y).

(** [d.toISOString()] of a valid date: [YYYY-MM-DDTHH:mm:ss.sssZ]. On
    the Invalid Date the built-in throws a [RangeError]; the callers
    test [valid] first. *)
Definition toISOString (t : Z) : string :=
  yearString (getUTCFullYear t) +:+ "-" +:+ pad 2 (getUTCMonth1 t) +:+ "-"
    +:+ pad 2 (getUTCDate t) +:+ "T" +:+ pad 2 (getUTCHours t) +:+ ":"
    +:+ pad 2 (getUTCMinutes t) +:+ ":" +:+ pad 2 (getUTCSeconds t) +:+ "."
    +:+ pad 3 (getUTCMilliseconds t) +:+ "Z".

(** The instants whose ISO year has four digits. *)
Definition fourDigitYear (t : Z) : bool :=
  (0 <=? getUTCFullYear t) && (getUTCFullYear t <=? 9999).

(** [YYYYMMDDTHHMMSS] of an instant with a four-digit year. *)
Definition compactTimestamp (t : Z) : string :=
  pad 4 (getUTCFullYear t) +:+ pad 2 (getUTCMonth1 t)
    +:+ pad 2 (getUTCDate t) +:+ "T" +:+ pad 2 (getUTCHours t)
    +:+ pad 2 (getUTCMinutes t) +:+ pad 2 (getUTCSeconds t).

End JsDate.

(** ** ical.js as the sync route sees it ([types/ical.js.d.ts]) *)

Module Ical.

(** [ICAL.Time]: [toJSDate()], a [Date] that need not be valid, and the
    [isDate] flag. *)
Record Time := { toJSDate : Z; isDate : bool }.

(** One call of [RecurExpansion.next()]: a time, [null], or an
    exception. *)
Inductive Step :=
| Yield (t : Time)
| Done
| Throw.

(** [ICAL.Event]. [iterator k] is what the [k]-th call of [next()] on
    [event.iterator()] gives, counted from 0; an [event.iterator()]
    that throws is an iterator whose call 0 throws. [duration] is
    [toSeconds()] of the [Duration], an integer, when there is one. *)
Record Event := {
  uid : string;
  summary : string;
  description : string;
  location : string;
  startDate : option Time;
  endDate : option Time;
  duration : option Z;
  organizer : option string;
  isRecurring : bool;
  iterator : nat -> Step
}.

End Ical.

(** ** [app/api/sync/route.ts] *)

Module Sync.

Import JsString JsNumber JsDate.

(** A call that throws an [Error] with a message, or returns. *)
Inductive Thrown (A : Type) :=
| Throws (message : string)
| Returns (a : A).
Arguments Throws {A} message.
Arguments Returns {A} a.

Definition mapReturned {A B : Type} (f : A -> B) (t : Thrown A) : Thrown B :=
  match t with
  | Throws msg => Throws msg
  | Returns a => Returns (f a)
  end.

(** The message of the [RangeError] that [toISOString] throws on the
    Invalid Date (in V8, the engine of Node.js). *)
Definition RangeError_message : string := "Invalid time value".

Inductive FeedSource := Ics | AppleCalendar.

Definition sourceName (s : FeedSource) : string :=
  match s with Ics => "ics" | AppleCalendar => "apple_calendar" end.

(** The [Partial<Appointment>] rows the sync writes. *)
Record Appointment := {
  id : string;
  subject : string;
  start_time : string;
  end_time : string;
  location : string;
  organizer_email : string;
  organizer_name : string;
  attendees : list string;
  body_preview : string;
  is_all_day : bool;
  source : string;
  updated_at : string
}.

Definition STATUS_WORDS : list string :=
  ["[Free]"; "[Busy]"; "[Tentative]"; "[Out of Office]"; "[Working Elsewhere]"].

Definition maxIterations : nat := 500.

(** [a || b] on strings. *)
Definition orElse (a b : string) : string := if nonEmpty a then a else b.

(** [startDate.toISOString().replace(/[-:]/g, '').split('.')[0]]. *)
Definition dateStrOf (startDate : Z) : string :=
  splitHead "." (removeChars "-" ":" (JsDate.toISOString startDate)).

(** [now] is the reading of the clock during the call ([Date.now()],
    [new Date()]), a valid date. The function returns [null] or a row,
    or throws the [RangeError] of [startDate.toISOString()] or
    [endDate.toISOString()]. *)
Definition createEventRecord (now : Z) (event : Ical.Event)
    (startDate : option Z) (source : FeedSource)
    : Thrown (option Appointment) :=
  match startDate with
  | None => Returns None
  | Some startDate =>
      let uid := orElse (Ical.uid event) ("unknown_" +:+ pretty now) in
      let endDate :=
        match Ical.duration event with
        | Some seconds =>
            newDate (add (getTime startDate) (mul (Some seconds) (Some 1000)))
        | None =>
            match Ical.endDate event with
            | Some originalEnd =>
                match Ical.startDate event with
                | Some originalStart =>
                    let durationMs :=
                      sub (getTime (Ical.toJSDate originalEnd))
                          (getTime (Ical.toJSDate originalStart)) in
                    newDate (add (getTime startDate) durationMs)
                | None =>
                    newDate (add (getTime startDate) (Some (60 * 60 * 1000)))
                end
            | None =>
                newDate (add (getTime startDate) (Some (60 * 60 * 1000)))
            end
        end in
      if negb (valid startDate) then Throws RangeError_message
      else
        let dateStr := dateStrOf startDate in
        let eventId := uid +:+ "_" +:+ dateStr in
        let isAllDay :=
          match Ical.startDate event with
          | Some t => Ical.isDate t
          | None => false
          end in
        if negb (valid endDate) then Throws RangeError_message
        else
          Returns
            (Some {| id := eventId;
                     subject := orElse (Ical.summary event) "No Title";
                     start_time := toISOString startDate;
                     end_time := toISOString endDate;
                     location := orElse (Ical.location event) "";
                     organizer_email :=
                       orElse (match Ical.organizer event with
                               | Some o => o
                               | None => ""
                               end) "";
                     organizer_name := "";
                     attendees := [];
                     body_preview := orElse (Ical.description event) "";
                     is_all_day := isAllDay;
                     source := sourceName source;
                     updated_at := toISOString now |})
  end.

(** A row without its last-updated timestamp. *)
Definition withoutUpdatedAt (a : Appointment) : Appointment :=
  {| id := id a; subject := subject a; start_time := start_time a;
     end_time := end_time a; location := location a;
     organizer_email := organizer_email a;
     organizer_name := organizer_name a; attendees := attendees a;
     body_preview := body_preview a; is_all_day := is_all_day a;
     source := source a; updated_at := "" |}.

(** [if (occurrence) results.push(occurrence)]. *)
Definition pushIf (results : list Appointment) (r : option Appointment)
    : list Appointment :=
  match r with
  | Some a => results ++ [a]
  | None => results
  end.

Inductive LoopExit :=
| Finished   (* the condition failed, or [break] *)
| Raised.    (* [iterator.next()] or [createEventRecord] threw *)

Record LoopResult := {
  emitted : list Appointment;  (* [results] when the loop is left *)
  count : nat;                 (* [count] when the loop is left *)
  exit : LoopExit
}.

Section Engine.

(** [String.prototype.toLowerCase] and [String.prototype.trim] of the
    engine. *)
Variable toLowerCase : string -> string.
Variable trim : string -> string.

Section Expand.

(** [clock k]: the reading of the clock while the record of the
    candidate with index [k] is created. *)
Variable clock : nat -> Z.
Variable event : Ical.Event.
Variables rangeStart rangeEnd : Z.
Variable source : FeedSource.

(** The [while (next && count < maxIterations)] loop inside its [try].
    [remaining] is [maxIterations - count]; [next] is the value of the
    variable [next], the result of call [count] of [iterator.next()]. *)
Fixpoint whileLoop (remaining : nat) (count : nat) (next : Ical.Step)
    (results : list Appointment) : LoopResult :=
  match next with
  | Ical.Throw => {| emitted := results; count := count; exit := Raised |}
  | Ical.Done => {| emitted := results; count := count; exit := Finished |}
  | Ical.Yield t =>
      match remaining with
      | O => {| emitted := results; count := count; exit := Finished |}
      | S remaining' =>
          let occurrenceDate := Ical.toJSDate t in
          if gtDate occurrenceDate rangeEnd
          then {| emitted := results; count := count; exit := Finished |}
          else if geDate occurrenceDate rangeStart
          then
            match createEventRecord (clock count) event
                    (Some occurrenceDate) source with
            | Throws _ =>
                {| emitted := results; count := count; exit := Raised |}
            | Returns occurrence =>
                whileLoop remaining' (S count)
                  (Ical.iterator event (S count)) (pushIf results occurrence)
            end
          else
            whileLoop remaining' (S count)
              (Ical.iterator event (S count)) results
      end
  end.

Definition expandLoop : LoopResult :=
  whileLoop maxIterations 0 (Ical.iterator event 0) [].

(** The early return for free/busy placeholders of 24 hours or more
    on the work feed. The quotient of the difference by 3600000 is at
    least 24 exactly when the difference is at least 24 * 3600000. *)
Definition skipsStatusBlock : bool :=
  match source with
  | Ics =>
      let subject := orElse (Ical.summary event) "" in
      existsb (fun sw => includes (toLowerCase sw) (toLowerCase subject))
              STATUS_WORDS
      && match Ical.startDate event, Ical.endDate event with
         | Some s, Some e =>
             match sub (getTime (Ical.toJSDate e))
                       (getTime (Ical.toJSDate s)) with
             | Some difference => difference >=? 24 * (1000 * 60 * 60)
             | None => false
             end
         | _, _ => false
         end
  | AppleCalendar => false
  end.

(** The rows returned, or the error that leaves the function: the
    [RangeError] of a record that cannot be created in the [catch]
    block or for a single event. *)
Definition expandEvent : Thrown (list Appointment) :=
  if skipsStatusBlock then Returns []
  else if Ical.isRecurring event then
    let r := expandLoop in
    match exit r with
    | Finished => Returns (emitted r)
    | Raised =>
        match createEventRecord (clock (count r)) event
                (Ical.toJSDate <$> Ical.startDate event) source with
        | Throws msg => Throws msg
        | Returns occurrence => Returns (pushIf (emitted r) occurrence)
        end
    end
  else
    match Ical.startDate event with
    | Some s =>
        let startDate := Ical.toJSDate s in
        if geDate startDate rangeStart && leDate startDate rangeEnd
        then
          match createEventRecord (clock 0%nat) event
                  (Some startDate) source with
          | Throws msg => Throws msg
          | Returns record => Returns (pushIf [] record)
          end
        else Returns []
    | None => Returns []
    end.

End Expand.

(** *** The feed pipeline and the orchestrator *)

(** The [Response] of [fetch], with what ical.js makes of its text:
    [ICAL.parse] and the component constructors throw, or give the
    [vevent] components, each of which [new ICAL.Event] (or
    [isRecurring]) rejects or accepts. *)
Record Response := {
  ok : bool;
  status : Z;
  statusText : string;
  vevents : Thrown (list (Thrown Ical.Event))
}.

(** What one call of [syncIcsCalendar] meets outside: the fetch, the
    window computed from the clock ([new Date()] moved by -7 and +90
    calendar days), the clock readings per component and candidate,
    and the answer of the store to the upsert ([error] or not). *)
Record FeedWorld := {
  fetch : Thrown Response;
  rangeStart : Z;
  rangeEnd : Z;
  clock : nat -> nat -> Z;
  upsert : list Appointment -> Thrown (option string)
}.

Record SyncResult := {
  result_source : string;
  added : nat;
  updated : nat;
  errors : list string
}.

(** [uniqueEvents.set(id, event)] on a [Map], which keeps the position
    of a key that is already present. *)
Fixpoint mapSet (k : string) (v : Appointment)
    (m : list (string * Appointment)) : list (string * Appointment) :=
  match m with
  | [] => [(k, v)]
  | (k', v') :: m' =>
      if String.eqb k k' then (k, v) :: m' else (k', v') :: mapSet k v m'
  end.

Definition dedupe (eventsToUpsert : list Appointment) : list Appointment :=
  (fold_left
     (fun uniqueEvents event =>
        if nonEmpty (id event) then mapSet (id event) event uniqueEvents
        else uniqueEvents)
     eventsToUpsert []).*2.

(** The [Map] after the loop over [l], begun with the entries [m]
    ([dedupe l] is the values of [dedupeFrom [] l]). *)
Definition dedupeFrom (m : list (string * Appointment))
    (l : list Appointment) : list (string * Appointment) :=
  fold_left
    (fun uniqueEvents event =>
       if nonEmpty (id event) then mapSet (id event) event uniqueEvents
       else uniqueEvents)
    l m.

(** [v] is the last row of [l] with its id. *)
Definition lastWithId (v : Appointment) (l : list Appointment) : Prop :=
  exists l1 l2, l = l1 ++ v :: l2 /\ forall x, x ∈ l2 -> id x <> id v.

(** The [for (const vevent of vevents)] loop with its [try]/[catch]:
    the rows to upsert and the messages pushed to [result.errors]. *)
Fixpoint expandAll (w : FeedWorld) (source : FeedSource) (i : nat)
    (vs : list (Thrown Ical.Event)) : list Appointment * list string :=
  match vs with
  | [] => ([], [])
  | v :: vs' =>
      let '(rows, errs) := expandAll w source (S i) vs' in
      match v with
      | Returns event =>
          match expandEvent (clock w i) event (rangeStart w) (rangeEnd w)
                  source with
          | Returns events => (events ++ rows, errs)
          | Throws msg => (rows, ("Failed to parse event: " +:+ msg) :: errs)
          end
      | Throws msg => (rows, ("Failed to parse event: " +:+ msg) :: errs)
      end
  end.

(** What the loop over the components comes to: the rows of the
    component with index [i], if it could be read and expanded, and its
    message, if not. *)
Definition componentRows (w : FeedWorld) (source : FeedSource) (i : nat)
    (v : Thrown Ical.Event) : list Appointment :=
  match v with
  | Returns event =>
      match expandEvent (clock w i) event (rangeStart w) (rangeEnd w)
              source with
      | Returns events => events
      | Throws _ => []
      end
  | Throws _ => []
  end.

Definition componentError (w : FeedWorld) (source : FeedSource) (i : nat)
    (v : Thrown Ical.Event) : option string :=
  match v with
  | Returns event =>
      match expandEvent (clock w i) event (rangeStart w) (rangeEnd w)
              source with
      | Returns _ => None
      | Throws msg => Some ("Failed to parse event: " +:+ msg)
      end
  | Throws msg => Some ("Failed to parse event: " +:+ msg)
  end.

Definition syncIcsCalendar (w : FeedWorld) (source : FeedSource)
    : SyncResult :=
  let result errs n :=
    {| result_source := sourceName source; added := n; updated := 0;
       errors := errs |} in
  match fetch w with
  | Throws msg => result [msg] 0%nat
  | Returns response =>
      if negb (ok response)
      then result ["Failed to fetch ICS: " +:+ pretty (status response)
                     +:+ " " +:+ statusText response] 0%nat
      else
        match vevents response with
        | Throws msg => result [msg] 0%nat
        | Returns vs =>
            let '(eventsToUpsert, errs) := expandAll w source 0 vs in
            match eventsToUpsert with
            | [] => result errs 0%nat
            | _ :: _ =>
                let dedupedEvents := dedupe eventsToUpsert in
                match upsert w dedupedEvents with
                | Throws msg => result (errs ++ [msg]) 0%nat
                | Returns (Some msg) =>
                    result (errs ++ ["Database error: " +:+ msg]) 0%nat
                | Returns None => result errs (length dedupedEvents)
                end
            end
        end
  end.

(** The environment and the outside world of one [POST]: the two
    variables, the world of the [n]-th feed synchronised, and whether
    the write of the sync metadata throws (the store client throws
    when it is not configured). *)
Record Env := {
  OUTLOOK_ICS_URL : option string;
  APPLE_CALENDAR_ICS_URL : option string;
  feedWorld : nat -> string -> FeedWorld;
  metadataUpsert : Thrown unit
}.

Record PostResponse := {
  http_status : Z;
  success : bool;
  message : option string;
  results : list SyncResult;
  all_errors : option (list string);   (* the [errors] key *)
  error : option string;
  details : option string
}.

(** The feeds that are configured, in the order they are synchronised. *)
Definition configuredFeeds (env : Env) : list (string * FeedSource) :=
  (match OUTLOOK_ICS_URL env with
   | Some url => if nonEmpty url then [(url, Ics)] else []
   | None => []
   end)
  ++ (match APPLE_CALENDAR_ICS_URL env with
      | Some urls =>
          if nonEmpty urls
          then (fun u => (u, AppleCalendar))
                 <$> filter (fun u => nonEmpty u = true)
                       (trim <$> split "," urls)
          else []
      | None => []
      end).

Definition syncAll (env : Env) : list SyncResult :=
  imap (fun n '(url, source) => syncIcsCalendar (feedWorld env n url) source)
       (configuredFeeds env).

(** A feed failed: its result itemizes an error and nothing was
    written for it. *)
Definition feedFailed (r : SyncResult) : bool :=
  match errors r with
  | [] => false
  | _ :: _ => (added r =? 0)%nat
  end.

Definition sumOf (f : SyncResult -> nat) (rs : list SyncResult) : nat :=
  fold_left (fun sum r => (sum + f r)%nat) rs 0%nat.

Definition POST (env : Env) : PostResponse :=
  let results := syncAll env in
  match metadataUpsert env with
  | Returns _ =>
      let totalAdded := sumOf added results in
      let totalUpdated := sumOf updated results in
      let allErrors := concat (errors <$> results) in
      {| http_status := 200;
         success := true;
         message := Some ("Sync complete: " +:+ pretty totalAdded
                            +:+ " added, " +:+ pretty totalUpdated
                            +:+ " updated");
         results := results;
         all_errors := match allErrors with
                       | [] => None
                       | _ :: _ => Some allErrors
                       end;
         error := None;
         details := None |}
  | Throws msg =>
      {| http_status := 500;
         success := false;
         message := None;
         results := results;
         all_errors := None;
         error := Some "Sync failed";
         details := Some msg |}
  end.

End Engine.

End Sync.
(** ** Untyped values read from the store *)

Inductive JsVal :=
| JUndefined
| JNull
| JBool (b : bool)
| JNum (n : Z)
| JStr (s : string)
| JOther.   (* an object or an array *)

#[global] Instance JsVal_eq_dec : EqDecision JsVal.
Proof. solve_decision. Defined.

(** Truthiness ([!v] is its negation). *)
Definition truthy (v : JsVal) : bool :=
  match v with
  | JUndefined | JNull => false
  | JBool b => b
  | JNum n => negb (n =? 0)
  | JStr s => JsString.nonEmpty s
  | JOther => true
  end.

(** [v || d]. *)
Definition jsOr (v : JsVal) (d : string) : JsVal :=
  if truthy v then v else JStr d.

(** ** [lib/supabase.ts] *)

Module Lib.

(** A row of [appointments] as the store client hands it over: the
    columns the read path looks at. *)
Record Row := {
  id : JsVal;
  subject : JsVal;
  start_time : JsVal;
  end_time : JsVal;
  location : JsVal;
  organizer_email : JsVal;
  organizer_name : JsVal;
  source : JsVal;
  is_all_day : JsVal
}.

(** The frontend's [CalendarEvent]. The four validated fields are
    strings; the others are whatever the row held, or the default. *)
Record CalendarEvent := {
  ev_id : string;
  ev_subject : JsVal;
  ev_start_time : string;
  ev_end_time : string;
  ev_location : JsVal;
  ev_organizer_email : JsVal;
  ev_organizer_name : JsVal;
  ev_source : string;
  ev_is_all_day : Z
}.

Definition SOURCES : list string := ["graph_api"; "ics"; "apple_calendar"].

(** [!v || typeof v !== 'string'] fails: the string, when [v] is a
    non-empty one. *)
Definition requiredString (v : JsVal) : option string :=
  match v with
  | JStr s => if JsString.nonEmpty s then Some s else None
  | _ => None
  end.

(** [!v || ![...].includes(v)] fails. *)
Definition requiredSource (v : JsVal) : option string :=
  match v with
  | JStr s =>
      if JsString.nonEmpty s && existsb (String.eqb s) SOURCES
      then Some s else None
  | _ => None
  end.

Definition toCalendarEvent (apt : option Row) : option CalendarEvent :=
  match apt with
  | None => None
  | Some apt =>
      match requiredString (id apt) with
      | None => None
      | Some i =>
      match requiredString (start_time apt) with
      | None => None
      | Some st =>
      match requiredString (end_time apt) with
      | None => None
      | Some en =>
      match requiredSource (source apt) with
      | None => None
      | Some src =>
          Some {| ev_id := i;
                  ev_subject := jsOr (subject apt) "No Title";
                  ev_start_time := st;
                  ev_end_time := en;
                  ev_location := jsOr (location apt) "";
                  ev_organizer_email := jsOr (organizer_email apt) "";
                  ev_organizer_name := jsOr (organizer_name apt) "";
                  ev_source := src;
                  ev_is_all_day := if truthy (is_all_day apt) then 1 else 0 |}
      end end end end
  end.

End Lib.

(** ** [app/api/events/route.ts] *)

Module Events.

Import JsString.

(** [/^\d{8}(T\d{6})?$/.test(s)]. *)
Definition isTimestamp (s : string) : bool :=
  allDigits (substring 0 8 s) && (8 <=? String.length s)%nat
  && match String.get 8 s with
     | None => true
     | Some c =>
         Ascii.eqb c "T" && allDigits (substring 9 6 s)
         && (String.length s =? 15)%nat
     end.

Definition getBaseIdFromEventId (eventId : string) : string :=
  let parts := split "_" eventId in
  if (length parts <=? 1)%nat then eventId
  else
    let lastPart := lastPart parts in
    if isTimestamp lastPart then join "_" (sliceInit parts) else eventId.

(** What a [select] gives back: [data] and [error]. *)
Record Reply (A : Type) := {
  data : option A;
  error : option string
}.
Arguments data {A} r.
Arguments error {A} r.

Inductive Response :=
| BadRequest                               (* 400 *)
| ServerError (error : string)             (* 500 *)
| Ok (events : list Lib.CalendarEvent).    (* 200 *)

(** The [Set] built from the rows of an ignore table: only the rows
    that are objects with a string in the column are added. A row is
    [None] when it is no such object, otherwise the value of the
    column. *)
Definition idSet (rows : option (list (option JsVal))) : gset string :=
  match rows with
  | None => ∅
  | Some items =>
      fold_left
        (fun set item =>
           match item with
           | Some (JStr s) => set ∪ {[ s ]}
           | _ => set
           end)
        items ∅
  end.

(** The two tests of the first [.filter] on an id that is a string. *)
Definition notIgnored (ignoredBaseSet ignoredEventSet : gset string)
    (i : string) : bool :=
  if decide (i ∈ ignoredEventSet) then false
  else
    let baseId := getBaseIdFromEventId i in
    if decide (baseId ∈ ignoredBaseSet) then false else true.

(** The predicate of the first [.filter]; [None] when
    [getBaseIdFromEventId] is applied to a value without [split] and
    throws. [Set.has] of a value that is no string is false. *)
Definition keepsRow (ignoredBaseSet ignoredEventSet : gset string)
    (apt : Lib.Row) : option bool :=
  match Lib.id apt with
  | JStr i => Some (notIgnored ignoredBaseSet ignoredEventSet i)
  | _ => None
  end.

(** [rows.filter(keepsRow)], the exception propagated. *)
Fixpoint filterIgnored (ignoredBaseSet ignoredEventSet : gset string)
    (rows : list Lib.Row) : option (list Lib.Row) :=
  match rows with
  | [] => Some []
  | apt :: rest =>
      match keepsRow ignoredBaseSet ignoredEventSet apt with
      | None => None
      | Some keep =>
          match filterIgnored ignoredBaseSet ignoredEventSet rest with
          | None => None
          | Some rest' => Some (if keep then apt :: rest' else rest')
          end
      end
  end.

(** The body of the [.map]: conversion, then masking. *)
Definition convert (personalRevealed : bool) (apt : Lib.Row)
    : option Lib.CalendarEvent :=
  match Lib.toCalendarEvent (Some apt) with
  | None => None
  | Some event =>
      if bool_decide (Lib.source apt = JStr "apple_calendar")
         && negb personalRevealed
      then Some {| Lib.ev_id := Lib.ev_id event;
                   Lib.ev_subject := JStr "[Personal Event]";
                   Lib.ev_start_time := Lib.ev_start_time event;
                   Lib.ev_end_time := Lib.ev_end_time event;
                   Lib.ev_location := JStr "";
                   Lib.ev_organizer_email := Lib.ev_organizer_email event;
                   Lib.ev_organizer_name := Lib.ev_organizer_name event;
                   Lib.ev_source := Lib.ev_source event;
                   Lib.ev_is_all_day := Lib.ev_is_all_day event |}
      else Some event
  end.

(** *** Predicates on rows, for the statements *)

(** The id of the row is a string, as the [Appointment] interface and
    the [TEXT PRIMARY KEY] column have it. *)
Definition hasStringId (apt : Lib.Row) : bool :=
  match Lib.id apt with
  | JStr _ => true
  | _ => false
  end.

(** The row passes the ignore filter. *)
Definition keeps (ignoredBaseSet ignoredEventSet : gset string)
    (apt : Lib.Row) : bool :=
  match Lib.id apt with
  | JStr i => notIgnored ignoredBaseSet ignoredEventSet i
  | _ => false
  end.

(** The row passes the validation of [toCalendarEvent]. *)
Definition isValidRow (apt : Lib.Row) : bool :=
  match Lib.toCalendarEvent (Some apt) with
  | Some _ => true
  | None => false
  end.

(** What the claim on output validation asks of an event. *)
Definition wellFormed (e : Lib.CalendarEvent) : Prop :=
  Lib.ev_id e <> EmptyString
  /\ Lib.ev_start_time e <> EmptyString
  /\ Lib.ev_end_time e <> EmptyString
  /\ (Lib.ev_source e = "graph_api" \/ Lib.ev_source e = "ics"
      \/ Lib.ev_source e = "apple_calendar").

(** The fields of an event that masking leaves alone. *)
Definition publicFields (e : Lib.CalendarEvent)
    : string * string * string * JsVal * JsVal * string * Z :=
  (Lib.ev_id e, Lib.ev_start_time e, Lib.ev_end_time e,
   Lib.ev_organizer_email e, Lib.ev_organizer_name e, Lib.ev_source e,
   Lib.ev_is_all_day e).

(** The chain [.filter(..).map(..).filter(..)] inside the [try]. *)
Definition respond (personalRevealed : bool)
    (ignoredBaseSet ignoredEventSet : gset string)
    (appointments : list Lib.Row) : Response :=
  match filterIgnored ignoredBaseSet ignoredEventSet appointments with
  | None => ServerError "Internal server error"
  | Some kept => Ok (omap (convert personalRevealed) kept)
  end.

(** The bounds of the query: the start of the UTC day of [now], and
    the last millisecond of the day [daysAhead] days later. *)
Definition queryStart (now : Z) : Z := JsDate.day now * JsDate.msPerDay.
Definition queryEnd (now daysAhead : Z) : Z :=
  queryStart now + daysAhead * JsDate.msPerDay + (JsDate.msPerDay - 1).

Section Handler.

(** The store and its three queries are outside the handler: the
    rows of [appointments] whose [start_time] lies between two
    instants, in ascending order, and the two ignore tables. *)
Context {Store : Type}.
Variable selectAppointments : Store -> Z -> Z -> Reply (list Lib.Row).
Variable selectIgnoredBaseIds : Store -> Reply (list (option JsVal)).
Variable selectIgnoredEventIds : Store -> Reply (list (option JsVal)).

(** [daysAhead] is [parseInt(daysParam, 10)], [None] for [NaN];
    [now] the clock. The handler gives its response and leaves the
    store as the queries left it. *)
Definition GET (daysAhead : option Z) (personalRevealed : bool) (now : Z)
    (store : Store) : Response * Store :=
  match daysAhead with
  | None => (BadRequest, store)
  | Some daysAhead =>
      if (daysAhead <? 1) || (daysAhead >? 365) then (BadRequest, store)
      else
        let appointments :=
          selectAppointments store (queryStart now)
            (queryEnd now daysAhead) in
        match error appointments with
        | Some _ => (ServerError "Failed to fetch events", store)
        | None =>
            let ignoredBaseSet :=
              idSet (data (selectIgnoredBaseIds store)) in
            let ignoredEventSet :=
              idSet (data (selectIgnoredEventIds store)) in
            (respond personalRevealed ignoredBaseSet ignoredEventSet
               (default [] (data appointments)), store)
        end
  end.

End Handler.

End Events.

(** ** [app/page.tsx] *)

Module Page.

Import JsString.
Export Lib.

(** [s.length === 15 && /^\d{8}T\d{6}$/.test(s)]. *)
Definition isFullTimestamp (s : string) : bool :=
  (String.length s =? 15)%nat
  && allDigits (substring 0 8 s)
  && match String.get 8 s with
     | Some c => Ascii.eqb c "T"
     | None => false
     end
  && allDigits (substring 9 6 s).

Definition getBaseIdFromEventId (eventId : string) : string :=
  if includesChar "_" eventId then
    let parts := split "_" eventId in
    let lastPart := lastPart parts in
    if isFullTimestamp lastPart then join "_" (sliceInit parts)
    else eventId
  else eventId.

(** An event is shown as part of a recurring series when its id has the
    timestamp suffix. *)
Definition isEventRecurring (eventId : string) : bool :=
  if includesChar "_" eventId then
    let parts := split "_" eventId in
    let lastPart := lastPart parts in
    isFullTimestamp lastPart
  else false.

(** *** [getOverlappingEventIds] *)

Section Overlap.

(** [new Date(s).getTime()]; [None] is [NaN]. *)
Variable getTime : string -> option Z.

Variable detectOverlap : bool.
Variables ignoredBaseIds ignoredEventIds : gset string.

(** [a < b] on two time values: false when one of them is [NaN]. *)
Definition timeLt (a b : option Z) : bool :=
  match a, b with
  | Some x, Some y => x <? y
  | _, _ => false
  end.

Definition isEventIgnored (event : CalendarEvent) : bool :=
  if decide (ev_id event ∈ ignoredEventIds) then true
  else
    let baseId := getBaseIdFromEventId (ev_id event) in
    if decide (baseId ∈ ignoredBaseIds) then true else false.

(** The quotient of the difference by 3600000 is at least 24 exactly
    when the difference is at least 24 * 3600000. *)
Definition isAllDayOrMultiDayFree (event : CalendarEvent) : bool :=
  if bool_decide (ev_subject event ≠ JStr "[Free]")
     && bool_decide (ev_subject event ≠ JStr "Free")
  then false
  else if negb (ev_is_all_day event =? 0) then true
  else
    match getTime (ev_start_time event), getTime (ev_end_time event) with
    | Some start, Some end_ => end_ - start >=? 24 * (1000 * 60 * 60)
    | _, _ => false
    end.

Definition isPersonal (e : CalendarEvent) : bool :=
  String.eqb (ev_source e) "apple_calendar".

Definition isWork (e : CalendarEvent) : bool :=
  String.eqb (ev_source e) "graph_api" || String.eqb (ev_source e) "ics".

Definition personalEventsOf (events : list CalendarEvent)
    : list CalendarEvent :=
  List.filter
    (fun e => isPersonal e && negb (isEventIgnored e)
              && negb (isAllDayOrMultiDayFree e))
    events.

Definition workEventsOf (events : list CalendarEvent)
    : list CalendarEvent :=
  List.filter (fun e => isWork e && negb (isEventIgnored e)) events.

(** The test of the inner loop. *)
Definition intersects (personalEvent workEvent : CalendarEvent) : bool :=
  let personalStart := getTime (ev_start_time personalEvent) in
  let personalEnd := getTime (ev_end_time personalEvent) in
  let workStart := getTime (ev_start_time workEvent) in
  let workEnd := getTime (ev_end_time workEvent) in
  timeLt personalStart workEnd && timeLt workStart personalEnd.

Definition getOverlappingEventIds (events : list CalendarEvent)
    : gset string :=
  if negb detectOverlap then ∅
  else
    let personalEvents := personalEventsOf events in
    let workEvents := workEventsOf events in
    fold_left
      (fun overlappingIds personalEvent =>
         fold_left
           (fun overlappingIds workEvent =>
              if intersects personalEvent workEvent
              then overlappingIds ∪ {[ ev_id personalEvent ]}
                     ∪ {[ ev_id workEvent ]}
              else overlappingIds)
           workEvents overlappingIds)
      personalEvents ∅.

End Overlap.

(** *** [calculateEventLayout] *)

Record Slot := {
  event : CalendarEvent;
  startHour : Q;
  endHour : Q;
  column : nat;
  totalColumns : nat
}.

Record Geometry := {
  top : Q;      (* percent *)
  height : Q;
  left : Q;
  width : Q
}.

Definition Qltb (a b : Q) : bool := negb (Qle_bool b a).
Definition Qmaxb (a b : Q) : Q := if Qle_bool a b then b else a.
Definition Qminb (a b : Q) : Q := if Qle_bool a b then a else b.

Definition gridStartHour : Q := 0.
Definition gridEndHour : Q := 24.
Definition gridHeight : Q := gridEndHour - gridStartHour.

(** [slot.startHour < g.endHour && slot.endHour > g.startHour]. *)
Definition overlaps (slot g : Slot) : bool :=
  Qltb (startHour slot) (endHour g) && Qltb (startHour g) (endHour slot).

(** The comparator of [slots.sort] is negative. *)
Definition sortsBefore (a b : Slot) : bool :=
  if negb (Qeq_bool (startHour a) (startHour b))
  then Qltb (startHour a - startHour b) 0
  else Qltb (endHour b - endHour a) 0.

(** [Array.prototype.sort] is stable: an element goes behind the ones
    before it that the comparator does not put after it. *)
Fixpoint insertSorted (x : Slot) (l : list Slot) : list Slot :=
  match l with
  | [] => [x]
  | y :: l' => if sortsBefore x y then x :: y :: l' else y :: insertSorted x l'
  end.

Definition sortSlots (l : list Slot) : list Slot :=
  fold_left (fun sorted x => insertSorted x sorted) l [].

(** [group.some(g => f(g))], the group holding indices into [slots]. *)
Definition groupSome (slots : list Slot) (group : list nat)
    (f : Slot -> bool) : bool :=
  existsb (fun j => match slots !! j with Some g => f g | None => false end)
          group.

(** The [while (true)] search for the first free column, from [col];
    [None] when [fuel] tests did not find one. *)
Fixpoint findColumn (fuel : nat) (slots : list Slot) (group : list nat)
    (slot : Slot) (col : nat) : option nat :=
  match fuel with
  | O => None
  | S fuel' =>
      let columnTaken :=
        groupSome slots group
          (fun g => (column g =? col)%nat && overlaps slot g) in
      if columnTaken then findColumn fuel' slots group slot (S col)
      else Some col
  end.

Definition setColumn (col : nat) (s : Slot) : Slot :=
  {| event := event s; startHour := startHour s; endHour := endHour s;
     column := col; totalColumns := totalColumns s |}.

Definition setTotalColumns (n : nat) (s : Slot) : Slot :=
  {| event := event s; startHour := startHour s; endHour := endHour s;
     column := column s; totalColumns := n |}.

(** The [for (const group of groups)] loop for the slot with index
    [i]: the column it got and the groups with [i] pushed to the first
    one it overlaps; [None] when it overlaps none. A column search
    that ran out of fuel is [Some None]. *)
Fixpoint placeInGroups (slots : list Slot) (i : nat) (slot : Slot)
    (groups : list (list nat)) : option (option (nat * list (list nat))) :=
  match groups with
  | [] => None
  | group :: rest =>
      if groupSome slots group (fun g => overlaps slot g)
      then Some (match findColumn (S (length group)) slots group slot 0 with
                 | Some col => Some (col, (group ++ [i]) :: rest)
                 | None => None
                 end)
      else match placeInGroups slots i slot rest with
           | None => None
           | Some None => Some None
           | Some (Some (col, rest')) => Some (Some (col, group :: rest'))
           end
  end.

(** The [for (const slot of slots)] loop over the indices [todo]. The
    slot objects are shared between [slots] and the groups: the groups
    hold indices, and a column is written into [slots]. *)
Fixpoint assignColumns (todo : list nat) (slots : list Slot)
    (groups : list (list nat)) : option (list Slot * list (list nat)) :=
  match todo with
  | [] => Some (slots, groups)
  | i :: todo' =>
      match slots !! i with
      | None => None
      | Some slot =>
          match placeInGroups slots i slot groups with
          | Some None => None
          | Some (Some (col, groups')) =>
              assignColumns todo' (alter (setColumn col) i slots) groups'
          | None =>
              assignColumns todo' (alter (setColumn 0) i slots)
                (groups ++ [[i]])
          end
      end
  end.

(** [Math.max(...group.map(s => s.column)) + 1] of a group that is not
    empty. *)
Definition maxCol (slots : list Slot) (group : list nat) : nat :=
  S (foldr Nat.max 0%nat
       ((fun j => match slots !! j with
                  | Some s => column s
                  | None => 0%nat
                  end) <$> group)).

Definition writeTotals (slots : list Slot) (groups : list (list nat))
    : list Slot :=
  fold_left
    (fun slots group =>
       let n := maxCol slots group in
       fold_left (fun slots j => alter (setTotalColumns n) j slots)
                 group slots)
    groups slots.

Definition geometryOf (slot : Slot) : Geometry :=
  let topPercent := ((startHour slot - gridStartHour) / gridHeight * 100)%Q in
  let heightPercent := ((endHour slot - startHour slot) / gridHeight * 100)%Q in
  let widthPercent := (100 / inject_Z (Z.of_nat (totalColumns slot)))%Q in
  let leftPercent := (inject_Z (Z.of_nat (column slot)) * widthPercent)%Q in
  {| top := topPercent; height := Qmaxb heightPercent 2;
     left := leftPercent; width := widthPercent |}.

(** The members of a group that overlap [slot] and hold a column from
    [c] on: what the search for a free column from [c] has to get past. *)
Definition rivals (slots : list Slot) (group : list nat) (slot : Slot)
    (c : nat) : list nat :=
  List.filter
    (fun j => match slots !! j with
              | Some g => (c <=? column g)%nat && overlaps slot g
              | None => false
              end)
    group.

(** The event of a slot and its hours. *)
Definition slotTimes (s : Slot) : CalendarEvent * Q * Q :=
  (event s, startHour s, endHour s).

(** The index [j] is in one of the groups. *)
Definition inGroups (j : nat) (groups : list (list nat)) : Prop :=
  exists group, group ∈ groups /\ j ∈ group.

(** No two slots of the group that overlap hold the same column. *)
Definition distinctColumns (slots : list Slot) (group : list nat) : Prop :=
  forall i j si sj,
    i ∈ group -> j ∈ group -> i <> j ->
    slots !! i = Some si -> slots !! j = Some sj ->
    overlaps si sj = true -> column si <> column sj.

(** The column of a slot and its hours. *)
Definition slotPlace (s : Slot) : nat * Q * Q :=
  (column s, startHour s, endHour s).

(** The state of the first pass before the slot [i] is placed: the
    groups hold indices below [i] only, every index below [i] is in a
    group, and in no group two overlapping slots hold one column. *)
Definition placed (slots : list Slot) (groups : list (list nat)) (i : nat)
    : Prop :=
  (forall group j, group ∈ groups -> j ∈ group -> (j < i)%nat)
  /\ (forall j, (j < i)%nat -> inGroups j groups)
  /\ (forall group, group ∈ groups -> distinctColumns slots group).

(** The slots are in the order of their start hours. *)
Definition sortedByStart (slots : list Slot) : Prop :=
  forall j k sj sk,
    (j < k)%nat -> slots !! j = Some sj -> slots !! k = Some sk ->
    (startHour sj <= startHour sk)%Q.

(** No index is in two groups, and no slot of a group overlaps a slot
    of another group. *)
Definition apart (slots : list Slot) (groups : list (list nat)) : Prop :=
  forall a b ga gb i j si sj,
    groups !! a = Some ga -> groups !! b = Some gb -> a <> b ->
    i ∈ ga -> j ∈ gb ->
    slots !! i = Some si -> slots !! j = Some sj ->
    i <> j /\ overlaps si sj = false.

(** The two passes over the sorted slots. *)
Definition layoutOf (slots : list Slot) : option (list Slot) :=
  match assignColumns (seq 0 (length slots)) slots [] with
  | None => None
  | Some (slots', groups) => Some (writeTotals slots' groups)
  end.

(** What the layout fixes for an event: its column and the number of
    columns of its group. *)
Definition placement (s : Slot) : CalendarEvent * nat * nat :=
  (event s, column s, totalColumns s).

Section Layout.

(** [new Date(s).getHours()] and [.getMinutes()] in the zone of the
    browser: 0..23 and 0..59. *)
Variables getHours getMinutes : string -> Z.

Definition hourOf (s : string) : Q :=
  (inject_Z (getHours s) + inject_Z (getMinutes s) / 60)%Q.

Definition toSlot (e : CalendarEvent) : Slot :=
  {| event := e;
     startHour :=
       Qmaxb gridStartHour (Qminb gridEndHour (hourOf (ev_start_time e)));
     endHour :=
       Qmaxb gridStartHour (Qminb gridEndHour (hourOf (ev_end_time e)));
     column := 0;
     totalColumns := 1 |}.

(** The slots, sorted, with [column] and [totalColumns] as the
    layout pass leaves them. *)
Definition layoutSlots (events : list CalendarEvent)
    : option (list Slot) :=
  layoutOf (sortSlots (toSlot <$> events)).

Definition calculateEventLayout (events : list CalendarEvent)
    : option (gmap string Geometry) :=
  match layoutSlots events with
  | None => None
  | Some slots =>
      Some (fold_left
              (fun layout slot =>
                 <[ ev_id (event slot) := geometryOf slot ]> layout)
              slots ∅)
  end.

End Layout.

(** *** The read path as the page sees it *)

(** The overlap set the page computes, with detection switched on, from
    a response of the events handler (nothing on an error). *)
Definition overlapOfResponse (getTime : string -> option Z)
    (ignoredBaseIds ignoredEventIds : gset string)
    (response : Events.Response) : gset string :=
  match response with
  | Events.Ok events =>
      getOverlappingEventIds getTime true ignoredBaseIds ignoredEventIds events
  | _ => ∅
  end.

End Page.

(** ** Sessions: [middleware.ts], [app/api/auth/route.ts] and
    [app/api/personal-reveal/route.ts] *)

Module Session.

Import JsString.

Definition AUTH_COOKIE : string := "lifesynced_auth".
Definition REVEAL_COOKIE : string := "lifesynced_personal_reveal".

(** What a response does to the cookies of the browser. *)
Inductive CookieChange :=
| Keep
| SetCookie (name value : string) (maxAge : Z)
| DeleteCookie (name : string).

(** The cookies of the browser after a response (expiry aside). *)
Definition applyCookie (c : CookieChange) (jar : gmap string string)
    : gmap string string :=
  match c with
  | Keep => jar
  | SetCookie name value _ => <[ name := value ]> jar
  | DeleteCookie name => delete name jar
  end.

(** The body of a [POST]: [request.json()] or the destructuring of its
    result throws, or [password] is what the object holds under that
    key ([undefined] when it holds nothing). *)
Inductive Body :=
| Malformed
| Password (password : JsVal).

Record Reply := {
  status : Z;
  change : CookieChange
}.

(** A variable of the environment that is set and not empty. *)
Definition configured (v : option string) : option string :=
  match v with
  | Some s => if nonEmpty s then Some s else None
  | None => None
  end.

Definition grantAuth : Reply :=
  {| status := 200;
     change := SetCookie AUTH_COOKIE "authenticated" (60 * 60 * 24 * 30) |}.

(** [POST /api/auth]. *)
Definition authPOST (APP_PASSWORD : option string) (body : Body) : Reply :=
  match body with
  | Malformed => {| status := 400; change := Keep |}
  | Password password =>
      match configured APP_PASSWORD with
      | None => grantAuth
      | Some correctPassword =>
          if bool_decide (password = JStr correctPassword) then grantAuth
          else {| status := 401; change := Keep |}
      end
  end.

(** [GET /api/auth]. *)
Definition authGET (jar : gmap string string) : Reply :=
  if bool_decide (jar !! AUTH_COOKIE = Some "authenticated")
  then {| status := 200; change := Keep |}
  else {| status := 401; change := Keep |}.

(** [DELETE /api/auth]. *)
Definition authDELETE : Reply :=
  {| status := 200; change := DeleteCookie AUTH_COOKIE |}.

(** [POST /api/personal-reveal]. *)
Definition revealPOST (PERSONAL_REVEAL_PASSWORD : option string)
    (body : Body) : Reply :=
  match body with
  | Malformed => {| status := 400; change := Keep |}
  | Password password =>
      match configured PERSONAL_REVEAL_PASSWORD with
      | None => {| status := 403; change := Keep |}
      | Some correctPassword =>
          if bool_decide (password = JStr correctPassword)
          then {| status := 200;
                  change := SetCookie REVEAL_COOKIE "revealed" (60 * 60 * 24) |}
          else {| status := 401; change := Keep |}
      end
  end.

(** [DELETE /api/personal-reveal]. *)
Definition revealDELETE : Reply :=
  {| status := 200; change := DeleteCookie REVEAL_COOKIE |}.

(** [GET /api/personal-reveal]: [revealed] and, when it is false,
    [canReveal]. *)
Definition revealGET (PERSONAL_REVEAL_PASSWORD : option string)
    (jar : gmap string string) : bool * option bool :=
  if bool_decide (jar !! REVEAL_COOKIE = Some "revealed") then (true, None)
  else (false,
        Some (match configured PERSONAL_REVEAL_PASSWORD with
              | Some _ => true
              | None => false
              end)).

(** The flag of the events handler:
    [revealCookie?.value === 'revealed']. *)
Definition personalRevealed (jar : gmap string string) : bool :=
  bool_decide (jar !! REVEAL_COOKIE = Some "revealed").

(** What the middleware does with a request: let it pass, with a
    change of the cookies or none, or redirect it, the original path
    kept in the parameter [redirect]. *)
Inductive Routing :=
| Next (change : CookieChange)
| Redirect (location : string) (redirect : option string).

Definition middleware (pathname : string) (jar : gmap string string)
    : Routing :=
  if String.eqb pathname "/login" || startsWith "/api/" pathname
  then Next Keep
  else if negb (bool_decide (jar !! AUTH_COOKIE = Some "authenticated"))
  then Redirect "/login" (Some pathname)
  else Next (SetCookie AUTH_COOKIE "authenticated" (60 * 60 * 24 * 2)).

(** The paths that the middleware guards. *)
Definition guarded (pathname : string) : bool :=
  negb (String.eqb pathname "/login" || startsWith "/api/" pathname).

End Session.

(** ** Concrete inputs *)

Module Samples.

(** The strings of the samples are ASCII. On such strings
    [String.prototype.toLowerCase] lower-cases the letters [A] to [Z]
    and [String.prototype.trim] strips the white space of ASCII (tab,
    line feed, vertical tab, form feed, carriage return, space) at
    both ends: the two functions below stand for the engine where a
    sample is evaluated. *)
Definition isUpper (c : ascii) : bool :=
  let n := nat_of_ascii c in (65 <=? n)%nat && (n <=? 90)%nat.

Fixpoint asciiToLowerCase (s : string) : string :=
  match s with
  | EmptyString => EmptyString
  | String c r =>
      String (if isUpper c then ascii_of_nat (nat_of_ascii c + 32) else c)
             (asciiToLowerCase r)
  end.

Definition isSpace (c : ascii) : bool :=
  let n := nat_of_ascii c in
  ((9 <=? n)%nat && (n <=? 13)%nat) || (n =? 32)%nat.

Fixpoint trimStart (s : string) : string :=
  match s with
  | String c r => if isSpace c then trimStart r else s
  | EmptyString => EmptyString
  end.

Definition asciiTrim (s : string) : string :=
  String.rev (trimStart (String.rev (trimStart s))).

Definition time (t : Z) : Ical.Time := {| Ical.toJSDate := t; Ical.isDate := false |}.

(** 2025-12-01T15:00:00Z. *)
Definition dec1 : Z := 1764601200000.

Definition baseEvent : Ical.Event :=
  {| Ical.uid := "abc";
     Ical.summary := "Standup";
     Ical.description := "";
     Ical.location := "";
     Ical.startDate := Some (time dec1);
     Ical.endDate := Some (time (dec1 + 1800000));
     Ical.duration := None;
     Ical.organizer := None;
     Ical.isRecurring := false;
     Ical.iterator := fun _ => Ical.Done |}.

Definition withRule (e : Ical.Event) (start : Z)
    (it : nat -> Ical.Step) : Ical.Event :=
  {| Ical.uid := Ical.uid e; Ical.summary := Ical.summary e;
     Ical.description := Ical.description e;
     Ical.location := Ical.location e; Ical.startDate := Some (time start);
     Ical.endDate := Some (time (start + 1800000));
     Ical.duration := Ical.duration e;
     Ical.organizer := Ical.organizer e; Ical.isRecurring := true;
     Ical.iterator := it |}.

(** A single event on 2025-12-01. *)
Definition singleEvent : Ical.Event := baseEvent.

(** Every day from 2025-12-01 on, without an end. *)
Definition dailyForever : Ical.Event :=
  withRule baseEvent dec1
    (fun k => Ical.Yield (time (dec1 + Z.of_nat k * JsDate.msPerDay))).

(** A series that started on 1970-01-01 and whose rule cannot be
    iterated. *)
Definition brokenRule : Ical.Event :=
  withRule baseEvent 0 (fun _ => Ical.Throw).

(** Every hour from 2025-12-01 on; the call of [next()] after the
    500th candidate throws. *)
Definition hourlyThenThrow : Ical.Event :=
  withRule baseEvent dec1
    (fun k => if (k <? 500)%nat
              then Ical.Yield (time (dec1 + Z.of_nat k * JsDate.msPerHour))
              else Ical.Throw).

(** The window of a sync on 2025-12-01: seven days back, ninety
    ahead. *)
Definition rangeStart : Z := dec1 - 7 * JsDate.msPerDay.
Definition rangeEnd : Z := dec1 + 90 * JsDate.msPerDay.

(** The row of [singleEvent] written by a sync at [dec1 + 5]. *)
Definition singleRow : Sync.Appointment :=
  {| Sync.id := "abc_20251201T150000";
     Sync.subject := "Standup";
     Sync.start_time := "2025-12-01T15:00:00.000Z";
     Sync.end_time := "2025-12-01T15:30:00.000Z";
     Sync.location := "";
     Sync.organizer_email := "";
     Sync.organizer_name := "";
     Sync.attendees := [];
     Sync.body_preview := "";
     Sync.is_all_day := false;
     Sync.source := "ics";
     Sync.updated_at := "2025-12-01T15:00:00.005Z" |}.

(** The row of the occurrence of [dailyForever] on 2025-12-02. *)
Definition dailyRow : Sync.Appointment :=
  {| Sync.id := "abc_20251202T150000";
     Sync.subject := "Standup";
     Sync.start_time := "2025-12-02T15:00:00.000Z";
     Sync.end_time := "2025-12-02T15:30:00.000Z";
     Sync.location := "";
     Sync.organizer_email := "";
     Sync.organizer_name := "";
     Sync.attendees := [];
     Sync.body_preview := "";
     Sync.is_all_day := false;
     Sync.source := "ics";
     Sync.updated_at := "2025-12-01T15:00:00.005Z" |}.

(** The row that the fallback writes for [brokenRule]. *)
Definition strayRow : Sync.Appointment :=
  {| Sync.id := "abc_19700101T000000";
     Sync.subject := "Standup";
     Sync.start_time := "1970-01-01T00:00:00.000Z";
     Sync.end_time := "1970-01-01T00:30:00.000Z";
     Sync.location := "";
     Sync.organizer_email := "";
     Sync.organizer_name := "";
     Sync.attendees := [];
     Sync.body_preview := "";
     Sync.is_all_day := false;
     Sync.source := "ics";
     Sync.updated_at := "2025-12-01T15:00:00.005Z" |}.

Definition clockA : nat -> Z := fun _ => dec1 + 5.
Definition clockB : nat -> Z := fun k => dec1 + 86400123 + Z.of_nat k.

(** A feed that cannot be fetched. *)
Definition unreachableFeed : Sync.FeedWorld :=
  {| Sync.fetch := Sync.Throws "fetch failed";
     Sync.rangeStart := rangeStart;
     Sync.rangeEnd := rangeEnd;
     Sync.clock := fun _ => clockA;
     Sync.upsert := fun _ => Sync.Returns None |}.

(** A feed that answers 403. *)
Definition forbiddenFeed : Sync.FeedWorld :=
  {| Sync.fetch :=
       Sync.Returns
         {| Sync.ok := false; Sync.status := 403;
            Sync.statusText := "Forbidden";
            Sync.vevents := Sync.Returns [Sync.Returns singleEvent] |};
     Sync.rangeStart := rangeStart;
     Sync.rangeEnd := rangeEnd;
     Sync.clock := fun _ => clockA;
     Sync.upsert := fun _ => Sync.Returns None |}.

(** A feed with [singleEvent] and a component that does not parse. *)
Definition healthyFeed : Sync.FeedWorld :=
  {| Sync.fetch :=
       Sync.Returns
         {| Sync.ok := true; Sync.status := 200; Sync.statusText := "OK";
            Sync.vevents :=
              Sync.Returns [Sync.Returns singleEvent;
                            Sync.Throws "invalid date"] |};
     Sync.rangeStart := rangeStart;
     Sync.rangeEnd := rangeEnd;
     Sync.clock := fun _ => clockA;
     Sync.upsert := fun _ => Sync.Returns None |}.

(** A single event on 2025-12-01 whose duration of 9 * 10^12 seconds
    ends after the last date there is. *)
Definition endlessEvent : Ical.Event :=
  {| Ical.uid := "long";
     Ical.summary := "Sabbatical";
     Ical.description := "";
     Ical.location := "";
     Ical.startDate := Some (time dec1);
     Ical.endDate := None;
     Ical.duration := Some 9000000000000;
     Ical.organizer := None;
     Ical.isRecurring := false;
     Ical.iterator := fun _ => Ical.Done |}.

(** A feed with [singleEvent], [endlessEvent] and a component that
    does not parse. *)
Definition mixedFeed : Sync.FeedWorld :=
  {| Sync.fetch :=
       Sync.Returns
         {| Sync.ok := true; Sync.status := 200; Sync.statusText := "OK";
            Sync.vevents :=
              Sync.Returns [Sync.Returns singleEvent;
                            Sync.Returns endlessEvent;
                            Sync.Throws "invalid date"] |};
     Sync.rangeStart := rangeStart;
     Sync.rangeEnd := rangeEnd;
     Sync.clock := fun _ => clockA;
     Sync.upsert := fun _ => Sync.Returns None |}.

(** A work feed and two personal feeds, none of which can be fetched;
    the store is up. *)
Definition allFeedsDown : Sync.Env :=
  {| Sync.OUTLOOK_ICS_URL := Some "https://work.example/cal.ics";
     Sync.APPLE_CALENDAR_ICS_URL :=
       Some "https://home.example/a.ics, https://home.example/b.ics";
     Sync.feedWorld := fun _ _ => unreachableFeed;
     Sync.metadataUpsert := Sync.Returns tt |}.

(** The work feed is healthy, the personal one is down. *)
Definition oneFeedDown : Sync.Env :=
  {| Sync.OUTLOOK_ICS_URL := Some "https://work.example/cal.ics";
     Sync.APPLE_CALENDAR_ICS_URL := Some "https://home.example/a.ics";
     Sync.feedWorld :=
       fun n _ => match n with O => healthyFeed | _ => unreachableFeed end;
     Sync.metadataUpsert := Sync.Returns tt |}.

(** *** A store for the read path *)

Record Tables := {
  appointments : list Lib.Row;
  ignored_base_ids : list (option JsVal);
  ignored_event_ids : list (option JsVal)
}.

(** All rows of the sample stores start inside the queried window. *)
Definition selectAppointments (t : Tables) (_ _ : Z)
    : Events.Reply (list Lib.Row) :=
  {| Events.data := Some (appointments t); Events.error := None |}.
Definition selectIgnoredBaseIds (t : Tables)
    : Events.Reply (list (option JsVal)) :=
  {| Events.data := Some (ignored_base_ids t); Events.error := None |}.
Definition selectIgnoredEventIds (t : Tables)
    : Events.Reply (list (option JsVal)) :=
  {| Events.data := Some (ignored_event_ids t); Events.error := None |}.

Definition row (i subject start end_ source : string) (allDay : bool)
    : Lib.Row :=
  {| Lib.id := JStr i; Lib.subject := JStr subject;
     Lib.start_time := JStr start; Lib.end_time := JStr end_;
     Lib.location := JStr "Room 1"; Lib.organizer_email := JStr "";
     Lib.organizer_name := JStr ""; Lib.source := JStr source;
     Lib.is_all_day := JBool allDay |}.

Definition standup1 : Lib.Row :=
  row "abc_20251201T150000" "Standup"
      "2025-12-01T15:00:00.000Z" "2025-12-01T15:30:00.000Z" "ics" false.
Definition standup2 : Lib.Row :=
  row "abc_20251202T150000" "Standup"
      "2025-12-02T15:00:00.000Z" "2025-12-02T15:30:00.000Z" "ics" false.
Definition review : Lib.Row :=
  row "rev_20251201T160000" "Review"
      "2025-12-01T16:00:00.000Z" "2025-12-01T17:00:00.000Z" "ics" false.
Definition dentist : Lib.Row :=
  row "den_20251201T151500" "Dentist"
      "2025-12-01T15:15:00.000Z" "2025-12-01T16:00:00.000Z"
      "apple_calendar" false.
(** A whole-day personal placeholder. *)
Definition freeDay : Lib.Row :=
  row "free_20251201T000000" "Free"
      "2025-12-01T00:00:00.000Z" "2025-12-02T00:00:00.000Z"
      "apple_calendar" true.
(** A row with an empty id, and one without an end. *)
Definition noId : Lib.Row :=
  row "" "Ghost" "2025-12-01T15:00:00.000Z" "2025-12-01T15:30:00.000Z"
      "ics" false.
Definition noEnd : Lib.Row :=
  {| Lib.id := JStr "x1"; Lib.subject := JStr "Open end";
     Lib.start_time := JStr "2025-12-01T15:00:00.000Z";
     Lib.end_time := JNull; Lib.location := JNull;
     Lib.organizer_email := JNull; Lib.organizer_name := JNull;
     Lib.source := JStr "ics"; Lib.is_all_day := JBool false |}.

(** The series [abc] and the occurrence of the review are ignored. *)
Definition ignoringStore : Tables :=
  {| appointments := [standup1; review; dentist; standup2];
     ignored_base_ids := [Some (JStr "abc")];
     ignored_event_ids := [Some (JStr "rev_20251201T160000")] |}.

Definition dirtyStore : Tables :=
  {| appointments := [noId; standup1; noEnd; dentist];
     ignored_base_ids := [];
     ignored_event_ids := [] |}.

(** The dentist overlaps the standup; nothing is ignored. *)
Definition busyStore : Tables :=
  {| appointments := [standup1; dentist; review];
     ignored_base_ids := [];
     ignored_event_ids := [] |}.



(** A whole-day personal [Free] placeholder over a work meeting. *)
Definition placeholderStore : Tables :=
  {| appointments := [freeDay; standup1];
     ignored_base_ids := [];
     ignored_event_ids := [] |}.

(** *** Parsing the strings [toISOString] writes *)

Fixpoint numberOf (acc : Z) (s : string) : option Z :=
  match s with
  | EmptyString => Some acc
  | String c r =>
      if JsString.isDigit c
      then numberOf (10 * acc + (Z.of_nat (nat_of_ascii c) - 48)) r
      else None
  end.

Definition daysFromCivil (y m d : Z) : Z :=
  let y' := if m <=? 2 then y - 1 else y in
  let era := y' / 400 in
  let yoe := y' - era * 400 in
  let doy := (153 * (if m >? 2 then m - 3 else m + 9) + 2) / 5 + d - 1 in
  let doe := yoe * 365 + yoe / 4 - yoe / 100 + doy in
  era * 146097 + doe - 719468.

(** [new Date(s).getTime()] for [s] of the form
    [YYYY-MM-DDTHH:mm:ss.sssZ]; [NaN] for the other strings. *)
Definition getTime (s : string) : option Z :=
  if (String.length s =? 24)%nat
     && bool_decide (substring 4 1 s = "-") && bool_decide (substring 7 1 s = "-")
     && bool_decide (substring 10 1 s = "T") && bool_decide (substring 13 1 s = ":")
     && bool_decide (substring 16 1 s = ":") && bool_decide (substring 19 1 s = ".")
     && bool_decide (substring 23 1 s = "Z")
  then
    y ← numberOf 0 (substring 0 4 s);
    m ← numberOf 0 (substring 5 2 s);
    d ← numberOf 0 (substring 8 2 s);
    h ← numberOf 0 (substring 11 2 s);
    mi ← numberOf 0 (substring 14 2 s);
    sec ← numberOf 0 (substring 17 2 s);
    ms ← numberOf 0 (substring 20 3 s);
    Some (daysFromCivil y m d * JsDate.msPerDay + h * JsDate.msPerHour
          + mi * 60000 + sec * 1000 + ms)
  else None.

Definition event (i subject start end_ source : string) (allDay : Z)
    : Lib.CalendarEvent :=
  {| Lib.ev_id := i; Lib.ev_subject := JStr subject;
     Lib.ev_start_time := start; Lib.ev_end_time := end_;
     Lib.ev_location := JStr ""; Lib.ev_organizer_email := JStr "";
     Lib.ev_organizer_name := JStr ""; Lib.ev_source := source;
     Lib.ev_is_all_day := allDay |}.

(** A personal event from 10:00 to 11:00 and three work events: one
    from 11:00 to 12:00, one from 10:30 to 11:30, one from 09:00 to
    10:00. *)
Definition personal10 : Lib.CalendarEvent :=
  event "p" "Dentist" "2025-12-01T10:00:00.000Z" "2025-12-01T11:00:00.000Z"
        "apple_calendar" 0.
Definition work11 : Lib.CalendarEvent :=
  event "w11" "Review" "2025-12-01T11:00:00.000Z" "2025-12-01T12:00:00.000Z"
        "ics" 0.
Definition work1030 : Lib.CalendarEvent :=
  event "w1030" "Standup" "2025-12-01T10:30:00.000Z" "2025-12-01T11:30:00.000Z"
        "graph_api" 0.
Definition work9 : Lib.CalendarEvent :=
  event "w9" "Planning" "2025-12-01T09:00:00.000Z" "2025-12-01T10:00:00.000Z"
        "ics" 0.

Definition work1045 : Lib.CalendarEvent :=
  event "w1045" "Call" "2025-12-01T10:45:00.000Z" "2025-12-01T11:15:00.000Z"
        "ics" 0.

(** An occurrence of the work series [sync], from 10:30 to 11:00. *)
Definition workSeries : Lib.CalendarEvent :=
  event "sync_20251201T103000" "Sync" "2025-12-01T10:30:00.000Z"
        "2025-12-01T11:00:00.000Z" "ics" 0.

(** The hours and minutes of a browser in the zone UTC. *)
Definition utcHours (s : string) : Z :=
  match getTime s with
  | Some t => JsDate.getUTCHours t
  | None => 0
  end.
Definition utcMinutes (s : string) : Z :=
  match getTime s with
  | Some t => JsDate.getUTCMinutes t
  | None => 0
  end.

(** The dentist as the handler returns it without the reveal flag. *)
Definition maskedDentist : Lib.CalendarEvent :=
  {| Lib.ev_id := "den_20251201T151500";
     Lib.ev_subject := JStr "[Personal Event]";
     Lib.ev_start_time := "2025-12-01T15:15:00.000Z";
     Lib.ev_end_time := "2025-12-01T16:00:00.000Z";
     Lib.ev_location := JStr "";
     Lib.ev_organizer_email := JStr "";
     Lib.ev_organizer_name := JStr "";
     Lib.ev_source := "apple_calendar";
     Lib.ev_is_all_day := 0 |}.

End Samples.

(** * Properties *)

(** ** Strings *)

Section StringFacts.

Import JsString.

Lemma split_not_nil sep s : split sep s <> [].
Proof.
  destruct s as [|c r]; simpl; [discriminate|].
  destruct (Ascii.eqb c sep); [discriminate|].
  destruct (split sep r); discriminate.
Qed.

Lemma join_cons sep p q ps :
  join sep (p :: q :: ps) = p +:+ String sep (join sep (q :: ps)).
Proof. reflexivity. Qed.

Lemma join_split sep s : join sep (split sep s) = s.
Proof.
  induction s as [|c r IH]; simpl; [reflexivity|].
  destruct (Ascii.eqb_spec c sep) as [->|Hne].
  - pose proof (split_not_nil sep r) as Hnil.
    destruct (split sep r) as [|q qs]; [contradiction|].
    rewrite join_cons, IH. reflexivity.
  - pose proof (split_not_nil sep r) as Hnil.
    destruct (split sep r) as [|q qs]; [contradiction|].
    destruct qs as [|q' qs'].
    + simpl in IH |- *. now rewrite IH.
    + rewrite join_cons in IH |- *. simpl. now rewrite <- IH.
Qed.

Lemma split_app_sep sep a b :
  split sep (a +:+ String sep b) = split sep a ++ split sep b.
Proof.
  induction a as [|c r IH]; simpl.
  - now rewrite Ascii.eqb_refl.
  - destruct (Ascii.eqb c sep); rewrite IH; [reflexivity|].
    pose proof (split_not_nil sep r) as Hnil.
    destruct (split sep r); [contradiction|reflexivity].
Qed.

Lemma split_without sep s :
  includesChar sep s = false -> split sep s = [s].
Proof.
  induction s as [|c r IH]; simpl; [reflexivity|].
  intros H. apply orb_false_iff in H as [Hc Hr].
  rewrite Hc, (IH Hr). reflexivity.
Qed.

Lemma allDigits_without c s :
  isDigit c = false -> allDigits s = true -> includesChar c s = false.
Proof.
  intros Hc. induction s as [|d r IH]; simpl; [reflexivity|].
  intros H. apply andb_true_iff in H as [Hd Hr].
  rewrite (IH Hr), orb_false_r.
  destruct (Ascii.eqb_spec d c) as [->|]; [congruence|reflexivity].
Qed.

Lemma allDigits_app a b :
  allDigits (a +:+ b) = allDigits a && allDigits b.
Proof.
  induction a as [|c r IH]; simpl; [reflexivity|].
  now rewrite IH, andb_assoc.
Qed.

Lemma includesChar_app c a b :
  includesChar c (a +:+ b) = includesChar c a || includesChar c b.
Proof.
  induction a as [|d r IH]; simpl; [reflexivity|].
  now rewrite IH, orb_assoc.
Qed.

Lemma removeChars_app x y a b :
  removeChars x y (a +:+ b) = removeChars x y a +:+ removeChars x y b.
Proof.
  induction a as [|d r IH]; simpl; [reflexivity|].
  rewrite IH. now destruct (Ascii.eqb d x || Ascii.eqb d y).
Qed.

Lemma removeChars_without x y s :
  includesChar x s = false -> includesChar y s = false ->
  removeChars x y s = s.
Proof.
  induction s as [|d r IH]; simpl; [reflexivity|].
  intros Hx Hy.
  apply orb_false_iff in Hx as [Hdx Hrx].
  apply orb_false_iff in Hy as [Hdy Hry].
  rewrite Hdx, Hdy, (IH Hrx Hry). reflexivity.
Qed.

Lemma splitHead_app_sep sep a b :
  includesChar sep a = false -> splitHead sep (a +:+ String sep b) = a.
Proof.
  intros H. unfold splitHead.
  rewrite split_app_sep, (split_without _ _ H). reflexivity.
Qed.

Lemma length_app_string a b :
  String.length (a +:+ b) = (String.length a + String.length b)%nat.
Proof. induction a as [|c r IH]; simpl; [reflexivity|]. now rewrite IH. Qed.

Lemma app_assoc_string a b c : (a +:+ b) +:+ c = a +:+ (b +:+ c).
Proof.
  induction a as [|d r IH]; [reflexivity|].
  change (String d ((r +:+ b) +:+ c) = String d (r +:+ b +:+ c)).
  now rewrite IH.
Qed.

End StringFacts.

(** ** The timestamp suffix *)

Section DateFacts.

Import JsString JsDate.

Lemma digitChar_mod_isDigit n : isDigit (digitChar (n mod 10)) = true.
Proof.
  pose proof (Z.mod_pos_bound n 10 eq_refl) as Hb.
  remember (n mod 10) as d eqn:Hd. clear Hd.
  assert (d = 0 \/ d = 1 \/ d = 2 \/ d = 3 \/ d = 4 \/ d = 5 \/ d = 6
          \/ d = 7 \/ d = 8 \/ d = 9) as Hcases by lia.
  repeat (destruct Hcases as [->|Hcases]; [reflexivity|]).
  now subst.
Qed.

Lemma digitsAcc_pad k : forall n acc, digitsAcc k n acc = pad k n +:+ acc.
Proof.
  unfold pad. induction k as [|k IH]; intros n acc; simpl; [reflexivity|].
  rewrite (IH (n / 10) (String _ acc)), (IH (n / 10) (String _ EmptyString)).
  now rewrite app_assoc_string.
Qed.

Lemma pad_S k n :
  pad (S k) n = pad k (n / 10) +:+ String (digitChar (n mod 10)) EmptyString.
Proof. unfold pad at 1. simpl. apply digitsAcc_pad. Qed.

Lemma pad_allDigits k : forall n, allDigits (pad k n) = true.
Proof.
  induction k as [|k IH]; intros n; [reflexivity|].
  rewrite pad_S, allDigits_app, IH.
  change (allDigits (String (digitChar (n mod 10)) EmptyString))
    with (isDigit (digitChar (n mod 10)) && true).
  now rewrite digitChar_mod_isDigit.
Qed.

Lemma pad_length k : forall n, String.length (pad k n) = k.
Proof.
  induction k as [|k IH]; intros n; [reflexivity|].
  rewrite pad_S, length_app_string, IH. simpl. lia.
Qed.

Lemma pad_without c k n : isDigit c = false -> includesChar c (pad k n) = false.
Proof. intros Hc. apply allDigits_without; [exact Hc|apply pad_allDigits]. Qed.

(** A string of digits of known length is its characters. *)
Lemma pad_2 n :
  exists a b,
    pad 2 n = String a (String b EmptyString)
    /\ isDigit a = true /\ isDigit b = true.
Proof.
  pose proof (pad_allDigits 2 n) as H. pose proof (pad_length 2 n) as L.
  destruct (pad 2 n) as [|a [|b [|c r]]]; try discriminate L.
  cbn [allDigits] in H.
  apply andb_true_iff in H as [Ha H]. apply andb_true_iff in H as [Hb _].
  eauto.
Qed.

Lemma pad_4 n :
  exists a b c d,
    pad 4 n = String a (String b (String c (String d EmptyString)))
    /\ isDigit a = true /\ isDigit b = true
    /\ isDigit c = true /\ isDigit d = true.
Proof.
  pose proof (pad_allDigits 4 n) as H. pose proof (pad_length 4 n) as L.
  destruct (pad 4 n) as [|a [|b [|c [|d [|e r]]]]]; try discriminate L.
  cbn [allDigits] in H.
  apply andb_true_iff in H as [Ha H]. apply andb_true_iff in H as [Hb H].
  apply andb_true_iff in H as [Hc H]. apply andb_true_iff in H as [Hd _].
  eauto 10.
Qed.

(** The characters of the compact form are digits, but for the [T] in
    the middle. *)
Lemma compactTimestamp_shape t :
  exists d1 d2 d3 d4 d5 d6 d7 d8 e1 e2 e3 e4 e5 e6,
    compactTimestamp t =
      String d1 (String d2 (String d3 (String d4 (String d5 (String d6
        (String d7 (String d8 (String "T" (String e1 (String e2 (String e3
          (String e4 (String e5 (String e6 EmptyString))))))))))))))
    /\ forallb isDigit [d1; d2; d3; d4; d5; d6; d7; d8; e1; e2; e3; e4; e5; e6]
       = true.
Proof.
  unfold compactTimestamp.
  destruct (pad_4 (getUTCFullYear t))
    as (d1 & d2 & d3 & d4 & -> & H1 & H2 & H3 & H4).
  destruct (pad_2 (getUTCMonth1 t)) as (d5 & d6 & -> & H5 & H6).
  destruct (pad_2 (getUTCDate t)) as (d7 & d8 & -> & H7 & H8).
  destruct (pad_2 (getUTCHours t)) as (e1 & e2 & -> & G1 & G2).
  destruct (pad_2 (getUTCMinutes t)) as (e3 & e4 & -> & G3 & G4).
  destruct (pad_2 (getUTCSeconds t)) as (e5 & e6 & -> & G5 & G6).
  exists d1, d2, d3, d4, d5, d6, d7, d8, e1, e2, e3, e4, e5, e6.
  split; [reflexivity|].
  cbn [forallb].
  now rewrite H1, H2, H3, H4, H5, H6, H7, H8, G1, G2, G3, G4, G5, G6.
Qed.

Lemma compactTimestamp_isTimestamp t :
  Events.isTimestamp (compactTimestamp t) = true.
Proof.
  destruct (compactTimestamp_shape t)
    as (d1 & d2 & d3 & d4 & d5 & d6 & d7 & d8 & e1 & e2 & e3 & e4 & e5 & e6
        & -> & H).
  unfold Events.isTimestamp.
  cbn [forallb allDigits substring String.length String.get Nat.leb Nat.eqb]
    in *.
  repeat match goal with
         | H : _ && _ = true |- _ => apply andb_true_iff in H as [? ?]
         end.
  repeat match goal with
         | H : isDigit _ = true |- _ => rewrite H; clear H
         end.
  reflexivity.
Qed.

Lemma compactTimestamp_isFullTimestamp t :
  Page.isFullTimestamp (compactTimestamp t) = true.
Proof.
  destruct (compactTimestamp_shape t)
    as (d1 & d2 & d3 & d4 & d5 & d6 & d7 & d8 & e1 & e2 & e3 & e4 & e5 & e6
        & -> & H).
  unfold Page.isFullTimestamp.
  cbn [forallb allDigits substring String.length String.get Nat.leb Nat.eqb]
    in *.
  repeat match goal with
         | H : _ && _ = true |- _ => apply andb_true_iff in H as [? ?]
         end.
  repeat match goal with
         | H : isDigit _ = true |- _ => rewrite H; clear H
         end.
  reflexivity.
Qed.

Lemma compactTimestamp_without c t :
  isDigit c = false -> c <> "T"%char ->
  includesChar c (compactTimestamp t) = false.
Proof.
  intros Hc HT. unfold compactTimestamp.
  rewrite !includesChar_app, !pad_without by exact Hc.
  change (includesChar c "T") with (Ascii.eqb "T" c || false).
  destruct (Ascii.eqb_spec "T"%char c) as [E|]; [congruence|reflexivity].
Qed.

(** [toISOString().replace(/[-:]/g, '').split('.')[0]] of an instant
    with a four-digit year. *)
Lemma dateStr_compact t :
  fourDigitYear t = true ->
  splitHead "." (removeChars "-" ":" (toISOString t)) = compactTimestamp t.
Proof.
  intros Hy. unfold toISOString, yearString, fourDigitYear in *. rewrite Hy.
  rewrite !removeChars_app.
  rewrite !(removeChars_without "-" ":" (pad _ _))
    by (apply pad_without; reflexivity).
  change (removeChars "-" ":" "-") with EmptyString.
  change (removeChars "-" ":" ":") with EmptyString.
  change (removeChars "-" ":" "T") with "T".
  change (removeChars "-" ":" ".") with ".".
  change (removeChars "-" ":" "Z") with "Z".
  change (EmptyString +:+ ?x) with x.
  transitivity (splitHead "." (compactTimestamp t
                 +:+ String "." (pad 3 (getUTCMilliseconds t) +:+ "Z"))).
  - f_equal; unfold compactTimestamp; rewrite ?app_assoc_string; reflexivity.
  - apply splitHead_app_sep, compactTimestamp_without; [reflexivity|discriminate].
Qed.

End DateFacts.

(** ** Rounding and the range of time values *)

Section NumberFacts.

Import JsNumber JsDate.

(** An integer of at most 53 bits is a double. *)
Lemma roundDouble_small z : Z.abs z < 2 ^ 53 -> roundDouble z = z.
Proof.
  intros H. unfold roundDouble.
  assert (Z.log2 (Z.abs z) - 52 <= 0) as He.
  { destruct (Z.eq_dec (Z.abs z) 0) as [-> | Hne];
      [change (Z.log2 0) with 0; lia|].
    assert (Z.log2 (Z.abs z) < 53); [|lia].
    apply Z.log2_lt_pow2; lia. }
  apply Z.leb_le in He. now rewrite He.
Qed.

(** Rounding never brings a number of more than 53 bits below
    [2 ^ 53]. *)
Lemma roundDouble_large z :
  0 < Z.log2 (Z.abs z) - 52 -> 2 ^ 53 <= Z.abs (roundDouble z).
Proof.
  intros He. unfold roundDouble.
  replace (Z.log2 (Z.abs z) - 52 <=? 0) with false by lia.
  set (a := Z.abs z) in *. set (e := Z.log2 a - 52) in *.
  assert (0 < a) as Ha.
  { destruct (Z.eq_dec a 0) as [H0|H0]; [|subst a; lia].
    subst e. rewrite H0 in He. change (Z.log2 0) with 0 in He. lia. }
  assert (2 ^ 52 * 2 ^ e <= a) as Hlow.
  { rewrite <- Z.pow_add_r by lia.
    replace (52 + e) with (Z.log2 a) by (subst e; lia).
    now apply Z.log2_spec. }
  assert (2 <= 2 ^ e) as Hu.
  { change 2 with (2 ^ 1) at 1. apply Z.pow_le_mono_r; lia. }
  set (u := 2 ^ e) in *.
  assert (2 ^ 52 <= a / u) as Hq by (apply Z.div_le_lower_bound; lia).
  set (q := a / u) in *.
  assert (forall q', q <= q' -> 2 ^ 53 <= Z.abs (Z.sgn z * (q' * u))) as Hall.
  { intros q' Hq'. rewrite Z.abs_mul.
    replace (Z.abs (Z.sgn z)) with 1 by (subst a; lia).
    rewrite Z.abs_eq by nia. change (2 ^ 53) with (2 ^ 52 * 2). nia. }
  destruct (_ || _); apply Hall; lia.
Qed.

Lemma roundDouble_exact z : Z.abs (roundDouble z) < 2 ^ 53 -> roundDouble z = z.
Proof.
  intros H. destruct (Z_lt_le_dec 0 (Z.log2 (Z.abs z) - 52)) as [He|He].
  - apply roundDouble_large in He. lia.
  - unfold roundDouble. apply Z.leb_le in He. now rewrite He.
Qed.

Lemma valid_iff d : valid d = true <-> - maxTime <= d <= maxTime.
Proof. unfold valid. rewrite Z.leb_le. lia. Qed.

Lemma maxTime_53 : maxTime < 2 ^ 53.
Proof. reflexivity. Qed.

(** A rounded number that is a time value was not rounded. *)
Lemma valid_roundDouble z : valid (roundDouble z) = true -> roundDouble z = z.
Proof.
  intros H. apply roundDouble_exact. apply valid_iff in H.
  pose proof maxTime_53. lia.
Qed.

Lemma getTime_valid d : valid d = true -> getTime d = Some d.
Proof. unfold getTime. now intros ->. Qed.

Lemma getTime_invalid d : valid d = false -> getTime d = None.
Proof. unfold getTime. now intros ->. Qed.

Lemma invalidDate_invalid : valid invalidDate = false.
Proof. reflexivity. Qed.

Lemma gtDate_true a b :
  gtDate a b = true <-> valid a = true /\ valid b = true /\ b < a.
Proof.
  unfold gtDate, getTime.
  destruct (valid a), (valid b); rewrite ?Z.gtb_lt; intuition congruence.
Qed.

Lemma geDate_true a b :
  geDate a b = true <-> valid a = true /\ valid b = true /\ b <= a.
Proof.
  unfold geDate, getTime.
  destruct (valid a), (valid b); rewrite ?Z.geb_le; intuition congruence.
Qed.

Lemma leDate_true a b :
  leDate a b = true <-> valid a = true /\ valid b = true /\ a <= b.
Proof.
  unfold leDate, getTime.
  destruct (valid a), (valid b); rewrite ?Z.leb_le; intuition congruence.
Qed.

(** With a valid bound, [a > b] fails exactly when [a] is invalid or
    not after [b]. *)
Lemma gtDate_false a b :
  valid a = true -> valid b = true -> gtDate a b = false -> a <= b.
Proof.
  intros Ha Hb H. destruct (Z_le_gt_dec a b) as [Hle|Hgt]; [exact Hle|].
  assert (gtDate a b = true) by (apply gtDate_true; repeat split; auto; lia).
  congruence.
Qed.

(** A multiple of 8 below [2 ^ 56] is a double. *)
Lemma roundDouble_multiple_of_8 k :
  Z.abs (roundDouble (8 * k)) < 2 ^ 56 -> roundDouble (8 * k) = 8 * k.
Proof.
  intros H. destruct (Z_lt_le_dec 0 (Z.log2 (Z.abs (8 * k)) - 52)) as [He|He].
  - revert H. unfold roundDouble.
    replace (Z.log2 (Z.abs (8 * k)) - 52 <=? 0) with false by lia.
    set (a := Z.abs (8 * k)) in *. set (e := Z.log2 a - 52) in *.
    assert (0 < a) as Ha.
    { destruct (Z.eq_dec a 0) as [H0|H0]; [|subst a; lia].
      subst e. rewrite H0 in He. change (Z.log2 0) with 0 in He. lia. }
    assert (2 ^ 52 * 2 ^ e <= a) as Hlow.
    { rewrite <- Z.pow_add_r by lia.
      replace (52 + e) with (Z.log2 a) by (subst e; lia).
      now apply Z.log2_spec. }
    assert (0 < 2 ^ e) as Hu by (apply Z.pow_pos_nonneg; lia).
    assert (2 ^ 52 <= a / 2 ^ e) as Hq
      by (apply Z.div_le_lower_bound; lia).
    assert (forall q', a / 2 ^ e <= q' ->
              Z.abs (Z.sgn (8 * k) * (q' * 2 ^ e)) < 2 ^ 56 -> e < 4) as He4.
    { intros q' Hq'. rewrite Z.abs_mul.
      replace (Z.abs (Z.sgn (8 * k))) with 1 by (subst a; lia).
      rewrite Z.abs_eq by nia. intros H.
      destruct (Z_lt_le_dec e 4) as [?|Hge]; [assumption|].
      assert (2 ^ 4 <= 2 ^ e) by (apply Z.pow_le_mono_r; lia).
      change (2 ^ 56) with (2 ^ 52 * 2 ^ 4) in H. nia. }
    intros H.
    assert (e < 4) as He4'.
    { revert H. destruct (_ || _); apply He4; lia. }
    clear H He4.
    assert (a mod 2 ^ e = 0) as Hr.
    { assert (a = 8 * Z.abs k) as -> by (subst a; lia).
      assert (e = 1 \/ e = 2 \/ e = 3) as [-> | [-> | ->]] by lia.
      - change (2 ^ 1) with 2.
        replace (8 * Z.abs k) with (4 * Z.abs k * 2) by lia.
        apply Z.mod_mul. lia.
      - change (2 ^ 2) with 4.
        replace (8 * Z.abs k) with (2 * Z.abs k * 4) by lia.
        apply Z.mod_mul. lia.
      - change (2 ^ 3) with 8.
        replace (8 * Z.abs k) with (Z.abs k * 8) by lia.
        apply Z.mod_mul. lia. }
    rewrite Hr.
    replace (2 ^ e <? 2 * 0) with false by lia.
    replace (2 ^ e =? 2 * 0) with false by lia.
    cbn [orb andb].
    assert (a / 2 ^ e * 2 ^ e = a) as ->.
    { pose proof (Z.div_mod a (2 ^ e)) as Hdm. rewrite Hr in Hdm. lia. }
    subst a. lia.
  - unfold roundDouble. apply Z.leb_le in He. now rewrite He.
Qed.

End NumberFacts.

(** ** Expansion of one event definition *)

Section ExpandFacts.

Import JsString JsNumber JsDate Sync.

Lemma orElse_nonEmpty a b : a <> EmptyString -> orElse a b = a.
Proof. unfold orElse. destruct a; [congruence|reflexivity]. Qed.

(** A row that [createEventRecord] returns: its start is a valid
    date, and its id is the UID (or its replacement), an underscore
    and the date string of the start. *)
Lemma createEventRecord_Some now event start source r :
  createEventRecord now event (Some start) source = Returns (Some r) ->
  valid start = true
  /\ id r = orElse (Ical.uid event) ("unknown_" +:+ pretty now)
              +:+ "_" +:+ dateStrOf start
  /\ start_time r = toISOString start
  /\ Sync.source r = sourceName source.
Proof.
  unfold createEventRecord. cbv zeta.
  destruct (valid start); [|discriminate]. cbn [negb].
  destruct (negb (valid _)); [discriminate|].
  intros [= <-]. auto.
Qed.

(** The record of an event with a UID. *)
Lemma createEventRecord_id now event start source r :
  Ical.uid event <> EmptyString ->
  createEventRecord now event (Some start) source = Returns (Some r) ->
  id r = Ical.uid event +:+ "_" +:+ dateStrOf start
  /\ start_time r = toISOString start.
Proof.
  intros Huid H. apply createEventRecord_Some in H as (_ & Hid & Hst & _).
  rewrite (orElse_nonEmpty (Ical.uid event)) in Hid by exact Huid. auto.
Qed.

(** Whether the record can be created does not depend on the clock,
    and nothing but its last-updated timestamp does. *)
Lemma createEventRecord_clock now1 now2 event start source :
  Ical.uid event <> EmptyString ->
  mapReturned (fmap withoutUpdatedAt)
    (createEventRecord now1 event start source)
  = mapReturned (fmap withoutUpdatedAt)
      (createEventRecord now2 event start source).
Proof.
  intros Huid. destruct start as [start|]; [|reflexivity].
  unfold createEventRecord. cbv zeta.
  destruct (negb (valid start)); [reflexivity|].
  destruct (negb (valid _)); [reflexivity|].
  cbn [mapReturned fmap option_fmap option_map]. unfold withoutUpdatedAt.
  cbn [id subject start_time end_time location organizer_email
       organizer_name attendees body_preview is_all_day Sync.source].
  now rewrite !(orElse_nonEmpty (Ical.uid event)) by exact Huid.
Qed.

#[local] Arguments createEventRecord : simpl never.
#[local] Arguments pushIf : simpl never.

Lemma pushIf_clock res1 res2 r1 r2 :
  withoutUpdatedAt <$> res1 = withoutUpdatedAt <$> res2 ->
  withoutUpdatedAt <$> r1 = withoutUpdatedAt <$> r2 ->
  withoutUpdatedAt <$> pushIf res1 r1 = withoutUpdatedAt <$> pushIf res2 r2.
Proof.
  intros Hres Hr. unfold pushIf.
  destruct r1, r2; simpl in *; try discriminate; [|exact Hres].
  rewrite !fmap_app, Hres. simpl. congruence.
Qed.

Lemma length_pushIf results r :
  (length (pushIf results r) <= S (length results))%nat.
Proof.
  unfold pushIf. destruct r; rewrite ?length_app; simpl; lia.
Qed.

Section Loop.

Variable event : Ical.Event.
Variables rangeStart rangeEnd : Z.
Variable source : FeedSource.

(** Two runs of the loop that differ in the clock only. *)
Lemma whileLoop_clock clock1 clock2 :
  Ical.uid event <> EmptyString ->
  forall remaining count next res1 res2,
    withoutUpdatedAt <$> res1 = withoutUpdatedAt <$> res2 ->
    let r1 := whileLoop clock1 event rangeStart rangeEnd source
                remaining count next res1 in
    let r2 := whileLoop clock2 event rangeStart rangeEnd source
                remaining count next res2 in
    withoutUpdatedAt <$> emitted r1 = withoutUpdatedAt <$> emitted r2
    /\ Sync.count r1 = Sync.count r2 /\ exit r1 = exit r2.
Proof.
  intros Huid. induction remaining as [|remaining IH];
    intros count next res1 res2 Hres; destruct next as [t| |]; simpl;
    try (split; [exact Hres|split; reflexivity]).
  destruct (gtDate (Ical.toJSDate t) rangeEnd);
    [split; [exact Hres|split; reflexivity]|].
  destruct (geDate (Ical.toJSDate t) rangeStart); [|now apply IH].
  pose proof (createEventRecord_clock (clock1 count) (clock2 count) event
                (Some (Ical.toJSDate t)) source Huid) as Hc.
  destruct (createEventRecord (clock1 count) _ _ _) as [m1|o1],
           (createEventRecord (clock2 count) _ _ _) as [m2|o2];
    cbn [mapReturned] in Hc; try discriminate.
  - split; [exact Hres|split; reflexivity].
  - apply IH. apply pushIf_clock; [exact Hres|]. now injection Hc.
Qed.

(** The iteration count and the number of rows pushed. *)
Lemma whileLoop_bounds clock :
  forall remaining count next results,
    let r := whileLoop clock event rangeStart rangeEnd source
               remaining count next results in
    (count <= Sync.count r <= count + remaining)%nat
    /\ (length (emitted r) <= length results + (Sync.count r - count))%nat.
Proof.
  induction remaining as [|remaining IH];
    intros count next results; destruct next as [t| |]; simpl;
    try lia.
  destruct (gtDate (Ical.toJSDate t) rangeEnd); simpl; [lia|].
  destruct (geDate (Ical.toJSDate t) rangeStart).
  - destruct (createEventRecord _ _ _ _) as [msg|occurrence]; simpl; [lia|].
    specialize (IH (S count) (Ical.iterator event (S count))
                  (pushIf results occurrence)).
    simpl in IH. destruct IH as [[Hlo Hhi] Hlen].
    pose proof (length_pushIf results occurrence). split; lia.
  - specialize (IH (S count) (Ical.iterator event (S count)) results).
    simpl in IH. destruct IH as [[Hlo Hhi] Hlen]. split; lia.
Qed.

(** Where the rows of the loop come from: a candidate of the
    iterator, a valid date inside the window. *)
Lemma whileLoop_emitted clock :
  forall remaining count next results r,
    r ∈ emitted (whileLoop clock event rangeStart rangeEnd source
                   remaining count next results) ->
    r ∈ results
    \/ exists c t,
         createEventRecord (clock c) event (Some (Ical.toJSDate t)) source
         = Returns (Some r)
         /\ geDate (Ical.toJSDate t) rangeStart = true
         /\ gtDate (Ical.toJSDate t) rangeEnd = false
         /\ (next = Ical.Yield t \/ exists k, Ical.iterator event k = Ical.Yield t).
Proof.
  induction remaining as [|remaining IH];
    intros count next results r; destruct next as [t| |]; simpl;
    try (intros H; left; exact H).
  destruct (gtDate (Ical.toJSDate t) rangeEnd) eqn:Hend;
    [intros H; left; exact H|].
  assert (forall results',
            r ∈ emitted (whileLoop clock event rangeStart rangeEnd source
                           remaining (S count)
                           (Ical.iterator event (S count)) results') ->
            r ∈ results'
            \/ exists c t',
                 createEventRecord (clock c) event (Some (Ical.toJSDate t'))
                   source = Returns (Some r)
                 /\ geDate (Ical.toJSDate t') rangeStart = true
                 /\ gtDate (Ical.toJSDate t') rangeEnd = false
                 /\ exists k, Ical.iterator event k = Ical.Yield t') as IH'.
  { intros results' H. apply IH in H as [H|(c & t' & Hc & Hlo & Hhi & Hcand)];
      [left; exact H|].
    right. exists c, t'. repeat (split; [assumption|]).
    destruct Hcand as [Hcand|Hcand]; [eauto|exact Hcand]. }
  destruct (geDate (Ical.toJSDate t) rangeStart) eqn:Hstart.
  - destruct (createEventRecord _ _ _ _) as [msg|occurrence] eqn:Hrec;
      [intros H; left; exact H|].
    intros H. apply IH' in H as [H|(c & t' & Hc & Hlo & Hhi & Hcand)].
    + unfold pushIf in H. destruct occurrence as [a|]; [|left; exact H].
      apply elem_of_app in H as [H|H]; [left; exact H|].
      apply list_elem_of_singleton in H as ->.
      right. exists count, t. auto.
    + right. exists c, t'. auto.
  - intros H. apply IH' in H as [H|(c & t' & Hc & Hlo & Hhi & Hcand)];
      [left; exact H|].
    right. exists c, t'. auto.
Qed.

End Loop.

End ExpandFacts.

(** ** Claims on the sync path *)

Section SyncClaims.

Import JsString JsNumber JsDate Sync.

#[local] Arguments createEventRecord : simpl never.
#[local] Arguments pushIf : simpl never.

Variable toLowerCase : string -> string.

(** The rows of the loop come from candidates inside the window. *)
Lemma expandLoop_emitted clock event rangeStart rangeEnd source r :
  r ∈ emitted (expandLoop clock event rangeStart rangeEnd source) ->
  exists c start,
    createEventRecord (clock c) event (Some start) source = Returns (Some r)
    /\ geDate start rangeStart = true
    /\ gtDate start rangeEnd = false.
Proof.
  unfold expandLoop. intros H.
  apply whileLoop_emitted in H as [H|(c & t & Hc & Hlo & Hhi & _)];
    [inversion H|].
  exists c, (Ical.toJSDate t). auto.
Qed.

(** Every row that [expandEvent] returns was made by
    [createEventRecord] from a start that lies in the window, or,
    when the iteration threw, from the nominal start. *)
Lemma expandEvent_emitted clock event rangeStart rangeEnd source rows r :
  expandEvent toLowerCase clock event rangeStart rangeEnd source
  = Returns rows ->
  r ∈ rows ->
  exists c start,
    createEventRecord (clock c) event (Some start) source = Returns (Some r)
    /\ ((geDate start rangeStart = true /\ gtDate start rangeEnd = false)
        \/ (Ical.isRecurring event = true
            /\ exit (expandLoop clock event rangeStart rangeEnd source)
               = Raised
            /\ Ical.toJSDate <$> Ical.startDate event = Some start)).
Proof.
  unfold expandEvent.
  generalize (expandLoop_emitted clock event rangeStart rangeEnd source r).
  generalize (expandLoop clock event rangeStart rangeEnd source).
  intros loop Hloop.
  destruct (skipsStatusBlock toLowerCase event source);
    [intros [= <-] H; inversion H|].
  destruct (Ical.isRecurring event) eqn:Hrec.
  - destruct (exit loop) eqn:Hexit.
    + intros [= <-] H. apply Hloop in H as (c & start & Hc & Hw). eauto.
    + destruct (createEventRecord _ _ (_ <$> _) _) as [msg|occurrence]
        eqn:Hfall; [discriminate|].
      intros [= <-]. unfold pushIf.
      destruct occurrence as [a|].
      * intros H. apply elem_of_app in H as [H|H].
        -- apply Hloop in H as (c & start & Hc & Hw). eauto.
        -- apply list_elem_of_singleton in H as ->.
           destruct (Ical.startDate event) as [s|] eqn:Hs;
             [|discriminate Hfall].
           exists (Sync.count loop), (Ical.toJSDate s).
           split; [exact Hfall|right]. auto.
      * intros H. apply Hloop in H as (c & start & Hc & Hw). eauto.
  - destruct (Ical.startDate event) as [s|];
      [|intros [= <-] H; inversion H].
    destruct (_ && _) eqn:Hin; [|intros [= <-] H; inversion H].
    apply andb_true_iff in Hin as [Hlo Hhi].
    destruct (createEventRecord _ _ _ _) as [msg|record] eqn:Hone;
      [discriminate|].
    intros [= <-]. unfold pushIf.
    destruct record as [a|]; [|intros H; inversion H].
    intros H. apply list_elem_of_singleton in H as ->.
    exists 0%nat, (Ical.toJSDate s). split; [exact Hone|left].
    split; [exact Hlo|].
    apply leDate_true in Hhi as (Hv & Hv' & Hle).
    destruct (gtDate (Ical.toJSDate s) rangeEnd) eqn:Hgt; [|reflexivity].
    apply gtDate_true in Hgt. lia.
Qed.

(** Two runs of the loop that differ in the clock only. *)
Lemma expandLoop_clock clock1 clock2 event rangeStart rangeEnd source :
  Ical.uid event <> EmptyString ->
  let r1 := expandLoop clock1 event rangeStart rangeEnd source in
  let r2 := expandLoop clock2 event rangeStart rangeEnd source in
  withoutUpdatedAt <$> emitted r1 = withoutUpdatedAt <$> emitted r2
  /\ Sync.count r1 = Sync.count r2 /\ exit r1 = exit r2.
Proof.
  intros Huid. unfold expandLoop. now apply whileLoop_clock.
Qed.

(** C1. Idempotent identity: for an event definition that carries a
    UID, two expansions against the same window, at whatever times
    they run, end in the same way, and when they return they give the
    same rows but for the last-updated timestamp; the id of each row
    is the UID, an underscore and the date string of its start
    instant. *)
Theorem C1_idempotent_identity clock1 clock2 event rangeStart rangeEnd source :
  Ical.uid event <> EmptyString ->
  mapReturned (fmap withoutUpdatedAt)
    (expandEvent toLowerCase clock1 event rangeStart rangeEnd source)
  = mapReturned (fmap withoutUpdatedAt)
      (expandEvent toLowerCase clock2 event rangeStart rangeEnd source)
  /\ forall rows r,
       expandEvent toLowerCase clock1 event rangeStart rangeEnd source
       = Returns rows ->
       r ∈ rows ->
       exists start,
         id r = Ical.uid event +:+ "_" +:+ dateStrOf start
         /\ start_time r = toISOString start.
Proof.
  intros Huid. split.
  - unfold expandEvent.
    generalize (expandLoop_clock clock1 clock2 event rangeStart rangeEnd
                  source Huid).
    generalize (expandLoop clock1 event rangeStart rangeEnd source).
    generalize (expandLoop clock2 event rangeStart rangeEnd source).
    intros loop2 loop1 (Hem & Hcount & Hexit).
    destruct (skipsStatusBlock toLowerCase event source); [reflexivity|].
    destruct (Ical.isRecurring event).
    + rewrite Hexit, Hcount.
      destruct (exit loop2); [cbn [mapReturned]; now rewrite Hem|].
      pose proof (createEventRecord_clock (clock1 (Sync.count loop2))
                    (clock2 (Sync.count loop2)) event
                    (Ical.toJSDate <$> Ical.startDate event) source Huid)
        as Hc.
      destruct (createEventRecord (clock1 _) _ _ _) as [m1|o1],
               (createEventRecord (clock2 _) _ _ _) as [m2|o2];
        cbn [mapReturned] in *; try discriminate; [now injection Hc as ->|].
      f_equal. apply pushIf_clock; [exact Hem|]. now injection Hc.
    + destruct (Ical.startDate event) as [s|]; [|reflexivity].
      destruct (_ && _); [|reflexivity].
      pose proof (createEventRecord_clock (clock1 0%nat) (clock2 0%nat) event
                    (Some (Ical.toJSDate s)) source Huid) as Hc.
      destruct (createEventRecord (clock1 _) _ _ _) as [m1|o1],
               (createEventRecord (clock2 _) _ _ _) as [m2|o2];
        cbn [mapReturned] in *; try discriminate; [now injection Hc as ->|].
      f_equal. apply pushIf_clock; [reflexivity|]. now injection Hc.
  - intros rows r Hrows Hr.
    destruct (expandEvent_emitted _ _ _ _ _ _ _ Hrows Hr)
      as (c & start & Hc & _).
    exists start. now apply (createEventRecord_id (clock1 c) event start source).
Qed.

End SyncClaims.

Section SyncClaimWitnesses.

Import JsString JsNumber JsDate Sync.

Lemma C1_idempotent_identity_witness :
  mapReturned (fmap withoutUpdatedAt)
    (expandEvent Samples.asciiToLowerCase Samples.clockA Samples.dailyForever
       Samples.rangeStart Samples.rangeEnd Ics)
  = mapReturned (fmap withoutUpdatedAt)
      (expandEvent Samples.asciiToLowerCase Samples.clockB Samples.dailyForever
         Samples.rangeStart Samples.rangeEnd Ics).
Proof.
  refine (proj1 (C1_idempotent_identity Samples.asciiToLowerCase Samples.clockA
                   Samples.clockB Samples.dailyForever Samples.rangeStart
                   Samples.rangeEnd Ics _)).
  discriminate.
Defined.

End SyncClaimWitnesses.

(** ** Base-id recovery *)

Section BaseIdFacts.

Import JsString JsDate Sync.

(** The ISO string has 24 characters exactly when the year has four
    digits (27 otherwise). *)
Lemma toISOString_length_24 t :
  String.length (toISOString t) = 24%nat -> fourDigitYear t = true.
Proof.
  unfold toISOString, yearString, fourDigitYear.
  destruct (_ && _); [reflexivity|].
  rewrite !length_app_string, !pad_length.
  destruct (getUTCFullYear t <? 0); simpl; discriminate.
Qed.

Lemma split_suffix uid ts :
  includesChar "_" ts = false ->
  split "_" (uid +:+ "_" +:+ ts) = split "_" uid ++ [ts].
Proof.
  intros Hts. change ("_" +:+ ts) with (String "_" ts).
  now rewrite split_app_sep, (split_without _ _ Hts).
Qed.

Lemma length_split_suffix uid ts :
  (length (split "_" uid ++ [ts]) <=? 1)%nat = false.
Proof.
  pose proof (split_not_nil "_" uid) as Hnil.
  destruct (split "_" uid); [contradiction|].
  rewrite length_app. simpl. apply Nat.leb_gt. lia.
Qed.

Lemma lastPart_snoc parts ts : lastPart (parts ++ [ts]) = ts.
Proof. unfold lastPart. apply List.last_last. Qed.

Lemma sliceInit_snoc parts ts : sliceInit (parts ++ [ts]) = parts.
Proof. unfold sliceInit. apply List.removelast_last. Qed.

(** The handler's recovery strips a timestamp suffix, whatever the
    UID in front of it. *)
Lemma Events_getBaseId_suffix uid ts :
  Events.isTimestamp ts = true -> includesChar "_" ts = false ->
  Events.getBaseIdFromEventId (uid +:+ "_" +:+ ts) = uid.
Proof.
  intros Hts Hno. unfold Events.getBaseIdFromEventId.
  rewrite (split_suffix _ _ Hno), length_split_suffix, lastPart_snoc, Hts,
    sliceInit_snoc.
  apply join_split.
Qed.

(** So does the page's. *)
Lemma Page_getBaseId_suffix uid ts :
  Page.isFullTimestamp ts = true -> includesChar "_" ts = false ->
  Page.getBaseIdFromEventId (uid +:+ "_" +:+ ts) = uid.
Proof.
  intros Hts Hno. unfold Page.getBaseIdFromEventId.
  assert (includesChar "_" (uid +:+ "_" +:+ ts) = true) as ->.
  { rewrite includesChar_app. change ("_" +:+ ts) with (String "_" ts).
    simpl. apply orb_true_r. }
  rewrite (split_suffix _ _ Hno), lastPart_snoc, Hts, sliceInit_snoc.
  apply join_split.
Qed.

Section SingleEvent.

Variable toLowerCase : string -> string.

(** C2. Base-id recovery, second half: a single event does not keep
    its bare UID as its id. The event [abc] of 2025-12-01, which has no
    rule, is written with the id [abc_20251201T150000]; recovering the
    base id changes that id, and the page takes it for an occurrence
    of a recurring series. *)
Theorem C2_single_event_id_has_suffix :
  Ical.isRecurring Samples.singleEvent = false
  /\ expandEvent toLowerCase Samples.clockA Samples.singleEvent
       Samples.rangeStart Samples.rangeEnd Ics
     = Returns [Samples.singleRow]
  /\ id Samples.singleRow = Ical.uid Samples.singleEvent +:+ "_20251201T150000"
  /\ id Samples.singleRow <> Ical.uid Samples.singleEvent
  /\ Events.getBaseIdFromEventId (id Samples.singleRow) <> id Samples.singleRow
  /\ Page.isEventRecurring (id Samples.singleRow) = true.
Proof.
  split; [reflexivity|]. split.
  { unfold expandEvent.
    replace (skipsStatusBlock toLowerCase Samples.singleEvent Ics) with false.
    - vm_compute. reflexivity.
    - symmetry. unfold skipsStatusBlock. apply andb_false_iff. right.
      vm_compute. reflexivity. }
  split; [reflexivity|]. split; [discriminate|].
  split; [discriminate|reflexivity].
Qed.

End SingleEvent.

Section Recovery.

Variable toLowerCase : string -> string.

(** X29. Base-id recovery on what the sync writes: every row that the
    expansion returns for an event with a UID, recurring or single,
    whose start is rendered with a four-digit year (an ISO string of
    24 characters) has the id UID, underscore, [YYYYMMDDTHHMMSS] of
    its start; [getBaseIdFromEventId], the handler's and the page's,
    returns exactly the UID for it. *)
Theorem base_id_recovery_of_synced_rows
    clock event rangeStart rangeEnd source rows r :
  Ical.uid event <> EmptyString ->
  expandEvent toLowerCase clock event rangeStart rangeEnd source
  = Returns rows ->
  r ∈ rows ->
  String.length (start_time r) = 24%nat ->
  (exists start,
     start_time r = toISOString start
     /\ id r = Ical.uid event +:+ "_" +:+ compactTimestamp start)
  /\ Events.getBaseIdFromEventId (id r) = Ical.uid event
  /\ Page.getBaseIdFromEventId (id r) = Ical.uid event.
Proof.
  intros Huid Hrows Hr Hlen.
  destruct (expandEvent_emitted _ _ _ _ _ _ _ _ Hrows Hr)
    as (c & start & Hc & _).
  destruct (createEventRecord_id (clock c) event start source r Huid Hc)
    as (Hid & Hst).
  rewrite Hst in Hlen. apply toISOString_length_24 in Hlen.
  unfold dateStrOf in Hid. rewrite (dateStr_compact _ Hlen) in Hid.
  assert (includesChar "_" (compactTimestamp start) = false) as Hno
    by (apply compactTimestamp_without; [reflexivity|discriminate]).
  split; [exists start; split; assumption|].
  rewrite Hid. split.
  - apply Events_getBaseId_suffix;
      [apply compactTimestamp_isTimestamp|exact Hno].
  - apply Page_getBaseId_suffix;
      [apply compactTimestamp_isFullTimestamp|exact Hno].
Qed.

End Recovery.

Lemma base_id_recovery_of_synced_rows_witness :
  Events.getBaseIdFromEventId (id Samples.dailyRow) = "abc".
Proof.
  refine (proj1 (proj2 (base_id_recovery_of_synced_rows Samples.asciiToLowerCase
                          Samples.clockA Samples.dailyForever
                          (Samples.dec1 + msPerDay) (Samples.dec1 + msPerDay)
                          Ics [Samples.dailyRow] Samples.dailyRow _ _ _ _))).
  - discriminate.
  - vm_compute. reflexivity.
  - apply list_elem_of_here.
  - reflexivity.
Defined.

End BaseIdFacts.
Section SyncClaims2.

Import JsString JsNumber JsDate Sync.

#[local] Arguments createEventRecord : simpl never.
#[local] Arguments pushIf : simpl never.

Variable toLowerCase : string -> string.

(** ** The cap of the loop *)

Lemma expandLoop_bounds clock event rangeStart rangeEnd source :
  let r := expandLoop clock event rangeStart rangeEnd source in
  (Sync.count r <= maxIterations)%nat
  /\ (length (emitted r) <= Sync.count r)%nat.
Proof.
  unfold expandLoop.
  pose proof (whileLoop_bounds event rangeStart rangeEnd source clock
                maxIterations 0%nat (Ical.iterator event 0) []) as H.
  cbv zeta in *. destruct H as [[_ Hcount] Hlen].
  change (length (@nil Appointment)) with 0%nat in Hlen.
  split; lia.
Qed.

(** X27. With the row of the fallback a call of [expandEvent] that
    returns gives 501 rows at most, whatever the iterator of the rule
    yields. *)
Lemma expandEvent_length clock event rangeStart rangeEnd source :
  match expandEvent toLowerCase clock event rangeStart rangeEnd source with
  | Returns rows => (length rows <= S maxIterations)%nat
  | Throws _ => True
  end.
Proof.
  unfold expandEvent.
  generalize (expandLoop_bounds clock event rangeStart rangeEnd source).
  generalize (expandLoop clock event rangeStart rangeEnd source).
  cbv zeta. intros loop [Hcount Hlen].
  destruct (skipsStatusBlock toLowerCase event source); [cbn [length]; lia|].
  destruct (Ical.isRecurring event).
  - destruct (exit loop); [lia|].
    destruct (createEventRecord _ _ _ _) as [msg|occurrence]; [exact I|].
    pose proof (length_pushIf (emitted loop) occurrence). lia.
  - destruct (Ical.startDate event) as [s|]; [|cbn [length]; lia].
    destruct (_ && _); [|cbn [length]; lia].
    destruct (createEventRecord _ _ _ _) as [msg|record]; [exact I|].
    pose proof (length_pushIf [] record) as H.
    cbn [length] in H. lia.
Qed.

(** C3. Bounded expansion: for every event definition, whatever its
    rule iterator yields and for every window, the loop runs at most
    500 times, each run examining one candidate, and pushes at most
    one row per run, so at most 500 rows; a recurring definition whose
    iteration does not throw is expanded into at most 500 rows. The
    loop is a total function: it is left after at most 500 runs. *)
Theorem C3_bounded_expansion clock event rangeStart rangeEnd source :
  let loop := expandLoop clock event rangeStart rangeEnd source in
  (Sync.count loop <= 500)%nat
  /\ (length (emitted loop) <= 500)%nat
  /\ (Ical.isRecurring event = true -> exit loop = Finished ->
      exists rows,
        expandEvent toLowerCase clock event rangeStart rangeEnd source
        = Returns rows
        /\ (length rows <= 500)%nat).
Proof.
  unfold expandEvent.
  generalize (expandLoop_bounds clock event rangeStart rangeEnd source).
  generalize (expandLoop clock event rangeStart rangeEnd source).
  cbv zeta. intros loop [Hcount Hlen].
  change maxIterations with 500%nat in Hcount.
  split; [lia|]. split; [lia|].
  intros Hrec Hexit.
  destruct (skipsStatusBlock toLowerCase event source).
  - exists []. split; [reflexivity|cbn [length]; lia].
  - rewrite Hrec, Hexit. exists (emitted loop). split; [reflexivity|lia].
Qed.

(** ** The window *)

(** X26. Outside the fallback every row starts inside the window: when
    the loop over the rule ends without throwing, or the event has no
    rule, every row of the expansion starts at a valid date that is
    not before the start of the window and, the end of the window
    being a valid date, not after it. *)
Lemma expandEvent_window clock event rangeStart rangeEnd source rows r :
  exit (expandLoop clock event rangeStart rangeEnd source) = Finished
  \/ Ical.isRecurring event = false ->
  expandEvent toLowerCase clock event rangeStart rangeEnd source
  = Returns rows ->
  r ∈ rows ->
  exists start,
    start_time r = toISOString start
    /\ valid start = true
    /\ rangeStart <= start
    /\ (valid rangeEnd = true -> start <= rangeEnd).
Proof.
  intros Hok Hrows Hr.
  destruct (expandEvent_emitted _ _ _ _ _ _ _ _ Hrows Hr)
    as (c & start & Hc & Hw).
  exists start.
  apply createEventRecord_Some in Hc as (Hv & _ & Hst & _).
  split; [exact Hst|]. split; [exact Hv|].
  destruct Hw as [[Hlo Hhi]|(Hrec & Hexit & _)].
  - apply geDate_true in Hlo as (_ & _ & Hlo). split; [exact Hlo|].
    intros Hend. now apply gtDate_false.
  - destruct Hok as [Hok|Hok]; congruence.
Qed.

End SyncClaims2.

Section SyncClaims2Samples.

Import JsString JsNumber JsDate Sync.

Lemma C3_bounded_expansion_witness :
  exists rows,
    expandEvent Samples.asciiToLowerCase Samples.clockA Samples.dailyForever
      Samples.rangeStart (Samples.rangeEnd + 1000 * msPerDay) Ics
    = Returns rows
    /\ (length rows <= 500)%nat.
Proof.
  refine (proj2 (proj2 (C3_bounded_expansion Samples.asciiToLowerCase
                          Samples.clockA Samples.dailyForever
                          Samples.rangeStart
                          (Samples.rangeEnd + 1000 * msPerDay) Ics)) _ _).
  - reflexivity.
  - vm_compute. reflexivity.
Defined.

(** The daily series without an end against a window of three years:
    exactly 500 rows. *)
Example dailyForever_500 :
  mapReturned (@length _)
    (expandEvent Samples.asciiToLowerCase Samples.clockA Samples.dailyForever
       Samples.rangeStart (Samples.rangeEnd + 1000 * msPerDay) Ics)
  = Returns 500%nat.
Proof. vm_compute. reflexivity. Qed.

(** When the call of [next()] at the end of the 500th run throws, the
    fallback adds a row to the 500 of the loop. *)
Example hourlyThenThrow_501 :
  mapReturned (@length _)
    (expandEvent Samples.asciiToLowerCase Samples.clockA Samples.hourlyThenThrow
       Samples.rangeStart Samples.rangeEnd Ics)
  = Returns 501%nat.
Proof. vm_compute. reflexivity. Qed.

Section Fallback.

Variable toLowerCase : string -> string.

(** C4. Window monotonicity fails on the error-recovery path: the
    series [brokenRule], whose nominal start is 1970-01-01 and whose
    iterator throws, is expanded against the window of a sync on
    2025-12-01 into one row that starts on 1970-01-01, before the
    window. *)
Theorem C4_fallback_outside_window :
  expandEvent toLowerCase Samples.clockA Samples.brokenRule
    Samples.rangeStart Samples.rangeEnd Ics
  = Returns [Samples.strayRow]
  /\ start_time Samples.strayRow = toISOString 0
  /\ 0 < Samples.rangeStart.
Proof.
  split; [|vm_compute; split; reflexivity].
  unfold expandEvent.
  replace (skipsStatusBlock toLowerCase Samples.brokenRule Ics) with false.
  - vm_compute. reflexivity.
  - symmetry. unfold skipsStatusBlock. apply andb_false_iff. right.
    vm_compute. reflexivity.
Qed.

End Fallback.

End SyncClaims2Samples.

(** ** The orchestrator *)

Section PostFacts.

Import Sync.

Variable toLowerCase : string -> string.
Variable trim : string -> string.

(** [syncIcsCalendar] catches whatever happens inside it: there is one
    result per configured feed. *)
Lemma syncAll_length env :
  length (syncAll toLowerCase trim env) = length (configuredFeeds trim env).
Proof. unfold syncAll. apply length_imap. Qed.

(** The negation of the second half of C9, whatever the engine makes
    of [toLowerCase] and [trim]: with the work feed and both personal
    feeds unreachable and the store up, every feed fails and the
    response still says [success: true]. *)
Lemma C9_all_feeds_fail_success :
  ~ (exists toLowerCase trim,
       forall env,
         configuredFeeds trim env <> [] ->
         Forall (fun r => feedFailed r = true)
                (syncAll toLowerCase trim env) ->
         success (POST toLowerCase trim env) = false).
Proof.
  intros (lower & strip & H). specialize (H Samples.allFeedsDown).
  assert (success (POST lower strip Samples.allFeedsDown) = true) as Hs
    by reflexivity.
  rewrite H in Hs; [discriminate| |].
  - cbn. discriminate.
  - unfold syncAll. apply Forall_lookup. intros n r Hr.
    rewrite list_lookup_imap in Hr.
    destruct (configuredFeeds strip Samples.allFeedsDown !! n)
      as [[url source]|]; [|discriminate].
    cbn in Hr. injection Hr as <-. reflexivity.
Qed.

(** C9 (amended). The response carries one result per configured feed,
    in order, each with its own errors. When the handler runs to its
    end the response says [success: true] with status 200, whether
    feeds failed or not, all of them included, and its [errors] are
    the errors of the feeds one after the other ([undefined] when
    there is none). It says [success: false], with status 500 and the
    results gathered, when the write of the sync metadata throws. *)
Theorem C9_orchestrator_reporting env :
  results (POST toLowerCase trim env) = syncAll toLowerCase trim env
  /\ length (syncAll toLowerCase trim env)
     = length (configuredFeeds trim env)
  /\ match metadataUpsert env with
     | Returns _ =>
         success (POST toLowerCase trim env) = true
         /\ http_status (POST toLowerCase trim env) = 200
         /\ all_errors (POST toLowerCase trim env)
            = match concat (errors <$> syncAll toLowerCase trim env) with
              | [] => None
              | e :: es => Some (e :: es)
              end
     | Throws msg =>
         success (POST toLowerCase trim env) = false
         /\ http_status (POST toLowerCase trim env) = 500
         /\ Sync.error (POST toLowerCase trim env) = Some "Sync failed"
         /\ details (POST toLowerCase trim env) = Some msg
     end.
Proof.
  unfold POST. generalize (syncAll_length env).
  generalize (syncAll toLowerCase trim env).
  intros rs Hlen.
  destruct (metadataUpsert env) as [msg|u];
    cbn [results success http_status all_errors Sync.error details].
  - repeat split; auto.
  - split; [reflexivity|]. split; [exact Hlen|]. repeat split.
    destruct (concat (errors <$> rs)); reflexivity.
Qed.

End PostFacts.

Section PostSamples.

Import Sync.

(** One feed down, one healthy with a component that does not parse:
    success, one row added, both errors itemized. *)
Example oneFeedDown_response :
  let r := POST Samples.asciiToLowerCase Samples.asciiTrim Samples.oneFeedDown in
  success r = true
  /\ (added <$> results r) = [1%nat; 0%nat]
  /\ all_errors r
     = Some ["Failed to parse event: invalid date"; "fetch failed"].
Proof. vm_compute. repeat split; reflexivity. Qed.

Example allFeedsDown_response :
  let r := POST Samples.asciiToLowerCase Samples.asciiTrim Samples.allFeedsDown in
  success r = true
  /\ (errors <$> results r)
     = [["fetch failed"]; ["fetch failed"]; ["fetch failed"]].
Proof. vm_compute. repeat split; reflexivity. Qed.

End PostSamples.

(** ** The events read path *)

Section ReadFacts.

Import Lib Events.

Lemma idSet_fold items : forall (acc : gset string) s,
  s ∈ fold_left
        (fun set item =>
           match item with
           | Some (JStr s) => set ∪ {[ s ]}
           | _ => set
           end)
        items acc
  <-> s ∈ acc \/ Some (JStr s) ∈ items.
Proof.
  induction items as [|item items IH]; intros acc s; simpl.
  - split; [auto|]. intros [H|H]; [exact H|inversion H].
  - rewrite IH, elem_of_cons.
    destruct item as [[| | | |s'|]|];
      try (split; [intros [?|?]; auto|intros [?|[?|?]]; auto; discriminate]).
    rewrite elem_of_union, elem_of_singleton. split.
    + intros [[?| ->]|?]; auto.
    + intros [?|[[= ->]|?]]; auto.
Qed.

(** The sets hold exactly the strings of the column. *)
Lemma elem_of_idSet rows s :
  s ∈ idSet rows <-> exists items, rows = Some items /\ Some (JStr s) ∈ items.
Proof.
  destruct rows as [items|]; simpl.
  - rewrite idSet_fold. split.
    + intros [H|H]; [set_solver|eauto].
    + intros (items' & [= <-] & H). auto.
  - split; [set_solver|]. intros (? & [=] & _).
Qed.

(** The boolean test of the ignore filter. *)
Lemma notIgnored_true B E i :
  notIgnored B E i = true
  <-> (i ∉ E) /\ (getBaseIdFromEventId i ∉ B).
Proof.
  unfold notIgnored. repeat case_decide; split; try tauto; try discriminate.
  all: intros [? ?]; contradiction.
Qed.

(** On rows whose ids are strings the filter does not throw. *)
Lemma filterIgnored_strings B E rows :
  forallb hasStringId rows = true ->
  filterIgnored B E rows = Some (List.filter (keeps B E) rows).
Proof.
  induction rows as [|apt rows IH]; simpl; [reflexivity|].
  intros H. apply andb_true_iff in H as [Hid Hrows].
  rewrite (IH Hrows). unfold keepsRow, keeps, hasStringId in *.
  destruct (id apt); try discriminate. reflexivity.
Qed.

(** A row with another id makes it throw. *)
Lemma filterIgnored_throws B E rows :
  forallb hasStringId rows = false -> filterIgnored B E rows = None.
Proof.
  induction rows as [|apt rows IH]; simpl; [discriminate|].
  intros H. apply andb_false_iff in H as [Hid|Hrows].
  - unfold keepsRow, hasStringId in *. destruct (id apt); try reflexivity.
    discriminate.
  - rewrite (IH Hrows). now destruct (keepsRow B E apt).
Qed.

Lemma requiredString_Some v s :
  requiredString v = Some s -> v = JStr s /\ s <> EmptyString.
Proof.
  destruct v as [| | | |s'|]; simpl; try discriminate.
  destruct s'; simpl; [discriminate|]. intros [= <-]. split; congruence.
Qed.

Lemma requiredSource_Some v s :
  requiredSource v = Some s ->
  v = JStr s
  /\ (s = "graph_api" \/ s = "ics" \/ s = "apple_calendar").
Proof.
  destruct v as [| | | |s'|]; simpl; try discriminate.
  destruct (_ && _) eqn:H; [|discriminate]. intros [= <-].
  apply andb_true_iff in H as [_ H]. simpl in H.
  split; [reflexivity|].
  repeat (apply orb_true_iff in H as [H|H];
          [apply String.eqb_eq in H; auto|]).
  discriminate.
Qed.

(** What the conversion returns passed all four checks. *)
Lemma toCalendarEvent_Some apt e :
  toCalendarEvent (Some apt) = Some e ->
  id apt = JStr (ev_id e) /\ source apt = JStr (ev_source e) /\ wellFormed e.
Proof.
  unfold toCalendarEvent, wellFormed.
  destruct (requiredString (id apt)) as [i|] eqn:Hi; [|discriminate].
  destruct (requiredString (start_time apt)) as [st|] eqn:Hst; [|discriminate].
  destruct (requiredString (end_time apt)) as [en|] eqn:Hen; [|discriminate].
  destruct (requiredSource (source apt)) as [src|] eqn:Hsrc; [|discriminate].
  intros [= <-]. simpl.
  apply requiredString_Some in Hi as [? ?], Hst as [? ?], Hen as [? ?].
  apply requiredSource_Some in Hsrc as [? ?]. auto 10.
Qed.

(** Masking leaves the four validated fields alone. *)
Lemma convert_Some revealed apt e :
  convert revealed apt = Some e ->
  id apt = JStr (ev_id e) /\ source apt = JStr (ev_source e) /\ wellFormed e.
Proof.
  unfold convert.
  destruct (toCalendarEvent (Some apt)) as [e'|] eqn:He'; [|discriminate].
  apply toCalendarEvent_Some in He' as (Hid & Hsrc & Hwf).
  destruct (_ && _); intros [= <-]; simpl; auto.
Qed.

Lemma convert_isValidRow revealed apt :
  isValidRow apt = true <-> exists e, convert revealed apt = Some e.
Proof.
  unfold isValidRow, convert.
  destruct (toCalendarEvent (Some apt)) as [e'|].
  - split; [|reflexivity]. intros _. destruct (_ && _); eauto.
  - split; [discriminate|]. intros (? & [=]).
Qed.

#[local] Arguments convert : simpl never.
#[local] Arguments isValidRow : simpl never.

(** Rows that do not pass the validation add nothing to the list. *)
Lemma omap_convert_valid revealed rows :
  omap (convert revealed) rows
  = omap (convert revealed) (List.filter isValidRow rows).
Proof.
  induction rows as [|apt rows IH]; simpl; [reflexivity|].
  destruct (isValidRow apt) eqn:Hv; simpl.
  - destruct (convert revealed apt); [f_equal|]; exact IH.
  - destruct (convert revealed apt) eqn:Hc; [|exact IH].
    exfalso.
    assert (isValidRow apt = true)
      by (apply (convert_isValidRow revealed apt); eauto).
    congruence.
Qed.

Lemma respond_strings revealed B E rows :
  forallb hasStringId rows = true ->
  respond revealed B E rows
  = Ok (omap (convert revealed) (List.filter (keeps B E) rows)).
Proof. intros H. unfold respond. now rewrite filterIgnored_strings. Qed.

Lemma respond_Ok revealed B E rows events :
  respond revealed B E rows = Ok events ->
  forallb hasStringId rows = true.
Proof.
  unfold respond. intros H.
  destruct (forallb hasStringId rows) eqn:Hs; [reflexivity|].
  now rewrite (filterIgnored_throws _ _ _ Hs) in H.
Qed.

Lemma filter_filter_comm {A} (f g : A -> bool) l :
  List.filter f (List.filter g l) = List.filter g (List.filter f l).
Proof.
  induction l as [|x l IH]; simpl; [reflexivity|].
  destruct (f x) eqn:Hf, (g x) eqn:Hg; simpl; rewrite ?Hf, ?Hg, IH;
    reflexivity.
Qed.

Lemma forallb_filter {A} (f g : A -> bool) l :
  forallb f l = true -> forallb f (List.filter g l) = true.
Proof.
  induction l as [|x l IH]; simpl; [reflexivity|].
  intros H. apply andb_true_iff in H as [Hx Hl].
  destruct (g x); simpl; rewrite ?Hx; auto.
Qed.

Section Handler.

Context {Store : Type}.
Variable selectAppointments : Store -> Z -> Z -> Reply (list Row).
Variable selectIgnoredBaseIds : Store -> Reply (list (option JsVal)).
Variable selectIgnoredEventIds : Store -> Reply (list (option JsVal)).

#[local] Abbreviation GET := (GET selectAppointments selectIgnoredBaseIds
                     selectIgnoredEventIds).

(** The handler only reads. *)
Lemma GET_store daysAhead revealed now store :
  snd (GET daysAhead revealed now store) = store.
Proof.
  unfold Events.GET. destruct daysAhead as [d|]; [|reflexivity].
  destruct (_ || _); [reflexivity|].
  destruct (error _); reflexivity.
Qed.

(** The response to a good request that the store answers. *)
Lemma GET_respond daysAhead revealed now store rows :
  1 <= daysAhead <= 365 ->
  selectAppointments store (queryStart now) (queryEnd now daysAhead)
  = {| data := Some rows; error := None |} ->
  GET (Some daysAhead) revealed now store
  = (respond revealed
       (idSet (data (selectIgnoredBaseIds store)))
       (idSet (data (selectIgnoredEventIds store))) rows, store).
Proof.
  intros Hd Hrows. unfold Events.GET.
  replace ((daysAhead <? 1) || (daysAhead >? 365)) with false by lia.
  rewrite Hrows. reflexivity.
Qed.

Lemma GET_Ok daysAhead revealed now store events :
  fst (GET daysAhead revealed now store) = Ok events ->
  exists rows,
    events = omap (convert revealed) (List.filter (keeps
               (idSet (data (selectIgnoredBaseIds store)))
               (idSet (data (selectIgnoredEventIds store)))) rows).
Proof.
  unfold Events.GET. destruct daysAhead as [d|]; [|discriminate].
  destruct (_ || _); [discriminate|].
  destruct (error _); [discriminate|]. simpl. intros H.
  pose proof (respond_Ok _ _ _ _ _ H) as Hs.
  rewrite (respond_strings _ _ _ _ Hs) in H. injection H as <-. eauto.
Qed.

End Handler.

End ReadFacts.


Section ReadClaims.

Import Lib Events.

Context {Store : Type}.
Variable selectAppointments : Store -> Z -> Z -> Reply (list Row).
Variable selectIgnoredBaseIds : Store -> Reply (list (option JsVal)).
Variable selectIgnoredEventIds : Store -> Reply (list (option JsVal)).

#[local] Abbreviation GET := (GET selectAppointments selectIgnoredBaseIds
                     selectIgnoredEventIds).

(** C7. Ignore precedence: on a good request that the store answers
    with rows whose ids are strings, the handler answers with a list of
    events and leaves the store as it was; a row that is a well-formed
    occurrence has an event with its id in that list exactly when its
    id is not in the set of ignored occurrence ids and the base id
    recovered from it is not in the set of ignored base ids. Either
    membership alone excludes it. *)
Theorem C7_ignore_precedence daysAhead revealed now store rows :
  1 <= daysAhead <= 365 ->
  selectAppointments store (queryStart now) (queryEnd now daysAhead)
  = {| data := Some rows; error := None |} ->
  forallb hasStringId rows = true ->
  let ignoredBaseSet := idSet (data (selectIgnoredBaseIds store)) in
  let ignoredEventSet := idSet (data (selectIgnoredEventIds store)) in
  exists events,
    GET (Some daysAhead) revealed now store = (Ok events, store)
    /\ forall apt i,
         apt ∈ rows -> id apt = JStr i -> isValidRow apt = true ->
         ((exists e, e ∈ events /\ ev_id e = i)
          <-> (i ∉ ignoredEventSet)
              /\ (getBaseIdFromEventId i ∉ ignoredBaseSet)).
Proof.
  intros Hd Hrows Hs B E.
  rewrite (GET_respond _ _ _ _ _ _ _ _ Hd Hrows).
  rewrite (respond_strings _ _ _ _ Hs). eexists. split; [reflexivity|].
  intros apt i Hin Hid Hvalid. fold B E.
  rewrite <- notIgnored_true. split.
  - intros (e & He & Hei).
    apply list_elem_of_omap in He as (apt' & Hin' & Hconv).
    apply list_elem_of_In, filter_In in Hin' as [_ Hkeep].
    apply convert_Some in Hconv as (Hid' & _).
    unfold keeps in Hkeep. rewrite Hid', Hei in Hkeep. exact Hkeep.
  - intros Hkeep.
    apply (convert_isValidRow revealed) in Hvalid as (e & He).
    exists e. split.
    + apply list_elem_of_omap. exists apt. split; [|exact He].
      apply list_elem_of_In, filter_In. split; [now apply list_elem_of_In|].
      unfold keeps. now rewrite Hid.
    + apply convert_Some in He as (Hid' & _). congruence.
Qed.

(** X30. Output validation where it works: whatever the request and
    the store, every event of a list that the handler returns has a
    non-empty id, start and end and one of the three sources; and on a
    good request that the store answers with rows whose ids are all
    strings the handler returns a list, the same list as for the rows
    that pass the validation alone: among such rows one that fails the
    validation is dropped and the request does not fail. *)
Theorem GET_output_validation daysAhead revealed now store :
  (forall events,
     fst (GET daysAhead revealed now store) = Ok events ->
     forall e, e ∈ events -> wellFormed e)
  /\ (forall d rows,
        daysAhead = Some d -> 1 <= d <= 365 ->
        selectAppointments store (queryStart now) (queryEnd now d)
        = {| data := Some rows; error := None |} ->
        forallb hasStringId rows = true ->
        let ignoredBaseSet := idSet (data (selectIgnoredBaseIds store)) in
        let ignoredEventSet := idSet (data (selectIgnoredEventIds store)) in
        exists events,
          fst (GET daysAhead revealed now store) = Ok events
          /\ respond revealed ignoredBaseSet ignoredEventSet
               (List.filter isValidRow rows) = Ok events
          /\ forall e, e ∈ events ->
               exists apt, apt ∈ rows /\ isValidRow apt = true
                           /\ convert revealed apt = Some e).
Proof.
  split.
  - intros events H e He.
    apply GET_Ok in H as (rows & ->).
    apply list_elem_of_omap in He as (apt & _ & Hconv).
    now apply convert_Some in Hconv.
  - intros d rows -> Hd Hrows Hs B E.
    rewrite (GET_respond _ _ _ _ _ _ _ _ Hd Hrows). fold B E. simpl.
    rewrite (respond_strings _ _ _ _ Hs).
    rewrite (respond_strings _ _ _ _ (forallb_filter _ isValidRow _ Hs)).
    eexists. split; [reflexivity|]. split.
    + rewrite filter_filter_comm, <- omap_convert_valid. reflexivity.
    + intros e He. apply list_elem_of_omap in He as (apt & Hin & Hconv).
      apply list_elem_of_In, filter_In in Hin as [Hin _].
      exists apt. split; [now apply list_elem_of_In|]. split; [|exact Hconv].
      apply (convert_isValidRow revealed). eauto.
Qed.

End ReadClaims.

Section ReadWitnesses.

Import Lib Events.

#[local] Abbreviation sampleGET := (GET Samples.selectAppointments
                           Samples.selectIgnoredBaseIds
                           Samples.selectIgnoredEventIds).

(** The series [abc] and the review are ignored: the dentist alone is
    returned, masked. *)
Example ignoringStore_response :
  ev_id <$> match fst (sampleGET (Some 30) false Samples.dec1
                         Samples.ignoringStore) with
            | Ok events => events
            | _ => []
            end
  = ["den_20251201T151500"].
Proof. vm_compute. reflexivity. Qed.

Lemma C7_ignore_precedence_witness :
  exists events,
    sampleGET (Some 30) false Samples.dec1 Samples.ignoringStore
    = (Ok events, Samples.ignoringStore)
    /\ forall apt i,
         apt ∈ Samples.appointments Samples.ignoringStore ->
         id apt = JStr i -> isValidRow apt = true ->
         ((exists e, e ∈ events /\ ev_id e = i)
          <-> (i ∉ idSet (data (Samples.selectIgnoredEventIds
                                  Samples.ignoringStore)))
              /\ (getBaseIdFromEventId i
                  ∉ idSet (data (Samples.selectIgnoredBaseIds
                                   Samples.ignoringStore)))).
Proof.
  refine (C7_ignore_precedence Samples.selectAppointments
            Samples.selectIgnoredBaseIds Samples.selectIgnoredEventIds
            30 false Samples.dec1 Samples.ignoringStore
            (Samples.appointments Samples.ignoringStore) _ _ _).
  - lia.
  - reflexivity.
  - reflexivity.
Defined.

Lemma GET_output_validation_witness :
  exists events,
    fst (sampleGET (Some 30) true Samples.dec1 Samples.dirtyStore) = Ok events
    /\ respond true ∅ ∅
         (List.filter isValidRow (Samples.appointments Samples.dirtyStore))
       = Ok events
    /\ forall e, e ∈ events ->
         exists apt, apt ∈ Samples.appointments Samples.dirtyStore
                     /\ isValidRow apt = true
                     /\ convert true apt = Some e.
Proof.
  refine (proj2 (GET_output_validation Samples.selectAppointments
                   Samples.selectIgnoredBaseIds Samples.selectIgnoredEventIds
                   (Some 30) true Samples.dec1 Samples.dirtyStore)
            30 (Samples.appointments Samples.dirtyStore) _ _ _ _).
  - reflexivity.
  - lia.
  - reflexivity.
  - reflexivity.
Defined.

(** The rows without an id and without an end are dropped. *)
Example dirtyStore_response :
  ev_id <$> match fst (sampleGET (Some 30) true Samples.dec1
                         Samples.dirtyStore) with
            | Ok events => events
            | _ => []
            end
  = ["abc_20251201T150000"; "den_20251201T151500"].
Proof. vm_compute. reflexivity. Qed.


End ReadWitnesses.

(** ** Overlap detection *)

Section OverlapFacts.

Import Lib Page.

Variable getTime : string -> option Z.
Variables ignoredBaseIds ignoredEventIds : gset string.

#[local] Abbreviation intersects := (intersects getTime).

(** The inner loop: what one personal event adds. *)
Lemma inner_loop p ws : forall (acc : gset string) i,
  i ∈ fold_left
        (fun overlappingIds workEvent =>
           if intersects p workEvent
           then overlappingIds ∪ {[ ev_id p ]} ∪ {[ ev_id workEvent ]}
           else overlappingIds)
        ws acc
  <-> i ∈ acc
      \/ exists w, w ∈ ws /\ intersects p w = true
                   /\ (i = ev_id p \/ i = ev_id w).
Proof.
  induction ws as [|w ws IH]; intros acc i; simpl.
  - split; [auto|]. intros [H|(w & Hw & _)]; [exact H|inversion Hw].
  - rewrite IH. destruct (intersects p w) eqn:Hpw.
    + rewrite !elem_of_union, !elem_of_singleton. split.
      * intros [[[H|H]|H]|(w' & Hw' & Hi & Hid)]; eauto 8 using list_elem_of_here.
        right. exists w'. eauto using list_elem_of_further.
      * intros [H|(w' & Hw' & Hi & Hid)]; [auto|].
        apply elem_of_cons in Hw' as [->|Hw']; [tauto|].
        right. eauto.
    + split.
      * intros [H|(w' & Hw' & Hi & Hid)]; [auto|].
        right. exists w'. eauto using list_elem_of_further.
      * intros [H|(w' & Hw' & Hi & Hid)]; [auto|].
        apply elem_of_cons in Hw' as [->|Hw']; [congruence|].
        right. eauto.
Qed.

(** The two loops. *)
Lemma outer_loop ps ws : forall (acc : gset string) i,
  i ∈ fold_left
        (fun overlappingIds personalEvent =>
           fold_left
             (fun overlappingIds workEvent =>
                if intersects personalEvent workEvent
                then overlappingIds ∪ {[ ev_id personalEvent ]}
                       ∪ {[ ev_id workEvent ]}
                else overlappingIds)
             ws overlappingIds)
        ps acc
  <-> i ∈ acc
      \/ exists p w, p ∈ ps /\ w ∈ ws /\ intersects p w = true
                     /\ (i = ev_id p \/ i = ev_id w).
Proof.
  induction ps as [|p ps IH]; intros acc i; simpl.
  - split; [auto|]. intros [H|(p & w & Hp & _)]; [exact H|inversion Hp].
  - rewrite IH, inner_loop. split.
    + intros [[H|(w & Hw & Hi & Hid)]|(p' & w & Hp' & Hw & Hi & Hid)]; auto.
      * right. exists p, w. eauto using list_elem_of_here.
      * right. exists p', w. eauto using list_elem_of_further.
    + intros [H|(p' & w & Hp' & Hw & Hi & Hid)]; [auto|].
      apply elem_of_cons in Hp' as [->|Hp']; [left; right; eauto|].
      right. exists p', w. eauto.
Qed.

(** The ids of the set: the members of the pairs of a personal and a
    work event, both kept by the filters, that intersect. *)
Lemma getOverlappingEventIds_spec events i :
  i ∈ getOverlappingEventIds getTime true ignoredBaseIds ignoredEventIds events
  <-> exists p w,
        p ∈ personalEventsOf getTime ignoredBaseIds ignoredEventIds events
        /\ w ∈ workEventsOf ignoredBaseIds ignoredEventIds events
        /\ intersects p w = true
        /\ (i = ev_id p \/ i = ev_id w).
Proof.
  unfold getOverlappingEventIds. simpl. rewrite outer_loop.
  split; [intros [H|H]; [set_solver|exact H]|auto].
Qed.

(** With detection switched off the set is empty. *)
Lemma getOverlappingEventIds_off events :
  getOverlappingEventIds getTime false ignoredBaseIds ignoredEventIds events = ∅.
Proof. reflexivity. Qed.

Lemma intersects_times p w :
  intersects p w = true
  <-> exists ps pe ws we,
        getTime (ev_start_time p) = Some ps /\ getTime (ev_end_time p) = Some pe
        /\ getTime (ev_start_time w) = Some ws
        /\ getTime (ev_end_time w) = Some we
        /\ ps < we /\ pe > ws.
Proof.
  unfold Page.intersects, timeLt.
  destruct (getTime (ev_start_time p)) as [ps|],
           (getTime (ev_end_time p)) as [pe|],
           (getTime (ev_start_time w)) as [ws|],
           (getTime (ev_end_time w)) as [we|]; simpl;
    try (split; [discriminate|intros (?&?&?&?&?&?&?&?&?&?); discriminate]);
    try (rewrite andb_false_r; split;
         [discriminate|intros (?&?&?&?&?&?&?&?&?&?); discriminate]).
  rewrite andb_true_iff, !Z.ltb_lt. split.
  - intros [? ?]. exists ps, pe, ws, we. repeat split; auto; lia.
  - intros (?&?&?&?&[= <-]&[= <-]&[= <-]&[= <-]&?&?). lia.
Qed.

Lemma isPersonal_not_isWork e : isPersonal e = true -> isWork e = false.
Proof.
  unfold isPersonal, isWork. intros H. apply String.eqb_eq in H. now rewrite H.
Qed.

(** C5. Overlap semantics: with detection on and no event of the list
    ignored, an id is in the overlap set exactly when it is the id of a
    member of a pair (p, w) where p is a personal event of the list that
    is no all-day or 24-hour [Free] or [[Free]] placeholder, w is a work
    event of the list, and p.start < w.end and p.end > w.start; a pair
    whose intervals touch at an endpoint does not pass that test; and a
    list of events of one category gives the empty set. *)
Theorem C5_overlap_semantics events :
  (forall e, e ∈ events ->
             isEventIgnored ignoredBaseIds ignoredEventIds e = false) ->
  (forall i,
     i ∈ getOverlappingEventIds getTime true ignoredBaseIds ignoredEventIds
           events
     <-> exists p w ps pe ws we,
           p ∈ events /\ isPersonal p = true
           /\ isAllDayOrMultiDayFree getTime p = false
           /\ w ∈ events /\ isWork w = true
           /\ getTime (ev_start_time p) = Some ps
           /\ getTime (ev_end_time p) = Some pe
           /\ getTime (ev_start_time w) = Some ws
           /\ getTime (ev_end_time w) = Some we
           /\ ps < we /\ pe > ws
           /\ (i = ev_id p \/ i = ev_id w))
  /\ (forall p w,
        (getTime (ev_end_time p) = getTime (ev_start_time w)
         \/ getTime (ev_start_time p) = getTime (ev_end_time w)) ->
        intersects p w = false)
  /\ ((forall e, e ∈ events -> isPersonal e = true) \/
      (forall e, e ∈ events -> isWork e = true) ->
      getOverlappingEventIds getTime true ignoredBaseIds ignoredEventIds events
      = ∅).
Proof.
  intros Hign.
  assert (forall i,
     i ∈ getOverlappingEventIds getTime true ignoredBaseIds ignoredEventIds
           events
     <-> exists p w,
           p ∈ events /\ isPersonal p = true
           /\ isAllDayOrMultiDayFree getTime p = false
           /\ w ∈ events /\ isWork w = true
           /\ intersects p w = true
           /\ (i = ev_id p \/ i = ev_id w)) as Hspec.
  { intros i. rewrite getOverlappingEventIds_spec.
    unfold personalEventsOf, workEventsOf. split.
    - intros (p & w & Hp & Hw & Hi & Hid).
      apply list_elem_of_In, filter_In in Hp as [Hp Hfp].
      apply list_elem_of_In, filter_In in Hw as [Hw Hfw].
      apply list_elem_of_In in Hp. apply list_elem_of_In in Hw.
      apply andb_true_iff in Hfp as [Hfp Hfree].
      apply andb_true_iff in Hfp as [Hpers _].
      apply andb_true_iff in Hfw as [Hwork _].
      apply negb_true_iff in Hfree.
      exists p, w. auto 10.
    - intros (p & w & Hp & Hpers & Hfree & Hw & Hwork & Hi & Hid).
      exists p, w. split; [|split]; [| |auto].
      + apply list_elem_of_In, filter_In. split; [now apply list_elem_of_In|].
        now rewrite Hpers, (Hign p Hp), Hfree.
      + apply list_elem_of_In, filter_In. split; [now apply list_elem_of_In|].
        now rewrite Hwork, (Hign w Hw). }
  split; [|split].
  - intros i. rewrite Hspec. split.
    + intros (p & w & Hp & Hpers & Hfree & Hw & Hwork & Hi & Hid).
      apply intersects_times in Hi as (ps & pe & ws & we & H1 & H2 & H3 & H4 & H5 & H6).
      exists p, w, ps, pe, ws, we. auto 15.
    + intros (p & w & ps & pe & ws & we & Hp & Hpers & Hfree & Hw & Hwork
              & H1 & H2 & H3 & H4 & H5 & H6 & Hid).
      exists p, w. repeat (split; [assumption|]). split; [|exact Hid].
      apply intersects_times. exists ps, pe, ws, we. auto 10.
  - intros p w Htouch. unfold Page.intersects, timeLt.
    destruct Htouch as [Ht|Ht].
    + rewrite Ht. destruct (getTime (ev_start_time w)) as [t|];
        [|apply andb_false_r].
      rewrite Z.ltb_irrefl. apply andb_false_r.
    + rewrite Ht. destruct (getTime (ev_end_time w)) as [t|]; [|reflexivity].
      now rewrite Z.ltb_irrefl.
  - intros Hcat. apply set_eq. intros i. rewrite Hspec. split; [|set_solver].
    intros (p & w & Hp & Hpers & _ & Hw & Hwork & _).
    destruct Hcat as [Hall|Hall].
    + specialize (Hall w Hw). apply isPersonal_not_isWork in Hall. congruence.
    + specialize (Hall p Hp). apply isPersonal_not_isWork in Hpers. congruence.
Qed.

End OverlapFacts.

Section OverlapSamples.

Import Lib Page.

(** The personal event from 10:00 to 11:00 against the work events from
    11:00 to 12:00 and from 09:00 to 10:00: nothing is flagged. *)
Example touching_not_flagged :
  getOverlappingEventIds Samples.getTime true ∅ ∅
    [Samples.personal10; Samples.work11; Samples.work9] = ∅.
Proof. vm_compute. reflexivity. Qed.

(** Against the work event from 10:30 to 11:30: both ids. *)
Example overlapping_flagged :
  getOverlappingEventIds Samples.getTime true ∅ ∅
    [Samples.personal10; Samples.work11; Samples.work1030]
  = {[ "p"; "w1030" ]}.
Proof. vm_compute. reflexivity. Qed.

Lemma C5_overlap_semantics_witness :
    "w1030" ∈ getOverlappingEventIds Samples.getTime true ∅ ∅
          [Samples.personal10; Samples.work11; Samples.work1030]
    <-> exists p w ps pe ws we,
          p ∈ [Samples.personal10; Samples.work11; Samples.work1030]
          /\ isPersonal p = true
          /\ isAllDayOrMultiDayFree Samples.getTime p = false
          /\ w ∈ [Samples.personal10; Samples.work11; Samples.work1030]
          /\ isWork w = true
          /\ Samples.getTime (ev_start_time p) = Some ps
          /\ Samples.getTime (ev_end_time p) = Some pe
          /\ Samples.getTime (ev_start_time w) = Some ws
          /\ Samples.getTime (ev_end_time w) = Some we
          /\ ps < we /\ pe > ws
          /\ ("w1030" = ev_id p \/ "w1030" = ev_id w).
Proof.
  refine (proj1 (C5_overlap_semantics Samples.getTime ∅ ∅
                   [Samples.personal10; Samples.work11; Samples.work1030] _)
            "w1030").
  intros e He. unfold isEventIgnored.
  destruct (decide (ev_id e ∈ ∅)) as [Hin|_]; [now apply not_elem_of_empty in Hin|].
  destruct (decide (getBaseIdFromEventId (ev_id e) ∈ ∅)) as [Hin|_];
    [now apply not_elem_of_empty in Hin|reflexivity].
Defined.

End OverlapSamples.

(** ** Masking and the overlap set *)

Section MaskingFacts.

Import Lib Events Page.

#[local] Abbreviation sampleGET := (GET Samples.selectAppointments
                           Samples.selectIgnoredBaseIds
                           Samples.selectIgnoredEventIds).

(** C6. Masking independence fails on the code: the handler masks the
    personal events before the page computes the overlap set. A
    whole-day personal event with the subject [Free] over a work
    meeting is left out of the detection when the subjects are
    revealed, and flagged together with the meeting when they are
    masked, its subject then being [[Personal Event]]. *)
Theorem C6_masking_changes_overlap :
  overlapOfResponse Samples.getTime ∅ ∅
    (fst (sampleGET (Some 30) true Samples.dec1 Samples.placeholderStore))
  = ∅
  /\ overlapOfResponse Samples.getTime ∅ ∅
       (fst (sampleGET (Some 30) false Samples.dec1 Samples.placeholderStore))
     = {[ "free_20251201T000000"; "abc_20251201T150000" ]}.
Proof. split; vm_compute; reflexivity. Qed.

End MaskingFacts.

(** ** Column layout *)

Section LayoutFacts.

Import Lib Page.

#[local] Arguments overlaps : simpl never.
#[local] Arguments setColumn : simpl never.
#[local] Arguments setTotalColumns : simpl never.

Lemma overlaps_sym a b : overlaps a b = overlaps b a.
Proof. unfold overlaps. apply andb_comm. Qed.

Lemma overlaps_setColumn_r c s g : overlaps s (setColumn c g) = overlaps s g.
Proof. reflexivity. Qed.

Lemma column_setColumn c s : column (setColumn c s) = c.
Proof. reflexivity. Qed.

(** Three sorted slots that overlap pairwise: one group, the columns 0,
    1 and 2 in order. *)
Lemma layoutOf_three x y z :
  overlaps y x = true -> overlaps z x = true -> overlaps z y = true ->
  layoutOf [x; y; z]
  = Some [setTotalColumns 3 (setColumn 0 x);
          setTotalColumns 3 (setColumn 1 y);
          setTotalColumns 3 (setColumn 2 z)].
Proof.
  intros Hyx Hzx Hzy. unfold layoutOf, groupSome.
  repeat (simpl; rewrite ?overlaps_setColumn_r, ?column_setColumn,
                   ?Hyx, ?Hzx, ?Hzy).
  unfold writeTotals, maxCol.
  repeat (simpl; rewrite ?column_setColumn).
  reflexivity.
Qed.

(** Two sorted slots that do not overlap: two groups of one column. *)
Lemma layoutOf_two x y :
  overlaps y x = false ->
  layoutOf [x; y]
  = Some [setTotalColumns 1 (setColumn 0 x);
          setTotalColumns 1 (setColumn 0 y)].
Proof.
  intros Hyx. unfold layoutOf, groupSome.
  repeat (simpl; rewrite ?overlaps_setColumn_r, ?column_setColumn, ?Hyx).
  unfold writeTotals, maxCol.
  repeat (simpl; rewrite ?column_setColumn).
  reflexivity.
Qed.

Ltac perm3 :=
  solve [ reflexivity
        | apply perm_swap
        | apply perm_skip, perm_swap
        | eapply perm_trans; [apply perm_swap|apply perm_skip, perm_swap]
        | eapply perm_trans; [apply perm_skip, perm_swap|apply perm_swap]
        | eapply perm_trans; [apply perm_swap|];
          eapply perm_trans; [apply perm_skip, perm_swap|apply perm_swap] ].

Variables getHours getMinutes : string -> Z.

#[local] Abbreviation toSlot := (toSlot getHours getMinutes).
#[local] Abbreviation layoutSlots := (layoutSlots getHours getMinutes).

(** C8. Layout column count: three events of a day whose hour ranges
    intersect pairwise get the columns 0, 1 and 2, one each, and 3 as
    the number of columns; two events whose hour ranges do not intersect
    get the column 0 and 1 as the number of columns. *)
Theorem C8_layout_column_count :
  (forall a b c,
     overlaps (toSlot a) (toSlot b) = true ->
     overlaps (toSlot a) (toSlot c) = true ->
     overlaps (toSlot b) (toSlot c) = true ->
     exists slots ca cb cc,
       layoutSlots [a; b; c] = Some slots
       /\ Permutation (placement <$> slots) [(a, ca, 3%nat); (b, cb, 3%nat); (c, cc, 3%nat)]
       /\ Permutation [ca; cb; cc] [0%nat; 1%nat; 2%nat])
  /\ (forall a b,
        overlaps (toSlot a) (toSlot b) = false ->
        exists slots,
          layoutSlots [a; b] = Some slots
          /\ Permutation (placement <$> slots) [(a, 0%nat, 1%nat); (b, 0%nat, 1%nat)]).
Proof.
  split.
  - intros a b c Hab Hac Hbc.
    pose proof Hab as Hba. pose proof Hac as Hca. pose proof Hbc as Hcb.
    rewrite overlaps_sym in Hba, Hca, Hcb.
    unfold Page.layoutSlots, sortSlots.
    cbn [fmap list_fmap fold_left insertSorted].
    destruct (sortsBefore (toSlot b) (toSlot a));
      cbn [insertSorted];
      repeat match goal with
             | |- context [if sortsBefore ?x ?y then _ else _] =>
                 destruct (sortsBefore x y); cbn [insertSorted]
             end;
      rewrite layoutOf_three by assumption;
      eexists; eexists; eexists; eexists;
      (split; [reflexivity|]);
      (split; [cbv [placement fmap list_fmap]; perm3|perm3]).
  - intros a b Hab.
    pose proof Hab as Hba. rewrite overlaps_sym in Hba.
    unfold Page.layoutSlots, sortSlots.
    cbn [fmap list_fmap fold_left insertSorted].
    destruct (sortsBefore (toSlot b) (toSlot a));
      rewrite layoutOf_two by assumption;
      eexists; (split; [reflexivity|]);
      cbv [placement fmap list_fmap]; perm3.
Qed.

End LayoutFacts.

Section LayoutSamples.

Import Lib Page.

Lemma C8_layout_column_count_witness :
  exists slots ca cb cc,
    layoutSlots Samples.utcHours Samples.utcMinutes
      [Samples.personal10; Samples.work1030; Samples.work1045] = Some slots
    /\ Permutation (placement <$> slots)
         [(Samples.personal10, ca, 3%nat); (Samples.work1030, cb, 3%nat);
          (Samples.work1045, cc, 3%nat)]
    /\ Permutation [ca; cb; cc] [0%nat; 1%nat; 2%nat].
Proof.
  refine (proj1 (C8_layout_column_count Samples.utcHours Samples.utcMinutes)
            Samples.personal10 Samples.work1030 Samples.work1045 _ _ _);
    vm_compute; reflexivity.
Defined.

(** The events from 10:00, 10:30 and 10:45 side by side; the ones from
    09:00 and 11:30 alone. *)
Example layout_of_a_morning :
  (fun s => (ev_id (event s), column s, totalColumns s))
    <$> default [] (layoutSlots Samples.utcHours Samples.utcMinutes
                      [Samples.work1045; Samples.work9; Samples.personal10;
                       Samples.work1030])
  = [("w9", 0%nat, 1%nat); ("p", 0%nat, 3%nat); ("w1030", 1%nat, 3%nat);
     ("w1045", 2%nat, 3%nat)].
Proof. vm_compute. reflexivity. Qed.

End LayoutSamples.

(** ** More on the ids *)

Section IdFacts.

Import JsString JsDate.

Lemma join_snoc sep parts x :
  parts <> [] -> join sep (parts ++ [x]) = join sep parts +:+ String sep x.
Proof.
  induction parts as [|p ps IH]; [congruence|]. intros _.
  destruct ps as [|q qs]; [reflexivity|].
  change ((p :: q :: qs) ++ [x]) with (p :: (q :: qs) ++ [x]).
  change (join sep (p :: (q :: qs) ++ [x]))
    with (p +:+ String sep (join sep ((q :: qs) ++ [x]))).
  rewrite IH by discriminate. rewrite join_cons.
  rewrite app_assoc_string. reflexivity.
Qed.

(** The parts of a string with a separator: the ones in front of the
    last, and the last. *)
Lemma split_last sep s :
  includesChar sep s = true ->
  sliceInit (split sep s) <> []
  /\ split sep s = sliceInit (split sep s) ++ [lastPart (split sep s)]
  /\ s = join sep (sliceInit (split sep s))
           +:+ String sep (lastPart (split sep s)).
Proof.
  intros Hinc.
  assert (exists p q qs, split sep s = p :: q :: qs) as (p & q & qs & Hs).
  { pose proof (split_not_nil sep s) as Hnil.
    destruct (split sep s) as [|p [|q qs]] eqn:Hs; [contradiction| |eauto].
    exfalso. pose proof (join_split sep s) as Hj. rewrite Hs in Hj.
    simpl in Hj. subst p. clear Hnil.
    revert Hinc Hs. induction s as [|c r IH]; simpl; [discriminate|].
    destruct (Ascii.eqb c sep); [discriminate|]. simpl.
    pose proof (split_not_nil sep r) as Hnil.
    destruct (split sep r) as [|p [|q qs]]; try contradiction; try discriminate.
    intros Hinc [= ->]. now apply IH. }
  assert (split sep s <> []) as Hne by (rewrite Hs; discriminate).
  pose proof (app_removelast_last EmptyString Hne) as Hdec.
  fold (sliceInit (split sep s)) (lastPart (split sep s)) in Hdec.
  assert (sliceInit (split sep s) <> []) as Hinit.
  { unfold sliceInit. rewrite Hs. simpl. destruct qs; discriminate. }
  split; [exact Hinit|]. split; [exact Hdec|].
  rewrite <- (join_snoc sep _ _ Hinit), <- Hdec. symmetry. apply join_split.
Qed.

Lemma append_neq a c r : a <> a +:+ String c r.
Proof.
  intros H. apply (f_equal String.length) in H.
  rewrite length_app_string in H. simpl in H. lia.
Qed.

(** X1. The page shows an event as recurring exactly when recovering
    its base id changes the id. *)
Theorem isEventRecurring_iff_base_differs eventId :
  Page.isEventRecurring eventId = true
  <-> Page.getBaseIdFromEventId eventId <> eventId.
Proof.
  unfold Page.isEventRecurring, Page.getBaseIdFromEventId.
  destruct (includesChar "_" eventId) eqn:Hinc; [|split; congruence].
  destruct (split_last _ _ Hinc) as (_ & _ & Heq).
  destruct (Page.isFullTimestamp _); [|split; congruence].
  split; [|reflexivity]. intros _. rewrite Heq at 2. apply append_neq.
Qed.

(** X2. Recovering the base id only ever strips one trailing segment
    that is a timestamp: the result is the id itself, or the id is the
    result, an underscore and a last segment that passes the timestamp
    test of that copy of the function. *)
Theorem getBaseIdFromEventId_strips eventId :
  (Events.getBaseIdFromEventId eventId = eventId
   \/ exists ts,
        Events.isTimestamp ts = true
        /\ eventId = Events.getBaseIdFromEventId eventId +:+ "_" +:+ ts)
  /\ (Page.getBaseIdFromEventId eventId = eventId
      \/ exists ts,
           Page.isFullTimestamp ts = true
           /\ eventId = Page.getBaseIdFromEventId eventId +:+ "_" +:+ ts).
Proof.
  split.
  - unfold Events.getBaseIdFromEventId.
    destruct (length (split "_" eventId) <=? 1)%nat eqn:Hlen; [auto|].
    destruct (Events.isTimestamp _) eqn:Hts; [|auto].
    right. exists (lastPart (split "_" eventId)). split; [exact Hts|].
    assert (includesChar "_" eventId = true) as Hinc.
    { destruct (includesChar "_" eventId) eqn:Hinc; [reflexivity|].
      rewrite (split_without _ _ Hinc) in Hlen. discriminate. }
    now destruct (split_last _ _ Hinc) as (_ & _ & Heq).
  - unfold Page.getBaseIdFromEventId.
    destruct (includesChar "_" eventId) eqn:Hinc; [|auto].
    destruct (Page.isFullTimestamp _) eqn:Hts; [|auto].
    right. exists (lastPart (split "_" eventId)). split; [exact Hts|].
    now destruct (split_last _ _ Hinc) as (_ & _ & Heq).
Qed.

End IdFacts.

Section IdAgreement.

Import JsString JsDate Sync.

Lemma get_None n : forall s,
  String.get n s = None <-> (String.length s <= n)%nat.
Proof.
  induction n as [|n IH]; intros [|c r]; simpl; try (split; [lia|reflexivity]).
  - split; [discriminate|lia].
  - rewrite IH. lia.
Qed.

Lemma substring_all n : forall s,
  (String.length s <= n)%nat -> substring 0 n s = s.
Proof.
  induction n as [|n IH]; intros [|c r]; simpl; try reflexivity.
  - lia.
  - intros H. rewrite IH by lia. reflexivity.
Qed.

(** The handler accepts what the page accepts, and a segment of eight
    digits besides. *)
Lemma isTimestamp_isFullTimestamp s :
  Events.isTimestamp s
  = Page.isFullTimestamp s || (allDigits s && (String.length s =? 8)%nat).
Proof.
  unfold Events.isTimestamp, Page.isFullTimestamp.
  destruct (String.get 8 s) as [c|] eqn:Hget.
  - assert (8 < String.length s)%nat as Hlen.
    { destruct (Nat.le_gt_cases (String.length s) 8) as [H|H]; [|exact H].
      apply get_None in H. congruence. }
    replace (8 <=? String.length s)%nat with true
      by (symmetry; apply Nat.leb_le; lia).
    replace (String.length s =? 8)%nat with false
      by (symmetry; apply Nat.eqb_neq; lia).
    rewrite andb_false_r, orb_false_r.
    destruct (allDigits (substring 0 8 s)), (Ascii.eqb c "T"),
      (allDigits (substring 9 6 s)), (String.length s =? 15)%nat; reflexivity.
  - apply get_None in Hget.
    replace (String.length s =? 15)%nat with false
      by (symmetry; apply Nat.eqb_neq; lia).
    rewrite (substring_all 8 s Hget).
    destruct (Nat.eqb_spec (String.length s) 8) as [E|Hne].
    + rewrite E. destruct (allDigits s); reflexivity.
    + replace (8 <=? String.length s)%nat with false
        by (symmetry; apply Nat.leb_gt; lia).
      destruct (allDigits s); reflexivity.
Qed.

(** X3. The two copies of the base-id recovery differ exactly on the
    ids whose last segment is a date of eight digits: on such an id
    the page keeps the id whole and the handler strips the segment; on
    every other id the two copies agree. *)
Theorem getBaseIdFromEventId_copies eventId :
  let last := lastPart (split "_" eventId) in
  if includesChar "_" eventId && allDigits last
     && (String.length last =? 8)%nat
  then Page.getBaseIdFromEventId eventId = eventId
       /\ eventId = Events.getBaseIdFromEventId eventId +:+ "_" +:+ last
       /\ Events.getBaseIdFromEventId eventId <> eventId
  else Page.getBaseIdFromEventId eventId
       = Events.getBaseIdFromEventId eventId.
Proof.
  cbv zeta.
  unfold Page.getBaseIdFromEventId, Events.getBaseIdFromEventId.
  destruct (includesChar "_" eventId) eqn:Hinc.
  - destruct (split_last _ _ Hinc) as (Hinit & Hdec & Heq).
    assert ((length (split "_" eventId) <=? 1)%nat = false) as ->.
    { rewrite Hdec, length_app. simpl. apply Nat.leb_gt.
      destruct (sliceInit (split "_" eventId)); [contradiction|simpl; lia]. }
    rewrite isTimestamp_isFullTimestamp. cbn [andb].
    destruct (allDigits _ && (_ =? 8)%nat) eqn:Hd.
    + apply andb_true_iff in Hd as [Hd Hl]. apply Nat.eqb_eq in Hl.
      assert (Page.isFullTimestamp (lastPart (split "_" eventId)) = false)
        as ->.
      { unfold Page.isFullTimestamp. now rewrite Hl. }
      cbn [orb].
      change ("_" +:+ lastPart (split "_" eventId))
        with (String "_" (lastPart (split "_" eventId))).
      split; [reflexivity|]. split; [exact Heq|].
      intros H. rewrite Heq in H at 2. now apply append_neq in H.
    + rewrite orb_false_r.
      destruct (Page.isFullTimestamp _); reflexivity.
  - cbn [andb]. rewrite (split_without _ _ Hinc). reflexivity.
Qed.

(** An id with a date of eight digits at its end: the two copies
    differ. *)
Example getBaseIdFromEventId_date_only :
  Events.getBaseIdFromEventId "series_20251204" = "series"
  /\ Page.getBaseIdFromEventId "series_20251204" = "series_20251204".
Proof. split; reflexivity. Qed.

Section SyncedIds.

Variable toLowerCase : string -> string.

(** The id of a synced row in terms of its start. *)
Lemma synced_row_id clock event rangeStart rangeEnd source rows r :
  Ical.uid event <> EmptyString ->
  expandEvent toLowerCase clock event rangeStart rangeEnd source
  = Returns rows ->
  r ∈ rows ->
  String.length (start_time r) = 24%nat ->
  exists start,
    start_time r = toISOString start
    /\ id r = Ical.uid event +:+ "_" +:+ compactTimestamp start.
Proof.
  intros Huid Hrows Hr Hlen.
  destruct (expandEvent_emitted _ _ _ _ _ _ _ _ Hrows Hr)
    as (c & start & Hc & _).
  destruct (createEventRecord_id (clock c) event start source r Huid Hc)
    as (Hid & Hst).
  rewrite Hst in Hlen. apply toISOString_length_24 in Hlen.
  unfold dateStrOf in Hid. rewrite (dateStr_compact _ Hlen) in Hid.
  eauto.
Qed.

(** X4. The page takes every row that the sync writes for an event with
    a UID for an occurrence of a recurring series, the row of a single
    event included (start rendered with a four-digit year). *)
Theorem synced_rows_look_recurring
    clock event rangeStart rangeEnd source rows r :
  Ical.uid event <> EmptyString ->
  expandEvent toLowerCase clock event rangeStart rangeEnd source
  = Returns rows ->
  r ∈ rows ->
  String.length (start_time r) = 24%nat ->
  Page.isEventRecurring (id r) = true.
Proof.
  intros Huid Hrows Hr Hlen.
  destruct (synced_row_id clock event rangeStart rangeEnd source rows r
              Huid Hrows Hr Hlen) as (start & _ & Hid).
  rewrite Hid. unfold Page.isEventRecurring.
  assert (includesChar "_" (compactTimestamp start) = false) as Hno
    by (apply compactTimestamp_without; [reflexivity|discriminate]).
  assert (includesChar "_" (Ical.uid event +:+ "_" +:+ compactTimestamp start)
          = true) as ->.
  { rewrite includesChar_app.
    change ("_" +:+ compactTimestamp start)
      with (String "_" (compactTimestamp start)).
    simpl. apply orb_true_r. }
  rewrite (split_suffix _ _ Hno), lastPart_snoc.
  apply compactTimestamp_isFullTimestamp.
Qed.

End SyncedIds.

Lemma synced_rows_look_recurring_witness :
  Page.isEventRecurring (id Samples.singleRow) = true.
Proof.
  refine (synced_rows_look_recurring Samples.asciiToLowerCase Samples.clockA
            Samples.singleEvent Samples.rangeStart Samples.rangeEnd Ics
            [Samples.singleRow] Samples.singleRow _ _ _ _).
  - discriminate.
  - vm_compute. reflexivity.
  - apply list_elem_of_here.
  - reflexivity.
Defined.

End IdAgreement.
(** ** Deduplication of a batch *)

Section DedupeFacts.

Import JsString Sync.

Lemma nonEmpty_true s : nonEmpty s = true <-> s <> EmptyString.
Proof. destruct s; simpl; split; congruence. Qed.

Lemma mapSet_fresh k v m : k ∉ m.*1 -> mapSet k v m = m ++ [(k, v)].
Proof.
  induction m as [|[k' v'] m IH]; simpl; [reflexivity|].
  intros Hk. apply not_elem_of_cons in Hk as [Hne Hk].
  destruct (String.eqb_spec k k'); [contradiction|]. now rewrite IH.
Qed.

Lemma mapSet_keys k v m :
  (mapSet k v m).*1 = if decide (k ∈ m.*1) then m.*1 else m.*1 ++ [k].
Proof.
  induction m as [|[k' v'] m IH].
  - cbn [mapSet fmap list_fmap fst]. case_decide as H; [inversion H|reflexivity].
  - cbn [mapSet]. destruct (String.eqb_spec k k') as [->|Hne].
    + clear IH. cbn [fmap list_fmap fst]. case_decide as H; [reflexivity|].
      exfalso. apply H, list_elem_of_here.
    + cbn [fmap list_fmap fst] in *. rewrite IH.
      repeat case_decide; try reflexivity.
      * exfalso. match goal with H : _ ∉ _ :: _ |- _ => apply H end.
        now apply list_elem_of_further.
      * exfalso.
        match goal with H : _ ∈ _ :: _ |- _ =>
          apply elem_of_cons in H as [?|?]; contradiction end.
Qed.

Lemma mapSet_NoDup k v m : NoDup m.*1 -> NoDup (mapSet k v m).*1.
Proof.
  intros Hnd. rewrite mapSet_keys. destruct (decide (k ∈ m.*1)); [exact Hnd|].
  apply NoDup_app. split; [exact Hnd|]. split.
  - intros x Hx Hx'. apply list_elem_of_singleton in Hx' as ->. contradiction.
  - apply NoDup_singleton.
Qed.

Lemma mapSet_elem k v m k' v' :
  NoDup m.*1 ->
  (k', v') ∈ mapSet k v m
  <-> (k' = k /\ v' = v) \/ (k' <> k /\ (k', v') ∈ m).
Proof.
  induction m as [|[k0 v0] m IH]; simpl; intros Hnd.
  - rewrite list_elem_of_singleton. split.
    + intros [= -> ->]. auto.
    + intros [[-> ->]|[_ H]]; [reflexivity|inversion H].
  - apply NoDup_cons in Hnd as [Hk0 Hnd].
    destruct (String.eqb_spec k k0) as [->|Hne].
    + rewrite !elem_of_cons. split.
      * intros [[= -> ->]|H]; [auto|].
        right. split; [|auto]. intros ->. apply Hk0.
        apply list_elem_of_fmap. exists (k0, v'). auto.
      * intros [[-> ->]|[Hne [[= -> ->]|H]]]; auto. contradiction.
    + rewrite !elem_of_cons, (IH Hnd). split.
      * intros [[= -> ->]|[[-> ->]|[Hne' H]]]; auto.
      * intros [[-> ->]|[Hne' [[= -> ->]|H]]]; auto.
Qed.

Lemma dedupe_dedupeFrom l : dedupe l = (dedupeFrom [] l).*2.
Proof. reflexivity. Qed.

Lemma dedupeFrom_cons m a l :
  dedupeFrom m (a :: l)
  = dedupeFrom (if nonEmpty (id a) then mapSet (id a) a m else m) l.
Proof. reflexivity. Qed.

Lemma dedupeFrom_NoDup l : forall m,
  NoDup m.*1 -> NoDup (dedupeFrom m l).*1.
Proof.
  induction l as [|a l IH]; intros m Hnd; [exact Hnd|].
  rewrite dedupeFrom_cons. apply IH.
  destruct (nonEmpty (id a)); [now apply mapSet_NoDup|exact Hnd].
Qed.

Lemma lastWithId_cons v a l :
  lastWithId v (a :: l)
  <-> (v = a /\ forall x, x ∈ l -> id x <> id v) \/ lastWithId v l.
Proof.
  unfold lastWithId. split.
  - intros (l1 & l2 & Heq & Hl2). destruct l1 as [|b l1]; simpl in Heq.
    + injection Heq as <- <-. auto.
    + injection Heq as <- ->. right. eauto.
  - intros [[-> H]|(l1 & l2 & -> & Hl2)].
    + exists [], l. auto.
    + exists (a :: l1), l2. auto.
Qed.

Lemma dedupeFrom_elem l : forall m k v,
  NoDup m.*1 ->
  (k, v) ∈ dedupeFrom m l
  <-> (k = id v /\ nonEmpty k = true /\ lastWithId v l)
      \/ ((k, v) ∈ m
          /\ forall x, x ∈ l -> nonEmpty (id x) = true -> id x <> k).
Proof.
  induction l as [|a l IH]; intros m k v Hnd.
  - cbn [dedupeFrom fold_left]. split.
    + intros H. right. split; [exact H|]. intros x Hx. inversion Hx.
    + intros [(_ & _ & l1 & l2 & Heq & _)|[H _]]; [|exact H].
      destruct l1; discriminate.
  - rewrite dedupeFrom_cons, lastWithId_cons.
    destruct (nonEmpty (id a)) eqn:Hne.
    + rewrite IH by now apply mapSet_NoDup.
      rewrite (mapSet_elem _ _ _ _ _ Hnd). split.
      * intros [(Hk & Hn & Hlast)|[[[-> ->]|[Hka Hin]] Hskip]].
        -- left. auto.
        -- left. split; [reflexivity|]. split; [exact Hne|]. left.
           split; [reflexivity|]. intros x Hx Heq.
           apply (Hskip x Hx); [|exact Heq]. now rewrite Heq.
        -- right. split; [exact Hin|]. intros x Hx Hnx.
           apply elem_of_cons in Hx as [->|Hx]; [congruence|auto].
      * intros [(Hk & Hn & [[-> Hrest]|Hlast])|[Hin Hskip]].
        -- right. split; [left; auto|]. intros x Hx _. rewrite Hk. auto.
        -- left. auto.
        -- right. split.
           ++ right. split; [|exact Hin]. intros ->.
              apply (Hskip a); [apply list_elem_of_here|exact Hne|reflexivity].
           ++ intros x Hx. apply Hskip. now apply list_elem_of_further.
    + rewrite (IH m k v Hnd). split.
      * intros [(Hk & Hn & Hlast)|[Hin Hskip]]; [left; auto|].
        right. split; [exact Hin|]. intros x Hx Hnx.
        apply elem_of_cons in Hx as [->|Hx]; [congruence|auto].
      * intros [(Hk & Hn & [[-> Hrest]|Hlast])|[Hin Hskip]].
        -- congruence.
        -- left. auto.
        -- right. split; [exact Hin|]. intros x Hx.
           apply Hskip. now apply list_elem_of_further.
Qed.

Lemma values_ids (m : list (string * Appointment)) :
  (forall k v, (k, v) ∈ m -> k = id v) -> id <$> m.*2 = m.*1.
Proof.
  induction m as [|[k v] m IH]; intros H; [reflexivity|].
  cbn [fmap list_fmap fst snd]. f_equal.
  - symmetry. apply H, list_elem_of_here.
  - apply IH. intros k' v' Hin. apply H. now apply list_elem_of_further.
Qed.

(** X5. Last writer wins: a row is in the deduplicated batch exactly
    when its id is not empty and it is the last row of the batch with
    that id. *)
Theorem dedupe_last_write_wins l r :
  r ∈ dedupe l
  <-> id r <> EmptyString
      /\ exists l1 l2, l = l1 ++ r :: l2 /\ forall x, x ∈ l2 -> id x <> id r.
Proof.
  rewrite dedupe_dedupeFrom, list_elem_of_fmap. split.
  - intros ([k v] & -> & Hin).
    apply dedupeFrom_elem in Hin as [(Hk & Hn & Hlast)|[Hin _]];
      [|inversion Hin|apply NoDup_nil_2].
    simpl. subst k. apply nonEmpty_true in Hn. auto.
  - intros (Hne & Hlast). exists (id r, r). split; [reflexivity|].
    apply dedupeFrom_elem; [apply NoDup_nil_2|]. left.
    split; [reflexivity|]. split; [now apply nonEmpty_true|exact Hlast].
Qed.

(** X6. The deduplicated batch has no two rows with the same id. *)
Theorem dedupe_NoDup l : NoDup (id <$> dedupe l).
Proof.
  rewrite dedupe_dedupeFrom, values_ids.
  - apply dedupeFrom_NoDup, NoDup_nil_2.
  - intros k v Hin.
    apply dedupeFrom_elem in Hin as [(Hk & _)|[Hin _]];
      [exact Hk|inversion Hin|apply NoDup_nil_2].
Qed.

Lemma dedupeFrom_distinct l : forall m,
  NoDup (m.*1 ++ (id <$> l)) ->
  (forall x, x ∈ l -> id x <> EmptyString) ->
  dedupeFrom m l = m ++ ((fun r => (id r, r)) <$> l).
Proof.
  induction l as [|a l IH]; intros m Hnd Hne.
  - cbn [dedupeFrom fold_left fmap list_fmap]. now rewrite app_nil_r.
  - rewrite dedupeFrom_cons.
    assert (nonEmpty (id a) = true) as ->
      by (apply nonEmpty_true, Hne, list_elem_of_here).
    assert (id a ∉ m.*1) as Hfresh.
    { apply NoDup_app in Hnd as (_ & Hdisj & _). intros Hin.
      apply (Hdisj _ Hin). apply list_elem_of_here. }
    rewrite (mapSet_fresh _ _ _ Hfresh), IH.
    + rewrite <- app_assoc. reflexivity.
    + rewrite fmap_app. cbn [fmap list_fmap fst].
      rewrite <- app_assoc. exact Hnd.
    + intros x Hx. apply Hne. now apply list_elem_of_further.
Qed.

(** X7. A batch whose ids are distinct and not empty is left as it is,
    in its order. *)
Theorem dedupe_distinct l :
  NoDup (id <$> l) ->
  (forall x, x ∈ l -> id x <> EmptyString) ->
  dedupe l = l.
Proof.
  intros Hnd Hne. rewrite dedupe_dedupeFrom, dedupeFrom_distinct; auto.
  cbn [app]. rewrite <- list_fmap_compose.
  clear. induction l as [|a l IH]; [reflexivity|].
  cbn [fmap list_fmap]. now rewrite IH at 1.
Qed.

Lemma dedupe_distinct_witness :
  dedupe [Samples.singleRow; Samples.strayRow]
  = [Samples.singleRow; Samples.strayRow].
Proof.
  apply dedupe_distinct.
  - apply (bool_decide_unpack _). vm_compute. exact I.
  - intros x Hx.
    apply elem_of_cons in Hx as [->|Hx];
      [discriminate|apply list_elem_of_singleton in Hx as ->; discriminate].
Defined.

End DedupeFacts.

(** ** More on the expansion *)

Section ExpandExtras.

Import JsString JsNumber JsDate Sync.

#[local] Arguments createEventRecord : simpl never.
#[local] Arguments pushIf : simpl never.

Variable toLowerCase : string -> string.
Variable clock : nat -> Z.
Variable event : Ical.Event.
Variables rangeStart rangeEnd : Z.
Variable source : FeedSource.

#[local] Abbreviation whileLoop :=
  (whileLoop clock event rangeStart rangeEnd source).
#[local] Abbreviation expandLoop :=
  (expandLoop clock event rangeStart rangeEnd source).

Lemma elem_of_pushIf results a r :
  r ∈ results \/ a = Some r -> r ∈ pushIf results a.
Proof.
  unfold pushIf. intros [H| ->].
  - destruct a; [apply elem_of_app; auto|exact H].
  - apply elem_of_app. right. apply list_elem_of_here.
Qed.

(** The loop only adds rows. *)
Lemma whileLoop_keeps r :
  forall remaining count next results,
    r ∈ results -> r ∈ emitted (whileLoop remaining count next results).
Proof.
  induction remaining as [|remaining IH]; intros count next results Hr;
    destruct next as [t| |]; simpl; try exact Hr.
  destruct (gtDate (Ical.toJSDate t) rangeEnd); [exact Hr|].
  destruct (geDate (Ical.toJSDate t) rangeStart); [|now apply IH].
  destruct (createEventRecord _ _ _ _) as [msg|occurrence]; [exact Hr|].
  apply IH, elem_of_pushIf. auto.
Qed.

(** With a start, [createEventRecord] returns a row or throws. *)
Lemma createEventRecord_Returns now start o :
  createEventRecord now event (Some start) source = Returns o ->
  exists r, o = Some r.
Proof.
  unfold createEventRecord. cbv zeta.
  destruct (negb (valid start)); [discriminate|].
  destruct (negb (valid _)); [discriminate|].
  intros [= <-]. eauto.
Qed.

(** A candidate inside the window that the loop reaches is written. *)
Lemma whileLoop_complete k t :
  Ical.iterator event k = Ical.Yield t ->
  geDate (Ical.toJSDate t) rangeStart = true ->
  forall remaining count results,
    (count <= k < count + remaining)%nat ->
    (forall j, (count <= j <= k)%nat ->
       exists tj,
         Ical.iterator event j = Ical.Yield tj
         /\ gtDate (Ical.toJSDate tj) rangeEnd = false
         /\ (geDate (Ical.toJSDate tj) rangeStart = true ->
             exists o,
               createEventRecord (clock j) event (Some (Ical.toJSDate tj))
                 source = Returns o)) ->
    exists r,
      createEventRecord (clock k) event (Some (Ical.toJSDate t)) source
      = Returns (Some r)
      /\ r ∈ emitted (whileLoop remaining count (Ical.iterator event count)
                        results).
Proof.
  intros Hk Hlo.
  induction remaining as [|remaining IH]; intros count results Hrange Hprev;
    [lia|].
  destruct (Hprev count) as (t0 & Ht0 & Hend & Hrec0); [lia|].
  rewrite Ht0. simpl. rewrite Hend.
  destruct (Nat.eq_dec count k) as [->|Hne].
  - rewrite Hk in Ht0. injection Ht0 as <-. rewrite Hlo.
    destruct (Hrec0 Hlo) as (o & Ho). rewrite Ho.
    destruct (createEventRecord_Returns _ _ _ Ho) as (r & ->).
    exists r. split; [reflexivity|].
    apply whileLoop_keeps, elem_of_pushIf. auto.
  - assert (forall results',
              exists r,
                createEventRecord (clock k) event (Some (Ical.toJSDate t))
                  source = Returns (Some r)
                /\ r ∈ emitted (whileLoop remaining (S count)
                                  (Ical.iterator event (S count)) results'))
      as Hnext.
    { intros results'. apply IH; [lia|]. intros j Hj. apply Hprev. lia. }
    destruct (geDate (Ical.toJSDate t0) rangeStart) eqn:Hlo0; [|apply Hnext].
    destruct (Hrec0 eq_refl) as (o & ->). apply Hnext.
Qed.

(** X8. Completeness of the expansion when the candidates do not
    decrease and no date leaves the range of time values: if the first
    [k + 1] calls of the iterator of a recurring event that is not
    skipped give candidates, none of them later than the one with
    index [k], and a record can be created for every start inside the
    window and for the nominal start, then that candidate, when it
    lies inside the window and [k] is below the cap of 500, has its
    row in the result. *)
Theorem expandEvent_complete k t :
  skipsStatusBlock toLowerCase event source = false ->
  Ical.isRecurring event = true ->
  (k < 500)%nat ->
  Ical.iterator event k = Ical.Yield t ->
  (forall j, (j <= k)%nat ->
             exists tj, Ical.iterator event j = Ical.Yield tj
                        /\ Ical.toJSDate tj <= Ical.toJSDate t) ->
  valid rangeStart = true ->
  valid rangeEnd = true ->
  rangeStart <= Ical.toJSDate t <= rangeEnd ->
  (forall now start,
     rangeStart <= start <= rangeEnd ->
     exists o, createEventRecord now event (Some start) source = Returns o) ->
  (forall now,
     exists o,
       createEventRecord now event (Ical.toJSDate <$> Ical.startDate event)
         source = Returns o) ->
  exists r rows,
    createEventRecord (clock k) event (Some (Ical.toJSDate t)) source
    = Returns (Some r)
    /\ expandEvent toLowerCase clock event rangeStart rangeEnd source
       = Returns rows
    /\ r ∈ rows.
Proof.
  intros Hskip Hrec Hcap Hk Hmono Hvs Hve [Hlo Hhi] Hwin Hnom.
  apply valid_iff in Hvs as Hs. apply valid_iff in Hve as He.
  assert (valid (Ical.toJSDate t) = true) as Hvt by (apply valid_iff; lia).
  destruct (whileLoop_complete k t Hk) with (remaining := maxIterations)
    (count := 0%nat) (results := @nil Appointment) as (r & Hr & Hin).
  { apply geDate_true. auto. }
  { change maxIterations with 500%nat. lia. }
  { intros j Hj. destruct (Hmono j) as (tj & Htj & Hle); [lia|].
    exists tj. split; [exact Htj|]. split.
    - destruct (gtDate (Ical.toJSDate tj) rangeEnd) eqn:Hgt; [|reflexivity].
      apply gtDate_true in Hgt. lia.
    - intros Hge. apply geDate_true in Hge as (_ & _ & Hge).
      apply Hwin. lia. }
  exists r. unfold Sync.expandEvent. rewrite Hskip, Hrec.
  fold expandLoop. revert Hin. unfold Sync.expandLoop.
  generalize (whileLoop maxIterations 0 (Ical.iterator event 0) []).
  intros loop Hin. destruct (exit loop).
  - exists (emitted loop). auto.
  - destruct (Hnom (clock (Sync.count loop))) as (o & ->).
    exists (pushIf (emitted loop) o). split; [exact Hr|].
    split; [reflexivity|]. apply elem_of_pushIf. auto.
Qed.

(** The end of a row: its start and the span of the event. *)
Lemma createEventRecord_end now start r :
  createEventRecord now event (Some start) source = Returns (Some r) ->
  end_time r
  = toISOString
      (start
       + match Ical.duration event with
         | Some seconds => seconds * 1000
         | None =>
             match Ical.endDate event, Ical.startDate event with
             | Some e, Some s =>
                 roundDouble (Ical.toJSDate e - Ical.toJSDate s)
             | _, _ => 60 * 60 * 1000
             end
         end).
Proof.
  unfold createEventRecord. cbv zeta.
  destruct (valid start) eqn:Hv; [|discriminate]. cbn [negb].
  rewrite (getTime_valid _ Hv).
  match goal with
  | |- context [negb (valid ?d)] => destruct (valid d) eqn:Hend
  end; [|discriminate]. cbn [negb].
  intros [= <-]. cbn [end_time]. f_equal.
  revert Hend. apply valid_iff in Hv. pose proof maxTime_53 as H53.
  destruct (Ical.duration event) as [seconds|].
  - cbn [mul add newDate]. intros Hend.
    pose proof (valid_roundDouble _ Hend) as Hexact.
    rewrite Hexact in Hend |- *. apply valid_iff in Hend.
    f_equal. replace (seconds * 1000) with (8 * (seconds * 125)) by lia.
    apply roundDouble_multiple_of_8.
    replace (8 * (seconds * 125)) with (seconds * 1000) by lia.
    unfold maxTime in *. change (2 ^ 56) with 72057594037927936. lia.
  - destruct (Ical.endDate event) as [e|];
      [destruct (Ical.startDate event) as [s|]|].
    + unfold getTime.
      destruct (valid (Ical.toJSDate e));
        [|cbn [sub add newDate]; rewrite invalidDate_invalid; discriminate].
      destruct (valid (Ical.toJSDate s));
        [|cbn [sub add newDate]; rewrite invalidDate_invalid; discriminate].
      cbn [sub add newDate]. intros Hend.
      now rewrite (valid_roundDouble _ Hend).
    + cbn [add newDate]. intros Hend. now rewrite (valid_roundDouble _ Hend).
    + cbn [add newDate]. intros Hend. now rewrite (valid_roundDouble _ Hend).
Qed.

(** X9. Every row of an expansion has the same length in time: the
    explicit duration of the event when it has one, otherwise the
    distance from its nominal start to its nominal end as the engine
    computes it (rounded to a double), otherwise one hour; and every
    row carries the name of the feed. *)
Theorem expandEvent_same_span :
  exists span,
    (forall seconds, Ical.duration event = Some seconds ->
                     span = seconds * 1000)
    /\ (forall s e, Ical.duration event = None ->
                    Ical.startDate event = Some s ->
                    Ical.endDate event = Some e ->
                    span = roundDouble (Ical.toJSDate e - Ical.toJSDate s))
    /\ (Ical.duration event = None ->
        Ical.startDate event = None \/ Ical.endDate event = None ->
        span = 3600000)
    /\ forall rows r,
         expandEvent toLowerCase clock event rangeStart rangeEnd source
         = Returns rows ->
         r ∈ rows ->
         Sync.source r = sourceName source
         /\ exists start,
              start_time r = toISOString start
              /\ end_time r = toISOString (start + span).
Proof.
  exists (match Ical.duration event with
          | Some seconds => seconds * 1000
          | None =>
              match Ical.endDate event, Ical.startDate event with
              | Some e, Some s =>
                  roundDouble (Ical.toJSDate e - Ical.toJSDate s)
              | _, _ => 60 * 60 * 1000
              end
          end).
  split; [|split; [|split]].
  - intros seconds ->. reflexivity.
  - intros s e -> -> ->. reflexivity.
  - intros -> [-> | ->]; [destruct (Ical.endDate event)|]; reflexivity.
  - intros rows r Hrows Hr.
    destruct (expandEvent_emitted _ _ _ _ _ _ _ _ Hrows Hr)
      as (c & start & Hc & _).
    pose proof (createEventRecord_end _ _ _ Hc) as Hend.
    apply createEventRecord_Some in Hc as (_ & _ & Hst & Hsrc).
    split; [exact Hsrc|]. exists start. auto.
Qed.

End ExpandExtras.

Section ExpandExtraWitnesses.

Import JsString JsNumber JsDate Sync.

(** The records of the daily series can be created wherever they start
    in the window of the samples. *)
Lemma dailyForever_records now start :
  - maxTime <= start <= maxTime - 1800000 ->
  exists o,
    createEventRecord now Samples.dailyForever (Some start) Ics = Returns o.
Proof.
  intros Hs. pose proof maxTime_53 as H53. unfold maxTime in *.
  unfold createEventRecord. cbv zeta.
  assert (valid start = true) as Hv
    by (apply valid_iff; unfold maxTime; lia).
  rewrite Hv, (getTime_valid _ Hv). cbn [negb].
  cbn [Ical.duration Ical.endDate Ical.startDate Ical.toJSDate
       Samples.dailyForever Samples.withRule Samples.baseEvent Samples.time].
  replace (sub (getTime (Samples.dec1 + 1800000)) (getTime Samples.dec1))
    with (Some 1800000) by (vm_compute; reflexivity).
  cbn [add newDate].
  rewrite (roundDouble_small (start + 1800000))
    by (change (2 ^ 53) with 9007199254740992; lia).
  assert (valid (start + 1800000) = true) as ->
    by (apply valid_iff; unfold maxTime; lia).
  cbn [negb]. eauto.
Qed.

Lemma expandEvent_complete_witness :
  exists r rows,
    createEventRecord (Samples.clockA 3%nat) Samples.dailyForever
      (Some (Samples.dec1 + 3 * msPerDay)) Ics = Returns (Some r)
    /\ expandEvent Samples.asciiToLowerCase Samples.clockA Samples.dailyForever
         Samples.rangeStart Samples.rangeEnd Ics = Returns rows
    /\ r ∈ rows.
Proof.
  refine (expandEvent_complete Samples.asciiToLowerCase Samples.clockA
            Samples.dailyForever Samples.rangeStart Samples.rangeEnd Ics
            3%nat (Samples.time (Samples.dec1 + 3 * msPerDay))
            _ _ _ _ _ _ _ _ _ _).
  - reflexivity.
  - reflexivity.
  - lia.
  - reflexivity.
  - intros j Hj.
    exists (Samples.time (Samples.dec1 + Z.of_nat j * msPerDay)).
    split; [reflexivity|]. unfold msPerDay. simpl. lia.
  - reflexivity.
  - reflexivity.
  - unfold Samples.rangeStart, Samples.rangeEnd, msPerDay. simpl. lia.
  - intros now start Hs. apply dailyForever_records.
    unfold Samples.rangeStart, Samples.rangeEnd, Samples.dec1, msPerDay,
      maxTime in *. lia.
  - intros now. apply (dailyForever_records now Samples.dec1).
    unfold Samples.dec1, maxTime. lia.
Defined.

Lemma expandEvent_window_witness :
  exists start,
    start_time Samples.singleRow = toISOString start
    /\ valid start = true
    /\ Samples.rangeStart <= start
    /\ (valid Samples.rangeEnd = true -> start <= Samples.rangeEnd).
Proof.
  refine (expandEvent_window Samples.asciiToLowerCase Samples.clockA
            Samples.singleEvent Samples.rangeStart Samples.rangeEnd Ics
            [Samples.singleRow] Samples.singleRow _ _ _).
  - right. reflexivity.
  - vm_compute. reflexivity.
  - apply list_elem_of_here.
Defined.

End ExpandExtraWitnesses.

(** ** The pipeline of one feed *)

Section FeedFacts.

Import JsString Sync.

Variable toLowerCase : string -> string.

Lemma expandAll_components w source vs : forall i,
  expandAll toLowerCase w source i vs
  = (concat (imap (fun j => componentRows toLowerCase w source (i + j)) vs),
     omap (fun message => message) (imap (fun j => componentError toLowerCase w source (i + j)) vs)).
Proof.
  induction vs as [|v vs IH]; intros i; [reflexivity|].
  cbn [expandAll]. rewrite (IH (S i)).
  cbn [imap concat omap list_omap].
  replace (imap ((fun j => componentRows toLowerCase w source (i + j)) ∘ S) vs)
    with (imap (fun j => componentRows toLowerCase w source (S i + j)) vs).
  - replace (imap ((fun j => componentError toLowerCase w source (i + j)) ∘ S)
               vs)
      with (imap (fun j => componentError toLowerCase w source (S i + j)) vs).
    + rewrite Nat.add_0_r.
      destruct v as [msg|event]; [reflexivity|].
      cbn [componentRows componentError].
      destruct (expandEvent _ _ _ _ _ _); reflexivity.
    + apply imap_ext. intros j x _. simpl. f_equal. lia.
  - apply imap_ext. intros j x _. simpl. f_equal. lia.
Qed.

(** X10. A component that cannot be read or expanded does not abort
    its feed: when the feed is fetched and parsed, the rows written
    are the deduplicated rows of all the components that could be read
    and expanded, in order, and the errors are one message per
    component that could not; [added] is the number of rows written
    (nothing is written, and the store is not asked, when there is no
    row). *)
Theorem syncIcsCalendar_components w source response vs :
  fetch w = Returns response ->
  ok response = true ->
  vevents response = Returns vs ->
  let rows := concat (imap (componentRows toLowerCase w source) vs) in
  rows = [] \/ upsert w (dedupe rows) = Returns None ->
  syncIcsCalendar toLowerCase w source
  = {| result_source := sourceName source;
       added := length (dedupe rows);
       updated := 0;
       errors := omap (fun message => message) (imap (componentError toLowerCase w source) vs) |}.
Proof.
  intros Hfetch Hok Hvs rows Hup. unfold syncIcsCalendar.
  rewrite Hfetch, Hok, Hvs. cbn [negb].
  rewrite expandAll_components. cbn [Nat.add].
  change (concat (imap (fun j => componentRows toLowerCase w source j) vs))
    with rows.
  change (imap (fun j => componentError toLowerCase w source j) vs)
    with (imap (componentError toLowerCase w source) vs).
  destruct rows as [|a rows'] eqn:Hrows; [reflexivity|].
  destruct Hup as [Hup|Hup]; [discriminate|].
  now rewrite Hup.
Qed.

(** X11. A feed that cannot be fetched, that answers with a status that
    is not ok, or whose text cannot be parsed gives a result with
    exactly one error and nothing added. *)
Theorem syncIcsCalendar_feed_failure w source :
  (match fetch w with
   | Throws _ => True
   | Returns response =>
       ok response = false
       \/ exists msg, vevents response = Throws msg
   end) ->
  added (syncIcsCalendar toLowerCase w source) = 0%nat
  /\ length (errors (syncIcsCalendar toLowerCase w source)) = 1%nat.
Proof.
  unfold syncIcsCalendar. destruct (fetch w) as [msg|response].
  - intros _. split; reflexivity.
  - intros [Hok|(msg & Hmsg)].
    + rewrite Hok. split; reflexivity.
    + rewrite Hmsg. destruct (ok response); split; reflexivity.
Qed.

End FeedFacts.

Section FeedWitnesses.

Import JsString Sync.

Lemma syncIcsCalendar_components_witness :
  syncIcsCalendar Samples.asciiToLowerCase Samples.mixedFeed Ics
  = {| result_source := "ics";
       added := 1;
       updated := 0;
       errors := ["Failed to parse event: Invalid time value";
                  "Failed to parse event: invalid date"] |}.
Proof.
  refine (eq_trans
            (syncIcsCalendar_components Samples.asciiToLowerCase
               Samples.mixedFeed Ics
               {| ok := true; status := 200; statusText := "OK";
                  vevents := Returns [Returns Samples.singleEvent;
                                      Returns Samples.endlessEvent;
                                      Throws "invalid date"] |}
               [Returns Samples.singleEvent; Returns Samples.endlessEvent;
                Throws "invalid date"]
               _ _ _ _) _);
    [reflexivity|reflexivity|reflexivity|right; reflexivity|].
  vm_compute. reflexivity.
Defined.

(** A feed that answers 403 has one error and nothing added. *)
Example forbiddenFeed_result :
  syncIcsCalendar Samples.asciiToLowerCase Samples.forbiddenFeed AppleCalendar
  = {| result_source := "apple_calendar";
       added := 0;
       updated := 0;
       errors := ["Failed to fetch ICS: 403 Forbidden"] |}.
Proof. vm_compute. reflexivity. Qed.

Lemma syncIcsCalendar_feed_failure_witness :
  added (syncIcsCalendar Samples.asciiToLowerCase Samples.forbiddenFeed
           AppleCalendar) = 0%nat
  /\ length (errors (syncIcsCalendar Samples.asciiToLowerCase
                       Samples.forbiddenFeed AppleCalendar))
     = 1%nat.
Proof.
  refine (syncIcsCalendar_feed_failure Samples.asciiToLowerCase
            Samples.forbiddenFeed AppleCalendar _).
  left. reflexivity.
Defined.

End FeedWitnesses.

(** ** More on the events handler *)

Section ReadExtras.

Import Lib Events.

#[local] Arguments isValidRow : simpl never.

Context {Store : Type}.
Variable selectAppointments : Store -> Z -> Z -> Reply (list Row).
Variable selectIgnoredBaseIds : Store -> Reply (list (option JsVal)).
Variable selectIgnoredEventIds : Store -> Reply (list (option JsVal)).

#[local] Abbreviation GET := (GET selectAppointments selectIgnoredBaseIds
                                  selectIgnoredEventIds).

Lemma convert_masked apt e :
  convert false apt = Some e ->
  ev_source e = "apple_calendar" ->
  ev_subject e = JStr "[Personal Event]" /\ ev_location e = JStr "".
Proof.
  unfold convert.
  destruct (toCalendarEvent (Some apt)) as [e'|] eqn:He'; [|discriminate].
  apply toCalendarEvent_Some in He' as (_ & Hsrc & _).
  destruct (bool_decide (source apt = JStr "apple_calendar")) eqn:Hd;
    cbn [andb negb]; intros [= <-]; cbn.
  - auto.
  - intros Hs. apply bool_decide_eq_false in Hd. congruence.
Qed.

(** X12. Privacy: in a list that the handler returns without the reveal
    flag every personal event has the placeholder as its subject and an
    empty location. *)
Theorem GET_masks_personal daysAhead now store events e :
  fst (GET daysAhead false now store) = Ok events ->
  e ∈ events ->
  ev_source e = "apple_calendar" ->
  ev_subject e = JStr "[Personal Event]" /\ ev_location e = JStr "".
Proof.
  intros H He Hsrc. apply GET_Ok in H as (rows & ->).
  apply list_elem_of_omap in He as (apt & _ & Hconv).
  now apply (convert_masked apt).
Qed.

Lemma convert_reveal apt :
  match convert true apt, convert false apt with
  | Some e1, Some e2 =>
      publicFields e1 = publicFields e2
      /\ (ev_source e1 <> "apple_calendar" -> e1 = e2)
  | None, None => True
  | _, _ => False
  end.
Proof.
  unfold convert.
  destruct (toCalendarEvent (Some apt)) as [e|] eqn:He; [|exact I].
  apply toCalendarEvent_Some in He as (_ & Hsrc & _).
  rewrite andb_false_r.
  destruct (bool_decide (source apt = JStr "apple_calendar")) eqn:Hd;
    cbn [andb negb].
  - split; [reflexivity|]. intros Hne.
    apply bool_decide_eq_true in Hd. congruence.
  - auto.
Qed.

Lemma omap_convert_reveal rows :
  publicFields <$> omap (convert true) rows
  = publicFields <$> omap (convert false) rows
  /\ List.filter (fun e => negb (String.eqb (ev_source e) "apple_calendar"))
       (omap (convert true) rows)
     = List.filter (fun e => negb (String.eqb (ev_source e) "apple_calendar"))
         (omap (convert false) rows).
Proof.
  induction rows as [|apt rows [IH1 IH2]]; [split; reflexivity|].
  cbn [omap list_omap]. pose proof (convert_reveal apt) as H.
  destruct (convert true apt) as [e1|], (convert false apt) as [e2|];
    try contradiction; [|auto].
  destruct H as [Hpub Hsame].
  change (omap (convert true) rows) with (list_omap _ _ (convert true) rows)
    in IH1, IH2.
  change (omap (convert false) rows) with (list_omap _ _ (convert false) rows)
    in IH1, IH2.
  split.
  - cbn [fmap list_fmap]. f_equal; [exact Hpub|exact IH1].
  - cbn [List.filter].
    assert (ev_source e1 = ev_source e2) as Hsrc
      by (unfold publicFields in Hpub; congruence).
    rewrite <- Hsrc.
    destruct (String.eqb_spec (ev_source e1) "apple_calendar") as [E|Hne];
      cbn [negb]; [exact IH2|].
    rewrite (Hsame Hne). f_equal. exact IH2.
Qed.

(** X13. Masking never changes anything else: with and without the
    reveal flag the handler gives the same kind of response, and two
    lists of events agree, position by position, on id, start, end,
    organizer, source and all-day flag; the events that are not
    personal are the same. *)
Theorem GET_reveal_only_masks daysAhead now store :
  match fst (GET daysAhead true now store),
        fst (GET daysAhead false now store) with
  | Ok revealed, Ok masked =>
      publicFields <$> revealed = publicFields <$> masked
      /\ List.filter
           (fun e => negb (String.eqb (ev_source e) "apple_calendar")) revealed
         = List.filter
             (fun e => negb (String.eqb (ev_source e) "apple_calendar")) masked
  | BadRequest, BadRequest => True
  | ServerError e1, ServerError e2 => e1 = e2
  | _, _ => False
  end.
Proof.
  unfold Events.GET. destruct daysAhead as [d|]; [|exact I].
  destruct (_ || _); [exact I|].
  destruct (error _); [reflexivity|]. cbn [fst].
  unfold respond. destruct (filterIgnored _ _ _) as [kept|]; [|reflexivity].
  apply omap_convert_reveal.
Qed.

(** X14. The bounds of the [days] parameter: the handler answers 400
    exactly when the parameter is not a number, or below 1, or above
    365. *)
Theorem GET_bad_request daysAhead revealed now store :
  fst (GET daysAhead revealed now store) = BadRequest
  <-> match daysAhead with
      | None => True
      | Some d => d < 1 \/ d > 365
      end.
Proof.
  unfold Events.GET. destruct daysAhead as [d|]; [|tauto].
  destruct ((d <? 1) || (d >? 365)) eqn:Hd.
  - split; [intros _; lia|reflexivity].
  - split; [|lia]. destruct (error _); [discriminate|]. cbn [fst].
    unfold respond. destruct (filterIgnored _ _ _); discriminate.
Qed.


End ReadExtras.

Section ReadExtraWitnesses.

Import Lib Events.

#[local] Abbreviation sampleGET := (GET Samples.selectAppointments
                                        Samples.selectIgnoredBaseIds
                                        Samples.selectIgnoredEventIds).


Lemma GET_masks_personal_witness :
  ev_subject Samples.maskedDentist = JStr "[Personal Event]"
  /\ ev_location Samples.maskedDentist = JStr "".
Proof.
  refine (GET_masks_personal Samples.selectAppointments
            Samples.selectIgnoredBaseIds Samples.selectIgnoredEventIds
            (Some 30) Samples.dec1 Samples.ignoringStore
            [Samples.maskedDentist] Samples.maskedDentist _ _ _).
  - vm_compute. reflexivity.
  - apply list_elem_of_here.
  - reflexivity.
Defined.

End ReadExtraWitnesses.

(** ** More on the overlap set *)

Section OverlapExtras.

Import Lib Page.

Variable getTime : string -> option Z.
Variable detectOverlap : bool.
Variables ignoredBaseIds ignoredEventIds : gset string.

#[local] Abbreviation overlapSet :=
  (getOverlappingEventIds getTime detectOverlap ignoredBaseIds
     ignoredEventIds).

Lemma isEventIgnored_false e :
  isEventIgnored ignoredBaseIds ignoredEventIds e = false
  <-> (ev_id e ∉ ignoredEventIds)
      /\ (getBaseIdFromEventId (ev_id e) ∉ ignoredBaseIds).
Proof.
  unfold isEventIgnored. repeat case_decide; split; try tauto; try discriminate.
  all: intros [? ?]; contradiction.
Qed.

(** The set in terms of the pairs, detection on or off. *)
Lemma overlapSet_pairs events i :
  i ∈ overlapSet events
  <-> detectOverlap = true
      /\ exists p w,
           p ∈ personalEventsOf getTime ignoredBaseIds ignoredEventIds events
           /\ w ∈ workEventsOf ignoredBaseIds ignoredEventIds events
           /\ intersects getTime p w = true
           /\ (i = ev_id p \/ i = ev_id w).
Proof.
  destruct detectOverlap.
  - rewrite getOverlappingEventIds_spec. tauto.
  - rewrite getOverlappingEventIds_off. split; [set_solver|].
    intros [? _]. discriminate.
Qed.

Lemma elem_of_personalEventsOf events p :
  p ∈ personalEventsOf getTime ignoredBaseIds ignoredEventIds events
  <-> p ∈ events /\ isPersonal p = true
      /\ isEventIgnored ignoredBaseIds ignoredEventIds p = false
      /\ isAllDayOrMultiDayFree getTime p = false.
Proof.
  unfold personalEventsOf.
  rewrite list_elem_of_In, filter_In, <- list_elem_of_In,
    !andb_true_iff, !negb_true_iff.
  tauto.
Qed.

Lemma elem_of_workEventsOf events w :
  w ∈ workEventsOf ignoredBaseIds ignoredEventIds events
  <-> w ∈ events /\ isWork w = true
      /\ isEventIgnored ignoredBaseIds ignoredEventIds w = false.
Proof.
  unfold workEventsOf.
  rewrite list_elem_of_In, filter_In, <- list_elem_of_In,
    !andb_true_iff, !negb_true_iff.
  tauto.
Qed.

(** X16. An ignored occurrence and an occurrence of an ignored series
    are never flagged: an id that is in the set of ignored occurrence
    ids, or whose base id is in the set of ignored base ids, is not in
    the overlap set, whatever the events overlap. *)
Theorem overlap_never_flags_ignored events i :
  i ∈ ignoredEventIds \/ getBaseIdFromEventId i ∈ ignoredBaseIds ->
  i ∉ getOverlappingEventIds getTime detectOverlap ignoredBaseIds
        ignoredEventIds events.
Proof.
  intros Hign H.
  apply overlapSet_pairs in H as (_ & p & w & Hp & Hw & _ & Hid).
  apply elem_of_personalEventsOf in Hp as (_ & _ & Hp & _).
  apply elem_of_workEventsOf in Hw as (_ & _ & Hw).
  apply isEventIgnored_false in Hp, Hw.
  destruct Hid as [-> | ->]; tauto.
Qed.

(** X17. The flags come in pairs: every id of the overlap set belongs
    to a personal and a work event of the list whose ids are both in
    the set. *)
Theorem overlap_flags_in_pairs events i :
  i ∈ overlapSet events ->
  exists p w,
    p ∈ events /\ w ∈ events /\ isPersonal p = true /\ isWork w = true
    /\ ev_id p ∈ overlapSet events /\ ev_id w ∈ overlapSet events
    /\ (i = ev_id p \/ i = ev_id w).
Proof.
  intros H. pose proof H as H'.
  apply overlapSet_pairs in H as (Hon & p & w & Hp & Hw & Hi & Hid).
  exists p, w.
  pose proof Hp as Hp'. pose proof Hw as Hw'.
  apply elem_of_personalEventsOf in Hp' as (? & ? & _).
  apply elem_of_workEventsOf in Hw' as (? & ? & _).
  repeat (split; [assumption|]).
  split; [|split; [|exact Hid]];
    apply overlapSet_pairs; (split; [exact Hon|]); exists p, w; auto.
Qed.

Lemma overlapSet_mono events events' :
  (forall e, e ∈ events -> e ∈ events') ->
  overlapSet events ⊆ overlapSet events'.
Proof.
  intros Hsub i H.
  apply overlapSet_pairs in H as (Hon & p & w & Hp & Hw & Hi & Hid).
  apply overlapSet_pairs. split; [exact Hon|]. exists p, w.
  apply elem_of_personalEventsOf in Hp as (? & ? & ? & ?).
  apply elem_of_workEventsOf in Hw as (? & ? & ?).
  split; [apply elem_of_personalEventsOf; auto|].
  split; [apply elem_of_workEventsOf; auto|]. auto.
Qed.

(** X18. The overlap set grows with the list: the flags of a list are
    flags of every list that holds its events, whatever the order and
    the repetitions. *)
Theorem overlap_monotone events events' :
  (forall e, e ∈ events -> e ∈ events') ->
  getOverlappingEventIds getTime detectOverlap ignoredBaseIds
    ignoredEventIds events
  ⊆ getOverlappingEventIds getTime detectOverlap ignoredBaseIds
      ignoredEventIds events'.
Proof. intros Hsub. now apply overlapSet_mono. Qed.

(** X28. The overlap set does not depend on the order in which the
    response lists the events: two lists that are permutations of each
    other have the same set. *)
Theorem overlap_permutation events events' :
  events ≡ₚ events' ->
  getOverlappingEventIds getTime detectOverlap ignoredBaseIds
    ignoredEventIds events
  = getOverlappingEventIds getTime detectOverlap ignoredBaseIds
      ignoredEventIds events'.
Proof.
  intros Hperm. apply set_eq. intros i. split; apply overlapSet_mono;
    intros e He; [rewrite <- Hperm|rewrite Hperm]; exact He.
Qed.

End OverlapExtras.

Section OverlapExtraWitnesses.

Import Lib Page.

(** The call at 10:45 is ignored as an occurrence and the sync as a
    series: both overlap the dentist, and neither is flagged. *)
Example ignored_overlaps_not_flagged :
  getOverlappingEventIds Samples.getTime true {[ "sync" ]} {[ "w1045" ]}
    [Samples.personal10; Samples.work1030; Samples.work1045;
     Samples.workSeries]
  = {[ "p"; "w1030" ]}
  /\ intersects Samples.getTime Samples.personal10 Samples.work1045 = true
  /\ intersects Samples.getTime Samples.personal10 Samples.workSeries = true.
Proof. vm_compute. repeat split; reflexivity. Qed.

Lemma overlap_never_flags_ignored_witness :
  "w1045"
  ∉ getOverlappingEventIds Samples.getTime true {[ "sync" ]} {[ "w1045" ]}
      [Samples.personal10; Samples.work1030; Samples.work1045;
       Samples.workSeries].
Proof.
  refine (overlap_never_flags_ignored Samples.getTime true
            {[ "sync" ]} {[ "w1045" ]}
            [Samples.personal10; Samples.work1030; Samples.work1045;
             Samples.workSeries] "w1045" _).
  left. now apply elem_of_singleton.
Defined.

Lemma overlap_flags_in_pairs_witness :
  exists p w,
    p ∈ [Samples.personal10; Samples.work11; Samples.work1030]
    /\ w ∈ [Samples.personal10; Samples.work11; Samples.work1030]
    /\ isPersonal p = true /\ isWork w = true
    /\ ev_id p ∈ getOverlappingEventIds Samples.getTime true ∅ ∅
                   [Samples.personal10; Samples.work11; Samples.work1030]
    /\ ev_id w ∈ getOverlappingEventIds Samples.getTime true ∅ ∅
                   [Samples.personal10; Samples.work11; Samples.work1030]
    /\ ("w1030" = ev_id p \/ "w1030" = ev_id w).
Proof.
  refine (overlap_flags_in_pairs Samples.getTime true ∅ ∅
            [Samples.personal10; Samples.work11; Samples.work1030] "w1030" _).
  vm_compute. reflexivity.
Defined.

Lemma overlap_monotone_witness :
  getOverlappingEventIds Samples.getTime true ∅ ∅
    [Samples.personal10; Samples.work1030]
  ⊆ getOverlappingEventIds Samples.getTime true ∅ ∅
      [Samples.personal10; Samples.work11; Samples.work1030].
Proof.
  refine (overlap_monotone Samples.getTime true ∅ ∅
            [Samples.personal10; Samples.work1030]
            [Samples.personal10; Samples.work11; Samples.work1030] _).
  intros e He. apply elem_of_cons in He as [->|He]; [apply list_elem_of_here|].
  apply list_elem_of_singleton in He as ->.
  do 2 apply list_elem_of_further. apply list_elem_of_here.
Defined.

Lemma overlap_permutation_witness :
  getOverlappingEventIds Samples.getTime true ∅ ∅
    [Samples.personal10; Samples.work11; Samples.work1030]
  = getOverlappingEventIds Samples.getTime true ∅ ∅
      [Samples.work11; Samples.personal10; Samples.work1030].
Proof.
  refine (overlap_permutation Samples.getTime true ∅ ∅
            [Samples.personal10; Samples.work11; Samples.work1030]
            [Samples.work11; Samples.personal10; Samples.work1030] _).
  apply perm_swap.
Defined.

End OverlapExtraWitnesses.

(** ** More on the layout *)

Section LayoutExtras.

Import Lib Page.

#[local] Arguments overlaps : simpl never.

(** The columns that the members of a group that overlap [slot] hold. *)
Lemma groupSome_exists slots group f :
  groupSome slots group f = true
  <-> exists j g, j ∈ group /\ slots !! j = Some g /\ f g = true.
Proof.
  unfold groupSome. rewrite existsb_exists. split.
  - intros (j & Hj & Hf). apply list_elem_of_In in Hj.
    destruct (slots !! j) as [g|] eqn:Hg; [eauto|discriminate].
  - intros (j & g & Hj & Hg & Hf). exists j. rewrite Hg.
    split; [now apply list_elem_of_In|exact Hf].
Qed.

Lemma filter_length_le {A} (f g : A -> bool) l :
  (forall y, f y = true -> g y = true) ->
  (length (List.filter f l) <= length (List.filter g l))%nat.
Proof.
  intros Hfg. induction l as [|y l IH]; simpl; [lia|].
  destruct (f y) eqn:Hf.
  - rewrite (Hfg y Hf). simpl. lia.
  - destruct (g y); simpl; lia.
Qed.

Lemma filter_length_lt {A} (f g : A -> bool) l x :
  (forall y, f y = true -> g y = true) ->
  x ∈ l -> g x = true -> f x = false ->
  (length (List.filter f l) < length (List.filter g l))%nat.
Proof.
  intros Hfg Hx Hgx Hfx. induction l as [|y l IH]; [inversion Hx|].
  pose proof (filter_length_le f g l Hfg) as Hle.
  apply elem_of_cons in Hx as [<-|Hx].
  - simpl. rewrite Hfx, Hgx. simpl. lia.
  - specialize (IH Hx). simpl. destruct (f y) eqn:Hf.
    + rewrite (Hfg y Hf). simpl. lia.
    + destruct (g y); simpl; lia.
Qed.

(** The search for a free column ends: with more fuel than rivals it
    finds the first column from [c] on that no overlapping member of
    the group holds. *)
Lemma findColumn_finds slots group slot : forall fuel c,
  (length (rivals slots group slot c) < fuel)%nat ->
  exists col,
    findColumn fuel slots group slot c = Some col
    /\ (c <= col)%nat
    /\ groupSome slots group
         (fun g => (column g =? col)%nat && overlaps slot g) = false.
Proof.
  induction fuel as [|fuel IH]; intros c Hlt; [lia|].
  cbn [findColumn].
  destruct (groupSome slots group
              (fun g => (column g =? c)%nat && overlaps slot g)) eqn:Htaken.
  - apply groupSome_exists in Htaken as (j & g & Hj & Hg & Hcol).
    apply andb_true_iff in Hcol as [Hcol Hov]. apply Nat.eqb_eq in Hcol.
    destruct (IH (S c)) as (col & Hfind & Hle & Hfree).
    + assert (length (rivals slots group slot (S c))
              < length (rivals slots group slot c))%nat; [|lia].
      unfold rivals. apply (filter_length_lt _ _ _ j); [|exact Hj| |].
      * intros y. destruct (slots !! y) as [gy|]; [|discriminate].
        rewrite !andb_true_iff, !Nat.leb_le. intros [? ?]. split; [lia|auto].
      * rewrite Hg, Hov, andb_true_r. apply Nat.leb_le. lia.
      * rewrite Hg. apply andb_false_iff. left. apply Nat.leb_gt. lia.
    + exists col. split; [exact Hfind|]. split; [lia|exact Hfree].
  - exists c. auto.
Qed.

Lemma rivals_length slots group slot c :
  (length (rivals slots group slot c) <= length group)%nat.
Proof.
  unfold rivals. induction group as [|j group IH]; simpl; [lia|].
  destruct (match slots !! j with Some _ => _ | None => _ end); simpl; lia.
Qed.

(** Placing a slot never runs out of fuel. *)
Lemma placeInGroups_total slots i slot groups :
  placeInGroups slots i slot groups <> Some None.
Proof.
  induction groups as [|group rest IH]; cbn [placeInGroups]; [discriminate|].
  destruct (groupSome slots group (fun g => overlaps slot g)).
  - destruct (findColumn_finds slots group slot (S (length group)) 0)
      as (col & -> & _).
    + pose proof (rivals_length slots group slot 0). lia.
    + discriminate.
  - destruct (placeInGroups slots i slot rest) as [[[col rest']|]|];
      [discriminate|contradiction|discriminate].
Qed.

Lemma assignColumns_total todo : forall slots groups,
  (forall i, i ∈ todo -> i < length slots)%nat ->
  exists slots' groups',
    assignColumns todo slots groups = Some (slots', groups')
    /\ length slots' = length slots.
Proof.
  induction todo as [|i todo IH]; intros slots groups Hin;
    cbn [assignColumns]; [eauto|].
  destruct (lookup_lt_is_Some_2 slots i) as [slot Hslot];
    [apply Hin, list_elem_of_here|].
  rewrite Hslot.
  pose proof (placeInGroups_total slots i slot groups) as Htotal.
  destruct (placeInGroups slots i slot groups) as [[[col groups']|]|];
    [|contradiction|].
  - destruct (IH (alter (setColumn col) i slots) groups')
      as (slots' & groups'' & -> & Hlen).
    + intros j Hj. rewrite length_alter. apply Hin.
      now apply list_elem_of_further.
    + rewrite length_alter in Hlen. eauto.
  - destruct (IH (alter (setColumn 0) i slots) (groups ++ [[i]]))
      as (slots' & groups'' & -> & Hlen).
    + intros j Hj. rewrite length_alter. apply Hin.
      now apply list_elem_of_further.
    + rewrite length_alter in Hlen. eauto.
Qed.

Lemma insertSorted_Permutation x l : insertSorted x l ≡ₚ x :: l.
Proof.
  induction l as [|y l IH]; simpl; [reflexivity|].
  destruct (sortsBefore x y); [reflexivity|].
  rewrite IH. apply perm_swap.
Qed.

Lemma sortSlots_Permutation l : sortSlots l ≡ₚ l.
Proof.
  unfold sortSlots.
  assert (forall acc, fold_left (fun sorted x => insertSorted x sorted) l acc
                      ≡ₚ acc ++ l) as H.
  { induction l as [|x l IH]; intros acc; simpl.
    - now rewrite app_nil_r.
    - rewrite IH, insertSorted_Permutation.
      rewrite (Permutation_middle acc l x). reflexivity. }
  apply H.
Qed.

Lemma fmap_alter_same {A B} (h : A -> B) (f : A -> A) i (l : list A) :
  (forall x, h (f x) = h x) -> h <$> alter f i l = h <$> l.
Proof.
  intros Hf. revert i. induction l as [|x l IH]; intros [|i]; simpl;
    try reflexivity.
  - now rewrite Hf.
  - f_equal. apply IH.
Qed.

Lemma assignColumns_slotTimes todo : forall slots groups slots' groups',
  assignColumns todo slots groups = Some (slots', groups') ->
  slotTimes <$> slots' = slotTimes <$> slots.
Proof.
  induction todo as [|i todo IH]; intros slots groups slots' groups';
    cbn [assignColumns].
  - now intros [= -> _].
  - destruct (slots !! i) as [slot|]; [|discriminate].
    destruct (placeInGroups slots i slot groups) as [[[col groups1]|]|];
      [|discriminate|]; intros H; apply IH in H; rewrite H;
      now apply fmap_alter_same.
Qed.

Lemma setTotals_fold {B} (h : Slot -> B) n group :
  (forall x, h (setTotalColumns n x) = h x) ->
  forall slots : list Slot,
    h <$> fold_left (fun (slots : list Slot) j =>
                       alter (setTotalColumns n) j slots)
            group slots
    = h <$> slots.
Proof.
  intros Hh. induction group as [|j group IH]; intros slots; simpl;
    [reflexivity|].
  rewrite IH. now apply fmap_alter_same.
Qed.

Lemma writeTotals_same {B} (h : Slot -> B) groups :
  (forall n x, h (setTotalColumns n x) = h x) ->
  forall slots : list Slot, h <$> writeTotals slots groups = h <$> slots.
Proof.
  intros Hh. unfold writeTotals.
  induction groups as [|group groups IH]; intros slots; simpl; [reflexivity|].
  rewrite IH. apply setTotals_fold. intros x. apply Hh.
Qed.

Variables getHours getMinutes : string -> Z.

#[local] Abbreviation toSlot := (toSlot getHours getMinutes).
#[local] Abbreviation layoutSlots := (layoutSlots getHours getMinutes).

(** X19. The layout always ends and loses nothing: for every list of
    events the search for a free column succeeds within the fuel that
    the size of the group gives it, and the slots returned are the
    events of the list, each once, with their clamped hours. *)
Theorem layoutSlots_keeps_events events :
  exists slots,
    layoutSlots events = Some slots
    /\ slotTimes <$> slots ≡ₚ (slotTimes ∘ toSlot) <$> events.
Proof.
  unfold Page.layoutSlots, layoutOf.
  set (sorted := sortSlots (toSlot <$> events)).
  destruct (assignColumns_total (seq 0 (length sorted)) sorted [])
    as (slots' & groups' & Hassign & _).
  { intros i Hi. apply list_elem_of_In, in_seq in Hi. lia. }
  rewrite Hassign. eexists. split; [reflexivity|].
  rewrite (writeTotals_same slotTimes) by reflexivity.
  rewrite (assignColumns_slotTimes _ _ _ _ _ Hassign).
  subst sorted. rewrite sortSlots_Permutation.
  now rewrite list_fmap_compose.
Qed.

End LayoutExtras.

Section LayoutGroups.

Import Lib Page.

#[local] Arguments overlaps : simpl never.

Lemma overlaps_symm a b : overlaps a b = overlaps b a.
Proof. unfold overlaps. apply andb_comm. Qed.

Lemma overlaps_slotPlace a a' b b' :
  slotPlace a = slotPlace a' -> slotPlace b = slotPlace b' ->
  overlaps a b = overlaps a' b'.
Proof.
  unfold slotPlace, overlaps. intros [= _ -> ->] [= _ -> ->]. reflexivity.
Qed.

(** Where a slot is placed: behind the members of the first group it
    overlaps, in a column that no member it overlaps holds. *)
Lemma placeInGroups_Some slots i slot groups col groups' :
  placeInGroups slots i slot groups = Some (Some (col, groups')) ->
  exists pre group post,
    groups = pre ++ group :: post
    /\ groups' = pre ++ (group ++ [i]) :: post
    /\ groupSome slots group
         (fun g => (column g =? col)%nat && overlaps slot g) = false.
Proof.
  revert col groups'.
  induction groups as [|group rest IH]; intros col groups';
    cbn [placeInGroups]; [discriminate|].
  destruct (groupSome slots group (fun g => overlaps slot g)).
  - destruct (findColumn_finds slots group slot (S (length group)) 0)
      as (col' & Hfind & _ & Hfree).
    { pose proof (rivals_length slots group slot 0). lia. }
    rewrite Hfind. intros [= <- <-]. exists [], group, rest. auto.
  - destruct (placeInGroups slots i slot rest) as [[[col' rest']|]|];
      [|discriminate|discriminate].
    intros [= <- <-].
    destruct (IH col' rest' eq_refl) as (pre & g & post & -> & -> & Hfree).
    exists (group :: pre), g, post. auto.
Qed.

Lemma placeInGroups_None slots i slot groups :
  placeInGroups slots i slot groups = None ->
  forall group, group ∈ groups ->
    groupSome slots group (fun g => overlaps slot g) = false.
Proof.
  induction groups as [|group rest IH]; cbn [placeInGroups];
    [intros _ g Hg; inversion Hg|].
  destruct (groupSome slots group (fun g => overlaps slot g)) eqn:Hov;
    [discriminate|].
  destruct (placeInGroups slots i slot rest) as [[[col' rest']|]|];
    [discriminate|discriminate|].
  intros _ g Hg. apply elem_of_cons in Hg as [->|Hg]; auto.
Qed.

Lemma groupSome_false slots group f j g :
  groupSome slots group f = false ->
  j ∈ group -> slots !! j = Some g -> f g = false.
Proof.
  intros Hnone Hj Hg. destruct (f g) eqn:Hf; [|reflexivity].
  assert (groupSome slots group f = true) as H
    by (apply groupSome_exists; eauto).
  congruence.
Qed.

(** Columns of slots below [i] are not touched when [i] gets its
    column. *)
Lemma distinctColumns_alter slots group i col :
  (forall j, j ∈ group -> (j < i)%nat) ->
  distinctColumns slots group ->
  distinctColumns (alter (setColumn col) i slots) group.
Proof.
  intros Hlt Hd a b sa sb Ha Hb Hab Hsa Hsb.
  rewrite list_lookup_alter_ne in Hsa by (specialize (Hlt a Ha); lia).
  rewrite list_lookup_alter_ne in Hsb by (specialize (Hlt b Hb); lia).
  now apply (Hd a b).
Qed.

Lemma placed_step slots groups i slot :
  placed slots groups i ->
  slots !! i = Some slot ->
  match placeInGroups slots i slot groups with
  | Some (Some (col, groups')) =>
      placed (alter (setColumn col) i slots) groups' (S i)
  | None => placed (alter (setColumn 0) i slots) (groups ++ [[i]]) (S i)
  | Some None => True
  end.
Proof.
  intros (Hlt & Hcov & Hdist) Hslot.
  destruct (placeInGroups slots i slot groups) as [[[col groups']|]|] eqn:Hp;
    [|exact I|].
  - apply placeInGroups_Some in Hp as (pre & group & post & -> & -> & Hfree).
    assert (forall g j, g ∈ pre ++ group :: post -> j ∈ g -> (j < i)%nat)
      as Hlt' by exact Hlt.
    split; [|split].
    + intros g j Hg Hj.
      apply elem_of_app in Hg as [Hg|Hg];
        [|apply elem_of_cons in Hg as [->|Hg]].
      * specialize (Hlt g j). rewrite elem_of_app in Hlt.
        specialize (Hlt (or_introl Hg) Hj). lia.
      * apply elem_of_app in Hj as [Hj|Hj].
        -- specialize (Hlt group j). rewrite elem_of_app, elem_of_cons in Hlt.
           specialize (Hlt (or_intror (or_introl eq_refl)) Hj). lia.
        -- apply list_elem_of_singleton in Hj as ->. lia.
      * specialize (Hlt g j). rewrite elem_of_app, elem_of_cons in Hlt.
        specialize (Hlt (or_intror (or_intror Hg)) Hj). lia.
    + intros j Hj. destruct (Nat.eq_dec j i) as [->|Hne].
      * exists (group ++ [i]). split.
        -- apply elem_of_app. right. apply list_elem_of_here.
        -- apply elem_of_app. right. apply list_elem_of_here.
      * destruct (Hcov j) as (g & Hg & Hjg); [lia|].
        apply elem_of_app in Hg as [Hg|Hg];
          [|apply elem_of_cons in Hg as [->|Hg]].
        -- exists g. split; [apply elem_of_app; auto|exact Hjg].
        -- exists (group ++ [i]). split.
           ++ apply elem_of_app. right. apply list_elem_of_here.
           ++ apply elem_of_app. auto.
        -- exists g. split; [|exact Hjg].
           apply elem_of_app. right. now apply list_elem_of_further.
    + assert (forall g', g' ∈ pre ++ group :: post ->
                distinctColumns (alter (setColumn col) i slots) g') as Hold.
      { intros g' Hg'. apply distinctColumns_alter; [|now apply Hdist].
        intros j Hj. now apply (Hlt' g'). }
      intros g Hg.
      apply elem_of_app in Hg as [Hg|Hg];
        [|apply elem_of_cons in Hg as [->|Hg]].
      * apply Hold, elem_of_app. auto.
      * assert (group ∈ pre ++ group :: post) as Hgroup
          by (apply elem_of_app; right; apply list_elem_of_here).
        assert (forall j, j ∈ group -> j <> i) as Hni
          by (intros j Hj ->; specialize (Hlt' group i Hgroup Hj); lia).
        intros a b sa sb Ha Hb Hab Hsa Hsb Hov.
        apply elem_of_app in Ha as [Ha|Ha], Hb as [Hb|Hb].
        -- apply (Hold group Hgroup a b sa sb); auto.
        -- apply list_elem_of_singleton in Hb as ->.
           rewrite list_lookup_alter_eq, Hslot in Hsb. injection Hsb as <-.
           rewrite list_lookup_alter_ne in Hsa by (apply not_eq_sym, Hni, Ha).
           pose proof (groupSome_false _ _ _ a sa Hfree Ha Hsa) as Hf.
           cbn in Hf. rewrite overlaps_symm in Hov.
           change (overlaps (setColumn col slot) sa) with (overlaps slot sa)
             in Hov.
           rewrite Hov, andb_true_r in Hf. apply Nat.eqb_neq in Hf.
           exact Hf.
        -- apply list_elem_of_singleton in Ha as ->.
           rewrite list_lookup_alter_eq, Hslot in Hsa. injection Hsa as <-.
           rewrite list_lookup_alter_ne in Hsb by (apply not_eq_sym, Hni, Hb).
           pose proof (groupSome_false _ _ _ b sb Hfree Hb Hsb) as Hf.
           cbn in Hf.
           change (overlaps (setColumn col slot) sb) with (overlaps slot sb)
             in Hov.
           rewrite Hov, andb_true_r in Hf. apply Nat.eqb_neq in Hf.
           cbn. intros E. apply Hf. now symmetry.
        -- apply list_elem_of_singleton in Ha as ->.
           apply list_elem_of_singleton in Hb as ->. congruence.
      * apply Hold, elem_of_app. right. now apply list_elem_of_further.
  - split; [|split].
    + intros g j Hg Hj. apply elem_of_app in Hg as [Hg|Hg].
      * specialize (Hlt g j Hg Hj). lia.
      * apply list_elem_of_singleton in Hg as ->.
        apply list_elem_of_singleton in Hj as ->. lia.
    + intros j Hj. destruct (Nat.eq_dec j i) as [->|Hne].
      * exists [i]. split; [|apply list_elem_of_here].
        apply elem_of_app. right. apply list_elem_of_here.
      * destruct (Hcov j) as (g & Hg & Hjg); [lia|].
        exists g. split; [apply elem_of_app; auto|exact Hjg].
    + intros g Hg. apply elem_of_app in Hg as [Hg|Hg].
      * apply distinctColumns_alter; [|now apply Hdist].
        intros j Hj. now apply (Hlt g).
      * apply list_elem_of_singleton in Hg as ->.
        intros a b sa sb Ha Hb Hab.
        apply list_elem_of_singleton in Ha as ->.
        apply list_elem_of_singleton in Hb as ->. congruence.
Qed.

Lemma assignColumns_placed n : forall i slots groups slots' groups',
  placed slots groups i ->
  assignColumns (seq i n) slots groups = Some (slots', groups') ->
  placed slots' groups' (i + n).
Proof.
  induction n as [|n IH]; intros i slots groups slots' groups' Hpl;
    cbn [seq assignColumns].
  - intros [= <- <-]. now rewrite Nat.add_0_r.
  - destruct (slots !! i) as [slot|] eqn:Hslot; [|discriminate].
    pose proof (placed_step slots groups i slot Hpl Hslot) as Hstep.
    destruct (placeInGroups slots i slot groups) as [[[col groups1]|]|];
      [|discriminate|];
      intros H; apply IH in H; auto;
      now replace (i + S n)%nat with (S i + n)%nat by lia.
Qed.

Lemma placed_nil slots : placed slots [] 0.
Proof.
  split; [|split].
  - intros g j Hg. inversion Hg.
  - intros j Hj. lia.
  - intros g Hg. inversion Hg.
Qed.

Lemma distinctColumns_slotPlace (l1 l2 : list Slot) group :
  slotPlace <$> l1 = slotPlace <$> l2 ->
  distinctColumns l2 group -> distinctColumns l1 group.
Proof.
  intros Heq Hd a b sa sb Ha Hb Hab Hsa Hsb Hov.
  assert (forall j s, l1 !! j = Some s ->
                      exists s', l2 !! j = Some s' /\ slotPlace s = slotPlace s')
    as Hlook.
  { intros j s Hs.
    assert ((slotPlace <$> l2) !! j = Some (slotPlace s)) as H
      by (rewrite <- Heq, list_lookup_fmap, Hs; reflexivity).
    rewrite list_lookup_fmap in H.
    destruct (l2 !! j) as [s'|]; [|discriminate].
    cbn in H. injection H as H1 H2 H3. exists s'. split; [reflexivity|].
    unfold slotPlace. congruence. }
  destruct (Hlook a sa Hsa) as (sa' & Hsa' & Ea).
  destruct (Hlook b sb Hsb) as (sb' & Hsb' & Eb).
  rewrite (overlaps_slotPlace _ _ _ _ Ea Eb) in Hov.
  specialize (Hd a b sa' sb' Ha Hb Hab Hsa' Hsb' Hov).
  unfold slotPlace in Ea, Eb. congruence.
Qed.

Lemma setTotals_lookup n group : forall (slots : list Slot) j,
  fold_left (fun (slots : list Slot) k => alter (setTotalColumns n) k slots)
    group slots !! j
  = if decide (j ∈ group) then setTotalColumns n <$> slots !! j
    else slots !! j.
Proof.
  induction group as [|k group IH]; intros slots j; cbn [fold_left].
  - case_decide as H; [inversion H|reflexivity].
  - rewrite IH. destruct (decide (k = j)) as [->|Hne].
    + rewrite list_lookup_alter_eq.
      destruct (decide (j ∈ j :: group)) as [_|H];
        [|exfalso; apply H, list_elem_of_here].
      destruct (decide (j ∈ group)); [|reflexivity].
      now destruct (slots !! j).
    + rewrite list_lookup_alter_ne by exact Hne.
      repeat case_decide; try reflexivity.
      * exfalso. match goal with H : _ ∉ _ :: _ |- _ => apply H end.
        now apply list_elem_of_further.
      * exfalso.
        match goal with H : _ ∈ _ :: _ |- _ =>
          apply elem_of_cons in H as [?|?]; [congruence|contradiction] end.
Qed.

Lemma maxCol_gt slots group j s :
  j ∈ group -> slots !! j = Some s -> (column s < maxCol slots group)%nat.
Proof.
  unfold maxCol. intros Hj Hs.
  induction group as [|k group IH]; [inversion Hj|].
  cbn [fmap list_fmap foldr].
  apply elem_of_cons in Hj as [<-|Hj].
  - rewrite Hs. lia.
  - specialize (IH Hj). lia.
Qed.

(** After the second pass every slot of a group lies inside the columns
    of its group. *)
Lemma writeTotals_fits groups : forall (slots : list Slot) j,
  inGroups j groups
  \/ (forall s, slots !! j = Some s -> (column s < totalColumns s)%nat) ->
  forall s, writeTotals slots groups !! j = Some s ->
            (column s < totalColumns s)%nat.
Proof.
  unfold writeTotals.
  induction groups as [|group groups IH]; intros slots j Hj; cbn [fold_left].
  - destruct Hj as [(g & Hg & _)|Hj]; [inversion Hg|exact Hj].
  - apply IH.
    destruct (decide (j ∈ group)) as [Hin|Hnin].
    + right. intros s. rewrite setTotals_lookup, decide_True by exact Hin.
      destruct (slots !! j) as [s0|] eqn:Hs0; [|discriminate].
      intros [= <-]. cbn. now apply (maxCol_gt slots group j).
    + destruct Hj as [(g & Hg & Hjg)|Hj].
      * left. apply elem_of_cons in Hg as [->|Hg]; [contradiction|].
        exists g. auto.
      * right. intros s. rewrite setTotals_lookup, decide_False by exact Hnin.
        apply Hj.
Qed.

(** *** Groups do not overlap each other *)

Lemma Qltb_lt a b : Qltb a b = true <-> (a < b)%Q.
Proof.
  unfold Qltb. rewrite negb_true_iff. split.
  - intros H. apply Qnot_le_lt. intros Hle. apply Qle_bool_iff in Hle.
    congruence.
  - intros H. destruct (Qle_bool b a) eqn:E; [|reflexivity].
    apply Qle_bool_iff in E. lra.
Qed.

Lemma overlaps_true a b :
  overlaps a b = true
  <-> (startHour a < endHour b)%Q /\ (startHour b < endHour a)%Q.
Proof. unfold overlaps. now rewrite andb_true_iff, !Qltb_lt. Qed.

(** Two slots that begin no later than a third one and overlap it
    overlap each other. *)
Lemma overlaps_chain s a b :
  (startHour a <= startHour s)%Q -> (startHour b <= startHour s)%Q ->
  overlaps s a = true -> overlaps s b = true -> overlaps a b = true.
Proof.
  rewrite !overlaps_true. intros Ha Hb [Ha1 Ha2] [Hb1 Hb2]. split; lra.
Qed.

Lemma sortsBefore_le x y :
  sortsBefore x y = true -> (startHour x <= startHour y)%Q.
Proof.
  unfold sortsBefore. destruct (Qeq_bool _ _) eqn:E; cbn [negb].
  - intros _. apply Qeq_bool_iff in E. lra.
  - intros H. apply Qltb_lt in H. lra.
Qed.

Lemma not_sortsBefore_le x y :
  sortsBefore x y = false -> (startHour y <= startHour x)%Q.
Proof.
  unfold sortsBefore. destruct (Qeq_bool _ _) eqn:E; cbn [negb].
  - intros _. apply Qeq_bool_iff in E. lra.
  - intros H. destruct (Qlt_le_dec (startHour x - startHour y) 0) as [Hlt|Hle].
    + apply Qltb_lt in Hlt. congruence.
    + lra.
Qed.

#[local] Abbreviation startsBefore :=
  (fun a b : Slot => (startHour a <= startHour b)%Q).

Lemma insertSorted_sorted x l :
  StronglySorted startsBefore l -> StronglySorted startsBefore (insertSorted x l).
Proof.
  induction l as [|y l IH]; intros Hs; cbn [insertSorted].
  - repeat constructor.
  - apply StronglySorted_inv in Hs as [Hs Hy].
    destruct (sortsBefore x y) eqn:Hxy.
    + constructor; [constructor; assumption|].
      apply sortsBefore_le in Hxy. constructor; [exact Hxy|].
      eapply Forall_impl; [exact Hy|]. cbn. intros z Hz. lra.
    + constructor; [now apply IH|].
      apply not_sortsBefore_le in Hxy.
      rewrite (insertSorted_Permutation x l). constructor; assumption.
Qed.

Lemma sortSlots_StronglySorted l : StronglySorted startsBefore (sortSlots l).
Proof.
  unfold sortSlots.
  assert (forall acc, StronglySorted startsBefore acc ->
            StronglySorted startsBefore
              (fold_left (fun sorted x => insertSorted x sorted) l acc)) as H.
  { induction l as [|x l IH]; intros acc Hacc; cbn [fold_left]; [exact Hacc|].
    apply IH. now apply insertSorted_sorted. }
  apply H. constructor.
Qed.

Lemma StronglySorted_lookup (l : list Slot) :
  StronglySorted startsBefore l -> sortedByStart l.
Proof.
  induction l as [|x l IH]; intros Hs j k sj sk Hjk Hj Hk.
  - discriminate.
  - apply StronglySorted_inv in Hs as [Hs Hx].
    destruct k as [|k]; [lia|]. cbn in Hk.
    destruct j as [|j]; cbn in Hj.
    + injection Hj as <-. rewrite Forall_forall in Hx.
      apply Hx. eapply list_elem_of_lookup_2. exact Hk.
    + apply (IH Hs j k); [lia|assumption|assumption].
Qed.

(** The slots are sorted by their start hours. *)
Lemma sortSlots_sorted l : sortedByStart (sortSlots l).
Proof. apply StronglySorted_lookup, sortSlots_StronglySorted. Qed.

Lemma sortedByStart_alter slots col i :
  sortedByStart slots -> sortedByStart (alter (setColumn col) i slots).
Proof.
  intros Hs j k sj sk Hjk Hj Hk.
  assert (forall n s, alter (setColumn col) i slots !! n = Some s ->
            exists s', slots !! n = Some s' /\ startHour s = startHour s')
    as Hlook.
  { intros n s. destruct (decide (i = n)) as [->|Hne].
    - rewrite list_lookup_alter_eq.
      destruct (slots !! n) as [s'|]; [|discriminate].
      intros [= <-]. eauto.
    - rewrite list_lookup_alter_ne by exact Hne. eauto. }
  destruct (Hlook j sj Hj) as (sj' & Hj' & ->).
  destruct (Hlook k sk Hk) as (sk' & Hk' & ->).
  now apply (Hs j k).
Qed.

(** Where a slot is placed, with what the search passed over: the
    groups in front of its group hold no slot that it overlaps, and
    its group holds one. *)
Lemma placeInGroups_at slots i slot groups col groups' :
  placeInGroups slots i slot groups = Some (Some (col, groups')) ->
  exists p group,
    groups !! p = Some group
    /\ groups' = <[ p := group ++ [i] ]> groups
    /\ groupSome slots group (fun g => overlaps slot g) = true
    /\ (forall q h, (q < p)%nat -> groups !! q = Some h ->
                    groupSome slots h (fun g => overlaps slot g) = false).
Proof.
  revert col groups'.
  induction groups as [|group rest IH]; intros col groups';
    cbn [placeInGroups]; [discriminate|].
  destruct (groupSome slots group (fun g => overlaps slot g)) eqn:Hov.
  - destruct (findColumn _ _ _ _ _) as [col'|]; [|discriminate].
    intros [= <- <-]. exists 0%nat, group.
    split; [reflexivity|]. split; [reflexivity|]. split; [exact Hov|].
    intros q h Hq. lia.
  - destruct (placeInGroups slots i slot rest) as [[[col' rest']|]|];
      [|discriminate|discriminate].
    intros [= <- <-].
    destruct (IH col' rest' eq_refl) as (p & g & Hp & -> & Hg & Hpre).
    exists (S p), g. split; [exact Hp|]. split; [reflexivity|].
    split; [exact Hg|].
    intros [|q] h Hq Hh; cbn in Hh.
    + now injection Hh as <-.
    + apply (Hpre q h); [lia|exact Hh].
Qed.

Lemma apart_step slots groups i slot :
  placed slots groups i ->
  apart slots groups ->
  sortedByStart slots ->
  slots !! i = Some slot ->
  match placeInGroups slots i slot groups with
  | Some (Some (col, groups')) => apart (alter (setColumn col) i slots) groups'
  | None => apart (alter (setColumn 0) i slots) (groups ++ [[i]])
  | Some None => True
  end.
Proof.
  intros (Hlt & _ & _) Hap Hsorted Hslot.
  assert (forall a ga j, groups !! a = Some ga -> j ∈ ga -> (j < i)%nat)
    as Hbelow.
  { intros a ga j Ha Hj. apply (Hlt ga j); [|exact Hj].
    eapply list_elem_of_lookup_2. exact Ha. }
  (* a slot below [i] against the slot [i] *)
  assert (forall col j sj,
            (j < i)%nat ->
            alter (setColumn col) i slots !! j = Some sj ->
            slots !! j = Some sj /\ (startHour sj <= startHour slot)%Q)
    as Hold.
  { intros col j sj Hj Hsj.
    rewrite list_lookup_alter_ne in Hsj by lia.
    split; [exact Hsj|]. now apply (Hsorted j i). }
  assert (forall col si,
            alter (setColumn col) i slots !! i = Some si ->
            forall s, overlaps si s = overlaps slot s) as Hnew.
  { intros col si. rewrite list_lookup_alter_eq, Hslot.
    intros [= <-] s. reflexivity. }
  destruct (placeInGroups slots i slot groups) as [[[col groups']|]|] eqn:Hp;
    [|exact I|].
  - apply placeInGroups_at in Hp
      as (p & group & Hgroup & -> & Hsome & Hpre).
    assert (p < length groups)%nat as Hplen
      by (eapply lookup_lt_Some; exact Hgroup).
    (* the slot [i] against a slot of another group *)
    assert (forall b gb j sj,
              groups !! b = Some gb -> b <> p -> j ∈ gb ->
              slots !! j = Some sj -> overlaps slot sj = false) as Hother.
    { intros b gb j sj Hb Hbp Hj Hsj.
      destruct (Nat.lt_ge_cases b p) as [Hlo|Hhi].
      - apply (groupSome_false _ _ _ j sj (Hpre b gb Hlo Hb) Hj Hsj).
      - destruct (overlaps slot sj) eqn:Hov; [|reflexivity].
        apply groupSome_exists in Hsome as (m & sm & Hm & Hsm & Hovm).
        destruct (Hap p b group gb m j sm sj) as [_ Hno]; auto.
        assert (overlaps sm sj = true); [|congruence].
        apply (overlaps_chain slot); auto.
        + apply (Hsorted m i); auto. now apply (Hbelow p group).
        + apply (Hsorted j i); auto. now apply (Hbelow b gb). }
    intros a b ga gb x y sx sy Ha Hb Hab Hx Hy Hsx Hsy.
    destruct (decide (a = p)) as [->|Hap'];
      [|destruct (decide (b = p)) as [->|Hbp]].
    + rewrite list_lookup_insert_eq in Ha by exact Hplen.
      injection Ha as <-.
      rewrite list_lookup_insert_ne in Hb by congruence.
      assert (y < i)%nat as Hyi by now apply (Hbelow b gb).
      destruct (Hold col y sy Hyi Hsy) as [Hsy' _].
      apply elem_of_app in Hx as [Hx|Hx].
      * assert (x < i)%nat as Hxi by now apply (Hbelow p group).
        destruct (Hold col x sx Hxi Hsx) as [Hsx' _].
        now apply (Hap p b group gb).
      * apply list_elem_of_singleton in Hx as ->. split; [lia|].
        rewrite (Hnew col sx Hsx). apply (Hother b gb y); auto.
    + rewrite list_lookup_insert_eq in Hb by exact Hplen.
      injection Hb as <-.
      rewrite list_lookup_insert_ne in Ha by congruence.
      assert (x < i)%nat as Hxi by now apply (Hbelow a ga).
      destruct (Hold col x sx Hxi Hsx) as [Hsx' _].
      apply elem_of_app in Hy as [Hy|Hy].
      * assert (y < i)%nat as Hyi by now apply (Hbelow p group).
        destruct (Hold col y sy Hyi Hsy) as [Hsy' _].
        now apply (Hap a p ga group).
      * apply list_elem_of_singleton in Hy as ->. split; [lia|].
        rewrite overlaps_symm, (Hnew col sy Hsy).
        apply (Hother a ga x); auto.
    + rewrite list_lookup_insert_ne in Ha by congruence.
      rewrite list_lookup_insert_ne in Hb by congruence.
      assert (x < i)%nat as Hxi by now apply (Hbelow a ga).
      assert (y < i)%nat as Hyi by now apply (Hbelow b gb).
      destruct (Hold col x sx Hxi Hsx) as [Hsx' _].
      destruct (Hold col y sy Hyi Hsy) as [Hsy' _].
      now apply (Hap a b ga gb).
  - pose proof (placeInGroups_None _ _ _ _ Hp) as Hnone.
    assert (forall b gb j sj,
              groups !! b = Some gb -> j ∈ gb ->
              slots !! j = Some sj -> overlaps slot sj = false) as Hother.
    { intros b gb j sj Hb Hj Hsj.
      apply (groupSome_false _ _ _ j sj (Hnone gb
               (list_elem_of_lookup_2 _ _ _ Hb)) Hj Hsj). }
    intros a b ga gb x y sx sy Ha Hb Hab Hx Hy Hsx Hsy.
    apply lookup_app_Some in Ha as [Ha|[Hla Ha]],
                             Hb as [Hb|[Hlb Hb]].
    + assert (x < i)%nat as Hxi by now apply (Hbelow a ga).
      assert (y < i)%nat as Hyi by now apply (Hbelow b gb).
      destruct (Hold 0%nat x sx Hxi Hsx) as [Hsx' _].
      destruct (Hold 0%nat y sy Hyi Hsy) as [Hsy' _].
      now apply (Hap a b ga gb).
    + apply list_lookup_singleton_Some in Hb as [_ <-].
      apply list_elem_of_singleton in Hy as ->.
      assert (x < i)%nat as Hxi by now apply (Hbelow a ga).
      destruct (Hold 0%nat x sx Hxi Hsx) as [Hsx' _].
      split; [lia|].
      rewrite overlaps_symm, (Hnew 0%nat sy Hsy).
      apply (Hother a ga x); auto.
    + apply list_lookup_singleton_Some in Ha as [_ <-].
      apply list_elem_of_singleton in Hx as ->.
      assert (y < i)%nat as Hyi by now apply (Hbelow b gb).
      destruct (Hold 0%nat y sy Hyi Hsy) as [Hsy' _].
      split; [lia|].
      rewrite (Hnew 0%nat sx Hsx). apply (Hother b gb y); auto.
    + apply list_lookup_singleton_Some in Ha as [Ha0 _].
      apply list_lookup_singleton_Some in Hb as [Hb0 _]. lia.
Qed.

Lemma assignColumns_apart n : forall i slots groups slots' groups',
  placed slots groups i ->
  apart slots groups ->
  sortedByStart slots ->
  assignColumns (seq i n) slots groups = Some (slots', groups') ->
  apart slots' groups'.
Proof.
  induction n as [|n IH]; intros i slots groups slots' groups' Hpl Hap Hs;
    cbn [seq assignColumns].
  - now intros [= <- <-].
  - destruct (slots !! i) as [slot|] eqn:Hslot; [|discriminate].
    pose proof (placed_step slots groups i slot Hpl Hslot) as Hstep.
    pose proof (apart_step slots groups i slot Hpl Hap Hs Hslot) as Hastep.
    destruct (placeInGroups slots i slot groups) as [[[col groups1]|]|];
      [|discriminate|];
      intros H; apply IH in H; auto using sortedByStart_alter.
Qed.

Lemma apart_nil slots : apart slots [].
Proof. intros a b ga gb i j si sj Ha. discriminate. Qed.

(** *** The number of columns of a group *)

Lemma maxCol_columns (l1 l2 : list Slot) group :
  column <$> l1 = column <$> l2 -> maxCol l1 group = maxCol l2 group.
Proof.
  intros Heq. unfold maxCol. f_equal. f_equal.
  apply list_fmap_ext. intros _ j _.
  assert ((column <$> l1) !! j = (column <$> l2) !! j) as H by now rewrite Heq.
  rewrite !list_lookup_fmap in H.
  destruct (l1 !! j), (l2 !! j); cbn in H; congruence.
Qed.

Lemma writeTotals_untouched groups : forall (slots : list Slot) j,
  (forall group, group ∈ groups -> j ∉ group) ->
  writeTotals slots groups !! j = slots !! j.
Proof.
  unfold writeTotals.
  induction groups as [|group groups IH]; intros slots j Hj; cbn [fold_left];
    [reflexivity|].
  rewrite IH by (intros g Hg; apply Hj; now apply list_elem_of_further).
  rewrite setTotals_lookup, decide_False; [reflexivity|].
  apply Hj, list_elem_of_here.
Qed.

(** The second pass writes to a slot the number of columns of its
    group. *)
Lemma writeTotals_lookup groups : forall (slots : list Slot) a ga j s,
  groups !! a = Some ga -> j ∈ ga ->
  (forall c gc, groups !! c = Some gc -> j ∈ gc -> c = a) ->
  writeTotals slots groups !! j = Some s ->
  totalColumns s = maxCol slots ga.
Proof.
  induction groups as [|group groups IH]; intros slots a ga j s Ha Hj Huniq;
    [discriminate|].
  change (writeTotals slots (group :: groups))
    with (writeTotals
            (fold_left (fun (l : list Slot) k =>
                          alter (setTotalColumns (maxCol slots group)) k l)
               group slots) groups).
  assert (forall n (l : list Slot),
            column <$> fold_left (fun (slots : list Slot) k =>
                                    alter (setTotalColumns n) k slots)
                         group l
            = column <$> l) as Hcols
    by (intros n l; now apply setTotals_fold).
  destruct a as [|a]; cbn in Ha.
  - injection Ha as ->.
    rewrite writeTotals_untouched.
    + rewrite setTotals_lookup, decide_True by exact Hj.
      destruct (slots !! j); [|discriminate]. now intros [= <-].
    + intros g Hg Hjg. apply list_elem_of_lookup in Hg as (c & Hc).
      specialize (Huniq (S c) g Hc Hjg). discriminate.
  - intros Hs.
    rewrite (IH _ a ga j s Ha Hj) by
      (try exact Hs; intros c gc Hc Hjc;
       specialize (Huniq (S c) gc Hc Hjc); lia).
    apply maxCol_columns, Hcols.
Qed.

Variables getHours getMinutes : string -> Z.

#[local] Abbreviation layoutSlots := (layoutSlots getHours getMinutes).

Lemma layoutSlots_passes events slots :
  layoutSlots events = Some slots ->
  exists slots' groups,
    slots = writeTotals slots' groups
    /\ placed slots' groups (length slots')
    /\ length slots = length slots'.
Proof.
  unfold Page.layoutSlots, layoutOf.
  set (sorted := sortSlots (Page.toSlot getHours getMinutes <$> events)).
  destruct (assignColumns (seq 0 (length sorted)) sorted [])
    as [[slots' groups]|] eqn:Hassign; [|discriminate].
  intros [= <-]. exists slots', groups. split; [reflexivity|].
  pose proof (assignColumns_placed _ _ _ _ _ _ (placed_nil sorted) Hassign)
    as Hpl.
  assert (length slots' = length sorted) as Hlen.
  { apply assignColumns_slotTimes in Hassign.
    apply (f_equal length) in Hassign. now rewrite !length_fmap in Hassign. }
  rewrite Hlen. split; [exact Hpl|].
  rewrite <- Hlen.
  pose proof (writeTotals_same (fun s => s.(column)) groups
                (fun _ _ => eq_refl) slots') as H.
  apply (f_equal length) in H. now rewrite !length_fmap in H.
Qed.

(** X20. No slot sticks out of its group: in every layout the column of
    a slot is below the number of columns written to it, so that the
    slot, [column] widths from the left and one width wide, ends inside
    the day. *)
Theorem layoutSlots_column_below_total events slots s :
  layoutSlots events = Some slots ->
  s ∈ slots ->
  (column s < totalColumns s)%nat.
Proof.
  intros Hlay Hs.
  apply layoutSlots_passes in Hlay as (slots' & groups & -> & Hpl & Hlen).
  apply list_elem_of_lookup in Hs as (j & Hj).
  apply (writeTotals_fits groups slots' j); [|exact Hj].
  left. destruct Hpl as (_ & Hcov & _). apply Hcov.
  apply lookup_lt_Some in Hj. lia.
Qed.

Lemma lookup_slotPlace (l1 l2 : list Slot) j s :
  slotPlace <$> l1 = slotPlace <$> l2 ->
  l1 !! j = Some s ->
  exists s', l2 !! j = Some s' /\ slotPlace s = slotPlace s'.
Proof.
  intros Heq Hs.
  assert ((slotPlace <$> l2) !! j = Some (slotPlace s)) as H
    by (rewrite <- Heq, list_lookup_fmap, Hs; reflexivity).
  rewrite list_lookup_fmap in H.
  destruct (l2 !! j) as [s'|]; [|discriminate].
  cbn in H. injection H as H1 H2 H3. exists s'. split; [reflexivity|].
  unfold slotPlace. congruence.
Qed.

Lemma layoutSlots_groups events slots :
  layoutSlots events = Some slots ->
  exists slots' groups,
    slots = writeTotals slots' groups
    /\ placed slots' groups (length slots')
    /\ apart slots' groups.
Proof.
  unfold Page.layoutSlots, layoutOf.
  set (sorted := sortSlots (Page.toSlot getHours getMinutes <$> events)).
  destruct (assignColumns (seq 0 (length sorted)) sorted [])
    as [[slots' groups]|] eqn:Hassign; [|discriminate].
  intros [= <-]. exists slots', groups. split; [reflexivity|].
  pose proof (assignColumns_placed _ _ _ _ _ _ (placed_nil sorted) Hassign)
    as Hpl.
  assert (length slots' = length sorted) as Hlen.
  { apply assignColumns_slotTimes in Hassign.
    apply (f_equal length) in Hassign. now rewrite !length_fmap in Hassign. }
  rewrite Hlen. split; [exact Hpl|].
  apply (assignColumns_apart _ _ _ _ _ _ (placed_nil sorted)
           (apart_nil sorted) (sortSlots_sorted _) Hassign).
Qed.

(** X21. No two overlapping events are drawn over each other: two
    different slots of a layout whose hour ranges intersect hold
    different columns out of the same number of columns. *)
Theorem layoutSlots_no_shared_column events slots i j si sj :
  Page.layoutSlots getHours getMinutes events = Some slots ->
  slots !! i = Some si ->
  slots !! j = Some sj ->
  i <> j ->
  overlaps si sj = true ->
  column si <> column sj /\ totalColumns si = totalColumns sj.
Proof.
  intros Hlay Hi Hj Hij Hov.
  apply layoutSlots_groups in Hlay
    as (slots' & groups & -> & (Hlt & Hcov & Hdist) & Hap).
  assert (slotPlace <$> writeTotals slots' groups = slotPlace <$> slots')
    as Hsame by now apply writeTotals_same.
  destruct (lookup_slotPlace _ _ _ _ Hsame Hi) as (si' & Hi' & Ei).
  destruct (lookup_slotPlace _ _ _ _ Hsame Hj) as (sj' & Hj' & Ej).
  rewrite (overlaps_slotPlace _ _ _ _ Ei Ej) in Hov.
  destruct (Hcov i) as (gi & Hgi & Higi); [now apply lookup_lt_Some in Hi'|].
  destruct (Hcov j) as (gj & Hgj & Hjgj); [now apply lookup_lt_Some in Hj'|].
  apply list_elem_of_lookup in Hgi as (a & Ha).
  apply list_elem_of_lookup in Hgj as (b & Hb).
  destruct (decide (a = b)) as [->|Hab].
  - rewrite Ha in Hb. injection Hb as <-.
    split.
    + assert (column si' <> column sj') as Hcol.
      { apply (Hdist gi (list_elem_of_lookup_2 _ _ _ Ha) i j); auto. }
      unfold slotPlace in Ei, Ej. congruence.
    + rewrite (writeTotals_lookup groups slots' b gi i si Ha Higi),
        (writeTotals_lookup groups slots' b gi j sj Ha Hjgj); auto.
      * intros c gc Hc Hjc. destruct (decide (c = b)) as [->|Hne]; [auto|].
        destruct (Hap c b gc gi j j sj' sj') as [Hjj _]; auto.
        contradiction.
      * intros c gc Hc Hic. destruct (decide (c = b)) as [->|Hne]; [auto|].
        destruct (Hap c b gc gi i i si' si') as [Hii _]; auto.
        contradiction.
  - destruct (Hap a b gi gj i j si' sj') as [_ Hno]; auto. congruence.
Qed.

End LayoutGroups.


Section LayoutExtraWitnesses.

Import Lib Page.

Lemma layoutSlots_column_below_total_witness :
  Forall (fun s => (column s < totalColumns s)%nat)
    (default [] (layoutSlots Samples.utcHours Samples.utcMinutes
                   [Samples.work1045; Samples.work9; Samples.personal10;
                    Samples.work1030])).
Proof.
  apply Forall_forall. intros s Hs.
  refine (layoutSlots_column_below_total Samples.utcHours Samples.utcMinutes
            [Samples.work1045; Samples.work9; Samples.personal10;
             Samples.work1030] _ s _ Hs).
  vm_compute. reflexivity.
Defined.

(** The dentist from 10:00 and the standup from 10:30, the second and
    the third slot of the morning, share the day in different
    columns. *)
Lemma layoutSlots_no_shared_column_witness :
  exists si sj,
    default [] (layoutSlots Samples.utcHours Samples.utcMinutes
                  [Samples.work1045; Samples.work9; Samples.personal10;
                   Samples.work1030]) !! 1%nat = Some si
    /\ default [] (layoutSlots Samples.utcHours Samples.utcMinutes
                     [Samples.work1045; Samples.work9; Samples.personal10;
                      Samples.work1030]) !! 2%nat = Some sj
    /\ event si = Samples.personal10
    /\ event sj = Samples.work1030
    /\ column si <> column sj
    /\ totalColumns si = totalColumns sj.
Proof.
  eexists _, _.
  split; [vm_compute; reflexivity|]. split; [vm_compute; reflexivity|].
  split; [reflexivity|]. split; [reflexivity|].
  refine (layoutSlots_no_shared_column Samples.utcHours Samples.utcMinutes
            [Samples.work1045; Samples.work9; Samples.personal10;
             Samples.work1030] _ 1%nat 2%nat _ _ _ _ _ _ _).
  - vm_compute. reflexivity.
  - reflexivity.
  - reflexivity.
  - lia.
  - vm_compute. reflexivity.
Defined.

End LayoutExtraWitnesses.

(** ** Sessions *)

Section SessionFacts.

Import Session.

(** X22. Login and logout against the middleware: the cookie that a
    granted [POST /api/auth] sets makes the middleware let every path
    pass, whatever the cookies were before; after [DELETE /api/auth]
    the middleware redirects every guarded path to [/login] and keeps
    the path in [redirect]. *)
Theorem login_logout_round_trip APP_PASSWORD body jar pathname :
  (status (authPOST APP_PASSWORD body) = 200 ->
   exists c,
     middleware pathname
       (applyCookie (change (authPOST APP_PASSWORD body)) jar) = Next c)
  /\ (guarded pathname = true ->
      middleware pathname (applyCookie (change authDELETE) jar)
      = Redirect "/login" (Some pathname)).
Proof.
  split.
  - intros Hok.
    assert (authPOST APP_PASSWORD body = grantAuth) as ->.
    { unfold authPOST in *. destruct body; [discriminate|].
      destruct (configured APP_PASSWORD); [|reflexivity].
      destruct (bool_decide _); [reflexivity|discriminate]. }
    unfold middleware. destruct (_ || _); [eauto|].
    cbn [grantAuth change applyCookie]. rewrite lookup_insert_eq.
    rewrite bool_decide_eq_true_2 by reflexivity. cbn. eauto.
  - unfold guarded, middleware. intros Hg.
    apply negb_true_iff in Hg. rewrite Hg.
    cbn [authDELETE change applyCookie]. rewrite lookup_delete_eq.
    reflexivity.
Qed.

(** X23. Who is let in: [POST /api/auth] answers 200 exactly when the
    body can be read and either no password is configured or the
    password of the body is the configured one; it then sets the
    cookie for thirty days, and in every other case it leaves the
    cookies alone. *)
Theorem authPOST_decision APP_PASSWORD body :
  let r := authPOST APP_PASSWORD body in
  (status r = 200
   <-> exists password,
         body = Password password
         /\ (configured APP_PASSWORD = None
             \/ exists p, configured APP_PASSWORD = Some p
                          /\ password = JStr p))
  /\ change r = (if status r =? 200
                 then SetCookie AUTH_COOKIE "authenticated" 2592000
                 else Keep).
Proof.
  unfold authPOST. destruct body as [|password]; cbn.
  - split; [|reflexivity]. split; [discriminate|].
    intros (? & [=] & _).
  - destruct (configured APP_PASSWORD) as [correct|] eqn:Hc.
    + destruct (bool_decide (password = JStr correct)) eqn:Hd; cbn.
      * apply bool_decide_eq_true in Hd as ->.
        split; [|reflexivity]. split; [|reflexivity]. intros _.
        exists (JStr correct). split; [reflexivity|]. right. eauto.
      * apply bool_decide_eq_false in Hd.
        split; [|reflexivity]. split; [discriminate|].
        intros (pw & [= <-] & [?|(p & [= ->] & ->)]); [discriminate|].
        contradiction.
    + cbn. split; [|reflexivity]. split; [|reflexivity]. eauto.
Qed.

(** X24. The reveal gate: a request to reveal is granted exactly when a
    reveal password is configured and the body carries it; without a
    configured password nobody can reveal; and the events handler
    reads the flag as set after a response of [POST
    /api/personal-reveal] exactly when the request was granted or the
    flag was set before, and as not set after [DELETE]. *)
Theorem reveal_gate PERSONAL_REVEAL_PASSWORD body jar :
  let r := revealPOST PERSONAL_REVEAL_PASSWORD body in
  (status r = 200
   <-> exists p, configured PERSONAL_REVEAL_PASSWORD = Some p
                 /\ body = Password (JStr p))
  /\ (personalRevealed (applyCookie (change r) jar) = true
      <-> status r = 200 \/ personalRevealed jar = true)
  /\ personalRevealed (applyCookie (change revealDELETE) jar) = false.
Proof.
  cbn zeta. split; [|split].
  - unfold revealPOST. destruct body as [|password]; cbn.
    + split; [discriminate|]. intros (? & _ & [=]).
    + destruct (configured PERSONAL_REVEAL_PASSWORD) as [correct|]; cbn.
      * destruct (bool_decide (password = JStr correct)) eqn:Hd; cbn.
        -- apply bool_decide_eq_true in Hd as ->. split; eauto.
        -- apply bool_decide_eq_false in Hd. split; [discriminate|].
           intros (p & [= <-] & [= ->]). contradiction.
      * split; [discriminate|]. intros (? & [=] & _).
  - unfold revealPOST. destruct body as [|password]; cbn.
    + split; [auto|]. intros [?|?]; [discriminate|assumption].
    + destruct (configured PERSONAL_REVEAL_PASSWORD) as [correct|]; cbn.
      * destruct (bool_decide (password = JStr correct)); cbn.
        -- unfold personalRevealed. rewrite lookup_insert_eq.
           rewrite bool_decide_eq_true_2 by reflexivity. split; auto.
        -- split; [auto|]. intros [?|?]; [discriminate|assumption].
      * split; [auto|]. intros [?|?]; [discriminate|assumption].
  - unfold personalRevealed. cbn. rewrite lookup_delete_eq. reflexivity.
Qed.

Lemma login_logout_round_trip_witness :
  exists c,
    middleware "/"
      (applyCookie (change (authPOST (Some "secret")
                              (Password (JStr "secret")))) ∅) = Next c.
Proof.
  refine (proj1 (login_logout_round_trip (Some "secret")
                   (Password (JStr "secret")) ∅ "/") _).
  reflexivity.
Defined.

End SessionFacts.

(** ** Masking and the overlap set, without placeholders *)

Section MaskingExtras.

Import Lib Events Page.

Variable getTime : string -> option Z.
Variables ignoredBaseIds ignoredEventIds : gset string.

#[local] Abbreviation overlapSet :=
  (getOverlappingEventIds getTime true ignoredBaseIds ignoredEventIds).

(** The tests of the detector that look at the id, the source and the
    times only. *)
Lemma publicFields_tests e e' :
  publicFields e = publicFields e' ->
  ev_id e = ev_id e'
  /\ isPersonal e = isPersonal e'
  /\ isWork e = isWork e'
  /\ isEventIgnored ignoredBaseIds ignoredEventIds e
     = isEventIgnored ignoredBaseIds ignoredEventIds e'
  /\ (forall x, intersects getTime e x = intersects getTime e' x)
  /\ (forall x, intersects getTime x e = intersects getTime x e').
Proof.
  unfold publicFields, isPersonal, isWork, isEventIgnored, intersects.
  intros [= -> -> -> _ _ -> _]. auto 10.
Qed.

Lemma jsOr_not_free v :
  v <> JStr "Free" -> v <> JStr "[Free]" ->
  jsOr v "No Title" <> JStr "Free" /\ jsOr v "No Title" <> JStr "[Free]".
Proof.
  unfold jsOr. destruct (truthy v); [auto|]. split; discriminate.
Qed.

(** A personal row that is no placeholder is no placeholder for the
    detector, revealed or masked. *)
Lemma convert_not_placeholder b apt e :
  (source apt = JStr "apple_calendar" ->
   subject apt <> JStr "Free" /\ subject apt <> JStr "[Free]") ->
  convert b apt = Some e ->
  isPersonal e = true ->
  isAllDayOrMultiDayFree getTime e = false.
Proof.
  intros Hfree Hconv Hpers. unfold convert in Hconv.
  destruct (toCalendarEvent (Some apt)) as [e0|] eqn:He0; [|discriminate].
  pose proof He0 as Hsome.
  apply toCalendarEvent_Some in Hsome as (_ & Hsrc & _).
  assert (ev_subject e0 = jsOr (subject apt) "No Title") as Hsubj.
  { unfold toCalendarEvent in He0.
    destruct (requiredString (id apt)); [|discriminate].
    destruct (requiredString (start_time apt)); [|discriminate].
    destruct (requiredString (end_time apt)); [|discriminate].
    destruct (requiredSource (source apt)); [|discriminate].
    injection He0 as <-. reflexivity. }
  unfold isAllDayOrMultiDayFree.
  destruct (bool_decide (source apt = JStr "apple_calendar") && negb b)
    eqn:Hmask; injection Hconv as <-.
  - reflexivity.
  - unfold isPersonal in Hpers. apply String.eqb_eq in Hpers.
    rewrite Hpers in Hsrc.
    destruct (jsOr_not_free (subject apt)) as [H1 H2]; try apply Hfree, Hsrc.
    rewrite Hsubj.
    rewrite (bool_decide_eq_true_2 _ H2), (bool_decide_eq_true_2 _ H1).
    reflexivity.
Qed.

Lemma convert_other b apt e :
  convert b apt = Some e ->
  exists e', convert (negb b) apt = Some e'
             /\ publicFields e = publicFields e'.
Proof.
  intros He. pose proof (convert_reveal apt) as H.
  destruct b; cbn [negb]; rewrite He in H.
  - destruct (convert false apt) as [e'|]; [|contradiction].
    exists e'. split; [reflexivity|apply H].
  - destruct (convert true apt) as [e'|]; [|contradiction].
    exists e'. split; [reflexivity|symmetry; apply H].
Qed.

Lemma overlap_reveal_subset b kept :
  (forall apt, apt ∈ kept -> source apt = JStr "apple_calendar" ->
               subject apt <> JStr "Free" /\ subject apt <> JStr "[Free]") ->
  overlapSet (omap (convert b) kept)
  ⊆ overlapSet (omap (convert (negb b)) kept).
Proof.
  intros Hfree i Hi.
  apply getOverlappingEventIds_spec in Hi as (p & w & Hp & Hw & Hint & Hid).
  apply elem_of_personalEventsOf in Hp as (Hp & Hpers & Hpign & _).
  apply elem_of_workEventsOf in Hw as (Hw & Hwork & Hwign).
  apply list_elem_of_omap in Hp as (aptp & Hinp & Hcp).
  apply list_elem_of_omap in Hw as (aptw & Hinw & Hcw).
  destruct (convert_other _ _ _ Hcp) as (p' & Hcp' & Ep).
  destruct (convert_other _ _ _ Hcw) as (w' & Hcw' & Ew).
  destruct (publicFields_tests p p' Ep) as (Hidp & Hpp & _ & Hip & Hl & _).
  destruct (publicFields_tests w w' Ew) as (Hidw & _ & Hww & Hiw & _ & Hr).
  apply getOverlappingEventIds_spec. exists p', w'.
  split; [|split; [|split]].
  - apply elem_of_personalEventsOf. split; [|split; [|split]].
    + apply list_elem_of_omap. eauto.
    + congruence.
    + congruence.
    + apply (convert_not_placeholder (negb b) aptp); [|exact Hcp'|congruence].
      now apply Hfree.
  - apply elem_of_workEventsOf. split; [|split].
    + apply list_elem_of_omap. eauto.
    + congruence.
    + congruence.
  - rewrite <- Hl, <- Hr. exact Hint.
  - rewrite <- Hidp, <- Hidw. exact Hid.
Qed.

Context {Store : Type}.
Variable selectAppointments : Store -> Z -> Z -> Reply (list Row).
Variable selectIgnoredBaseIds : Store -> Reply (list (option JsVal)).
Variable selectIgnoredEventIds : Store -> Reply (list (option JsVal)).

#[local] Abbreviation GET := (GET selectAppointments selectIgnoredBaseIds
                                  selectIgnoredEventIds).

(** X25. Masking independence where it holds: when no personal row that
    the store returns has the subject [Free] or [[Free]], the overlap
    set that the page computes from the response of the handler is the
    same with and without the reveal flag. *)
Theorem overlap_independent_of_masking daysAhead now store :
  (forall from to rows apt,
     data (selectAppointments store from to) = Some rows ->
     apt ∈ rows -> source apt = JStr "apple_calendar" ->
     subject apt <> JStr "Free" /\ subject apt <> JStr "[Free]") ->
  overlapOfResponse getTime ignoredBaseIds ignoredEventIds
    (fst (GET daysAhead true now store))
  = overlapOfResponse getTime ignoredBaseIds ignoredEventIds
      (fst (GET daysAhead false now store)).
Proof.
  intros Hfree. unfold Events.GET.
  destruct daysAhead as [d|]; [|reflexivity].
  destruct (_ || _); [reflexivity|].
  set (reply := selectAppointments store (queryStart now) (queryEnd now d)).
  destruct (error reply); [reflexivity|]. cbn [fst].
  set (B := idSet (data (selectIgnoredBaseIds store))).
  set (E := idSet (data (selectIgnoredEventIds store))).
  unfold respond.
  destruct (filterIgnored B E (default [] (data reply))) as [kept|] eqn:Hk;
    [|reflexivity].
  cbn [overlapOfResponse].
  assert (forall apt, apt ∈ kept -> source apt = JStr "apple_calendar" ->
            subject apt <> JStr "Free" /\ subject apt <> JStr "[Free]")
    as Hkept.
  { intros apt Hin.
    destruct (forallb hasStringId (default [] (data reply))) eqn:Hs.
    - rewrite (filterIgnored_strings _ _ _ Hs) in Hk. injection Hk as <-.
      apply list_elem_of_In, filter_In in Hin as [Hin _].
      apply list_elem_of_In in Hin.
      destruct (data reply) as [rows|] eqn:Hrows; [|inversion Hin].
      now apply (Hfree _ _ rows apt Hrows).
    - now rewrite (filterIgnored_throws _ _ _ Hs) in Hk. }
  apply set_eq. intros i. split.
  - apply (overlap_reveal_subset true kept Hkept).
  - apply (overlap_reveal_subset false kept Hkept).
Qed.

End MaskingExtras.

Section MaskingExtraWitnesses.

Import Lib Events Page.

(** With the dentist over the standup both are flagged, revealed or
    masked. *)
Lemma overlap_independent_of_masking_witness :
  overlapOfResponse Samples.getTime ∅ ∅
    (fst (GET Samples.selectAppointments Samples.selectIgnoredBaseIds
            Samples.selectIgnoredEventIds (Some 30) true Samples.dec1
            Samples.busyStore))
  = overlapOfResponse Samples.getTime ∅ ∅
      (fst (GET Samples.selectAppointments Samples.selectIgnoredBaseIds
              Samples.selectIgnoredEventIds (Some 30) false Samples.dec1
              Samples.busyStore))
  /\ overlapOfResponse Samples.getTime ∅ ∅
       (fst (GET Samples.selectAppointments Samples.selectIgnoredBaseIds
               Samples.selectIgnoredEventIds (Some 30) false Samples.dec1
               Samples.busyStore))
     = {[ "abc_20251201T150000"; "den_20251201T151500" ]}.
Proof.
  split; [|vm_compute; reflexivity].
  refine (overlap_independent_of_masking Samples.getTime ∅ ∅
            Samples.selectAppointments Samples.selectIgnoredBaseIds
            Samples.selectIgnoredEventIds (Some 30) Samples.dec1
            Samples.busyStore _).
  intros from to rows apt [= <-] Hin Hsrc.
  repeat (apply elem_of_cons in Hin as [->|Hin];
          [try discriminate Hsrc; split; discriminate|]).
  inversion Hin.
Defined.

End MaskingExtraWitnesses.

